(** * Tart compiler: semantic core, code generation of type tests, scopes and
      the tracing collector.

    A shallow embedding of the parts of the Tart compiler that the
    specification talks about:

    - [lib/CFG/Expr.cpp]             expression nodes, [isSingular],
                                     [singularResultType], [singularParamType],
                                     [constValue], the list formatters;
    - [lib/Sema/ExprAnalyzerCall.cpp] [callName], [lookupByArgType],
                                     [callConstructor], [callExpr],
                                     [tryCoerciveCast], [addOverload], ...;
    - [lib/Gen/CodeGenExpr.cpp]      [genUnionTypeTest], [genCompositeTypeTest],
                                     [genInstanceOf], [genUpCastInstr];
    - [include/tart/CFG/Scope.h]     [IterableScope], [LocalScope],
                                     [DelegatingScope];
    - [lib/Common/GC.cpp]            [GC::sweep], [GC::sweepCallback],
                                     [GC::init], [GC::uninit];
    - [include/tart/Sema/BindingEnv.h] [Substitution], [getSubstitutionFor];
    - [lib/Objects/Builtins.cpp]     [SystemClass::get], [getSingleDefn],
                                     [objectCoerceFn].

    Pointers to heap objects are modelled by addresses ([nat]); a pointer that
    may be [NULL] is an [option].  Code that can abort (a failed [cast<>], a
    failed [DASSERT], [diag.fatal], a null dereference) returns in [Res]. *)

From stdpp Require Import base option list gmap strings.
From Stdlib Require Import ZArith Lia.

Set Default Proof Using "Type".
Set Warnings "-register-all,-clear-no-such-hyp".

(** ** Results of code that may abort *)

Inductive FaultKind : Type :=
  | NullDeref          (* dereference of a null pointer *)
  | BadCast            (* llvm [cast<T>] applied to an object of another class *)
  | AssertionFailed    (* [DASSERT], [DASSERT_OBJ], [DFAIL] *)
  | Fatal              (* [diag.fatal], which does not return *)
  | Dangling           (* use of an address that holds no object *)
  | OutOfFuel.         (* the model ran out of dispatch steps *)

Inductive Res (A : Type) : Type :=
  | Val (a : A)
  | Fault (k : FaultKind).
Arguments Val {A} a.
Arguments Fault {A} k.

Definition res_bind {A B} (m : Res A) (f : A -> Res B) : Res B :=
  match m with
  | Val a => f a
  | Fault k => Fault k
  end.

Notation "'let*' x ':=' m 'in' k" := (res_bind m (fun x => k))
  (at level 10, x name, m at level 100, k at level 200).

(** [l.empty()] *)
Definition is_nil {A} (l : list A) : bool :=
  match l with
  | [] => true
  | _ :: _ => false
  end.

Definition dassert (b : bool) : Res unit :=
  if b then Val tt else Fault AssertionFailed.

(** Code that also appends to a log (diagnostics, emitted instructions)
    returns its result together with what it appended, in order. *)
Definition Writer (L A : Type) : Type := Res (A * list L).

Definition w_ret {L A} (a : A) : Writer L A := Val (a, []).

Definition w_tell {L} (l : list L) : Writer L unit := Val (tt, l).

Definition w_lift {L A} (m : Res A) : Writer L A :=
  match m with
  | Val a => Val (a, [])
  | Fault k => Fault k
  end.

Definition w_bind {L A B} (m : Writer L A) (f : A -> Writer L B) : Writer L B :=
  match m with
  | Val (a, l1) =>
      match f a with
      | Val (b, l2) => Val (b, l1 ++ l2)
      | Fault k => Fault k
      end
  | Fault k => Fault k
  end.

Notation "'do*' x ':=' m 'in' k" := (w_bind m (fun x => k))
  (at level 10, x name, m at level 100, k at level 200).
Notation "'do*' ' pat ':=' m 'in' k" :=
  (w_bind m (fun x => match x with pat => k end))
  (at level 10, pat pattern, m at level 100, k at level 200).

(** ** Types ([tart/CFG/Type.h] and friends) *)

Module Types.

Inductive TypeId : Type :=
  | TypeId_Void | TypeId_Bool | TypeId_Char
  | TypeId_SInt8 | TypeId_SInt16 | TypeId_SInt32 | TypeId_SInt64
  | TypeId_UInt8 | TypeId_UInt16 | TypeId_UInt32 | TypeId_UInt64
  | TypeId_Float | TypeId_Double | TypeId_Null | TypeId_UnsizedInt.

Inductive CompositeKind : Type := Class | Struct | Interface | Protocol.

(** Address of a [CallExpr]; type constraints refer back to their call. *)
Definition CallAddr := nat.

(** Modelled from the spec: the tagged sum of type kinds of section 3 (the
    class declarations of [tart/CFG/Type.h], [CompositeType.h],
    [FunctionType.h], [UnionType.h], [TypeConstraint.h] are not among the
    sources).  A composite type is named by its qualified name and type
    arguments; a function type lists its self parameter, its parameter names
    and types and its return type. *)
Inductive Ty : Type :=
  | Primitive (id : TypeId)
  | Composite (kind : CompositeKind) (name : string) (typeArgs : list Ty)
  | FunctionTy (selfParam : option Ty) (paramNames : list string)
               (paramTypes : list Ty) (returnType : option Ty)
  | BoundMethodTy (fnType : Ty)
  | TupleTy (members : list Ty)
  | UnionTy (members : list Ty)
  | AddressTy (elem : Ty)
  | PointerTy (elem : Ty)
  | NativeArrayTy (elem : Ty) (size : nat)
  | TypeLiteralTy (value : Ty)
  | PatternVar (name : string)
  | PatternValue (env : nat) (var : string)
  | ResultOfConstraint (call : CallAddr)
  | ParameterOfConstraint (call : CallAddr) (index : nat)
  | BadType.

(** A [TypeRef] is a possibly undefined reference to a type. *)
Definition TypeRef := option Ty.
Definition isDefined (r : TypeRef) : bool :=
  match r with Some _ => true | None => false end.

Definition TypeId_eq_dec (a b : TypeId) : {a = b} + {a <> b}.
Proof. decide equality. Defined.

Definition CompositeKind_eq_dec (a b : CompositeKind) : {a = b} + {a <> b}.
Proof. decide equality. Defined.

Definition Ty_eq_dec : forall a b : Ty, {a = b} + {a <> b}.
Proof.
  fix IH 1.
  assert (Hl : forall l1 l2 : list Ty, {l1 = l2} + {l1 <> l2})
    by (apply List.list_eq_dec; exact IH).
  assert (Ho : forall o1 o2 : option Ty, {o1 = o2} + {o1 <> o2})
    by (decide equality).
  decide equality;
    solve [ apply TypeId_eq_dec | apply CompositeKind_eq_dec
          | apply String.string_dec | apply Nat.eq_dec
          | apply (List.list_eq_dec String.string_dec) ].
Defined.

#[global] Instance Ty_eqdec : EqDecision Ty := Ty_eq_dec.

(** Modelled from the spec: [Type::isEqual] ([Type.cpp] is not among the
    sources) is an equivalence relation on types; here it is structural
    equality. *)
Definition Ty_isEqual (a b : Ty) : bool :=
  if Ty_eq_dec a b then true else false.

(** Modelled from the spec: [TypeRef::isEqual] (TypeRef is declared outside
    these sources): two references are equal when both are defined and refer
    to equal types. *)
Definition TypeRef_isEqual (a b : TypeRef) : bool :=
  match a, b with
  | Some x, Some y => Ty_isEqual x y
  | _, _ => false
  end.
#[global] Arguments TypeRef_isEqual : simpl never.

(** Modelled from the spec: "[isSingular()] means no remaining [PatternVar],
    [PatternValue], or [Constraint] transitively reachable". *)
Fixpoint Ty_isSingular (t : Ty) : bool :=
  match t with
  | Primitive _ => true
  | Composite _ _ typeArgs => forallb Ty_isSingular typeArgs
  | FunctionTy selfParam _ paramTypes returnType =>
      match selfParam with Some s => Ty_isSingular s | None => true end
      && forallb Ty_isSingular paramTypes
      && match returnType with Some r => Ty_isSingular r | None => true end
  | BoundMethodTy fnType => Ty_isSingular fnType
  | TupleTy members => forallb Ty_isSingular members
  | UnionTy members => forallb Ty_isSingular members
  | AddressTy elem | PointerTy elem | NativeArrayTy elem _ => Ty_isSingular elem
  | TypeLiteralTy value => Ty_isSingular value
  | PatternVar _ | PatternValue _ _ => false
  | ResultOfConstraint _ | ParameterOfConstraint _ _ => false
  | BadType => true
  end.

(** [isErrorResult] on a type pointer, Expr.cpp:72. *)
Definition isErrorResult_type (ex : Ty) : bool := Ty_isEqual BadType ex.

End Types.

(** ** Definitions and expression nodes ([tart/CFG/Defn.h], [lib/CFG/Expr.cpp]) *)

Module CFG.
Import Types.

Inductive StorageClass : Type :=
  | Storage_Global | Storage_Static | Storage_Instance
  | Storage_Local | Storage_Closure.

Inductive Task : Type :=
  | Task_PrepMemberLookup | Task_PrepTypeComparison | Task_PrepConstruction
  | Task_PrepConversion | Task_PrepCodeGeneration.

(** A function type as the analyzer sees it.  [ft_selfParam] is [None] when
    [selfParam()] is null, and otherwise holds the type reference of the
    self parameter. *)
Record FunctionType : Type := mkFunctionType {
  ft_selfParam : option TypeRef;
  ft_paramNames : list string;
  ft_paramTypes : list Ty;
  ft_returnType : TypeRef }.

(** [dyn_cast<FunctionType>] on a type. *)
Definition dyn_cast_FunctionType (t : Ty) : option FunctionType :=
  match t with
  | FunctionTy selfParam names params ret =>
      Some (mkFunctionType (option_map Some selfParam) names params ret)
  | _ => None
  end.

(** [dyn_cast<BoundMethodType>] followed by [fnType()]. *)
Definition dyn_cast_BoundMethodType (t : Ty) : option Ty :=
  match t with
  | BoundMethodTy fnType => Some fnType
  | _ => None
  end.

(** Objects are identified by their address, as the source compares
    definition pointers.  [fn_isSingular], [var_isSingular] hold what
    [Defn::isSingular()] (defined in Defn.cpp, outside these sources)
    returns for the object. *)
Record FunctionDefn : Type := mkFunctionDefn {
  fn_addr : nat;
  fn_name : string;
  fn_storageClass : StorageClass;
  fn_isCtor : bool;
  fn_isTemplate : bool;
  fn_isTemplateMember : bool;
  fn_functionType : option FunctionType;   (* [None]: type not defined yet *)
  fn_isSingular : bool }.

Record VariableDefn : Type := mkVariableDefn {
  var_addr : nat;
  var_name : string;
  var_type : TypeRef;
  var_isSingular : bool }.

Record TypeDefn : Type := mkTypeDefn {
  td_addr : nat;
  td_name : string;
  td_typeValue : Ty;
  td_isTemplate : bool;
  td_isTemplateMember : bool }.

(** The [ValueDefn]s an lvalue can name. *)
Inductive ValueDefn : Type :=
  | VFunction (f : FunctionDefn)
  | VVariable (v : VariableDefn).

Definition ValueDefn_isSingular (v : ValueDefn) : bool :=
  match v with
  | VFunction f => fn_isSingular f
  | VVariable v => var_isSingular v
  end.

Inductive Defn : Type :=
  | DValue (v : ValueDefn)
  | DType (t : TypeDefn)
  | DOther (addr : nat) (name : string).   (* module, namespace, ... *)

(** [dyn_cast<FunctionDefn>] on a definition found by a scope lookup. *)
Definition dyn_cast_FunctionDefn (d : Defn) : option FunctionDefn :=
  match d with
  | DValue (VFunction f) => Some f
  | _ => None
  end.

Inductive ExprType : Type :=
  | Invalid | NoOp | Not | And | Or | RefEq | ElementRef | PtrDeref
  | ConstInt | ConstString | TypeLiteral
  | LValue | ScopeName | Assign | PostAssign | InitVar | BoundMethod
  | Call | ExactCall | Construct | FnCall | CtorCall | VTableCall
  | IndirectCall | New | TupleCtor | ArrayLiteral | ClosureEnv
  | ImplicitCast | ExplicitCast | UpCast | TryCast | DynamicCast
  | Truncate | SignExtend | ZeroExtend | IntToFloat | BitCast
  | UnionCtorCast | UnionMemberCast | CheckedUnionMemberCast
  | BinaryOpcode | Compare | InstanceOf | Prog2 | IRValue | LocalCall.

(** Which parameter each argument is bound to. *)
Definition ParameterAssignments := list nat.

(** One possible dispatch of a call.  The last three fields hold what
    [paramType(i)], [resultType()] and [isSingular()] of the candidate
    return; these methods are defined in CallCandidate.cpp, outside these
    sources. *)
Record CallCandidate_ (E : Type) : Type := mkCallCandidate {
  cc_call : CallAddr;
  cc_base : option E;
  cc_method : option FunctionDefn;
  cc_fnType : FunctionType;
  cc_paramAssignments : ParameterAssignments;
  cc_isCulled : bool;
  cc_paramType : nat -> TypeRef;
  cc_resultType : TypeRef;
  cc_isSingular : bool }.
Arguments mkCallCandidate {E}.
Arguments cc_call {E}.
Arguments cc_base {E}.
Arguments cc_method {E}.
Arguments cc_fnType {E}.
Arguments cc_paramAssignments {E}.
Arguments cc_isCulled {E}.
Arguments cc_paramType {E}.
Arguments cc_resultType {E}.
Arguments cc_isSingular {E}.

(** Expression nodes, one constructor per class of Expr.cpp.  Source
    locations are left out.  Every node carries its result type; only a
    [CallExpr] is created with a null type, which [setType] fills in later.
    [ConstantExpr] stands for the leaf classes declared elsewhere (constants,
    type literals). *)
Inductive Expr : Type :=
  | ErrorExpr
  | ConstantExpr (k : ExprType) (ty : Ty)
  | UnaryExpr (k : ExprType) (ty : Ty) (arg : Expr)
  | BinaryExpr (k : ExprType) (ty : Ty) (first second : Expr)
  | ArglistExpr (k : ExprType) (ty : Ty) (args : list Expr)
  | LValueExpr (ty : Ty) (base : option Expr) (value : ValueDefn)
  | ScopeNameExpr (ty : Ty) (value : Defn)
  | InitVarExpr (ty : Ty) (var : VariableDefn) (initExpr : Expr)
  | BoundMethodExpr (ty : Ty) (selfArg : option Expr) (method : FunctionDefn)
  | CallExpr (k : ExprType) (addr : CallAddr) (ty : option Ty)
             (function_ : option Expr)
             (candidates : list (CallCandidate_ Expr))
             (args : list Expr) (expectedReturnType : option Ty)
  | FnCallExpr (k : ExprType) (ty : Ty) (function_ : FunctionDefn)
               (args : list Expr)
  | IndirectCallExpr (ty : Ty) (function_ : Expr) (args : list Expr)
  | NewExpr (ty : Ty)
  | BinaryOpcodeExpr (ty : Ty) (opCode : nat) (first second : Expr)
  | InstanceOfExpr (ty : Ty) (value : Expr) (toType : Ty).

Definition CallCandidate := CallCandidate_ Expr.

(** [ErrorExpr::ErrorExpr() : Expr(Invalid, SourceLocation(), &BadType::instance)]
    and the static [Expr::ErrorVal]. *)
Definition ErrorVal : Expr := ErrorExpr.

Definition exprType (e : Expr) : ExprType :=
  match e with
  | ErrorExpr => Invalid
  | ConstantExpr k _ | UnaryExpr k _ _ | BinaryExpr k _ _ _
  | ArglistExpr k _ _ | CallExpr k _ _ _ _ _ _ | FnCallExpr k _ _ _ => k
  | LValueExpr _ _ _ => LValue
  | ScopeNameExpr _ _ => ScopeName
  | InitVarExpr _ _ _ => InitVar
  | BoundMethodExpr _ _ _ => BoundMethod
  | IndirectCallExpr _ _ _ => IndirectCall
  | NewExpr _ => New
  | BinaryOpcodeExpr _ _ _ _ => BinaryOpcode
  | InstanceOfExpr _ _ _ => InstanceOf
  end.

(** [Expr::type()]: the [type_] field, possibly null. *)
Definition type (e : Expr) : option Ty :=
  match e with
  | ErrorExpr => Some BadType
  | CallExpr _ _ ty _ _ _ _ => ty
  | ConstantExpr _ ty | UnaryExpr _ ty _ | BinaryExpr _ ty _ _
  | ArglistExpr _ ty _ | LValueExpr ty _ _ | ScopeNameExpr ty _
  | InitVarExpr ty _ _ | BoundMethodExpr ty _ _ | FnCallExpr _ ty _ _
  | IndirectCallExpr ty _ _ | NewExpr ty | BinaryOpcodeExpr ty _ _ _
  | InstanceOfExpr ty _ _ => Some ty
  end.

(** [InstanceOfExpr]'s constructors fix the result type to [BoolType]. *)
Definition InstanceOfExpr_new (value : Expr) (toType : Ty) : Expr :=
  InstanceOfExpr (Primitive TypeId_Bool) value toType.

(** [isErrorResult] on an expression: its type is the bad type. *)
Definition isErrorResult (e : Expr) : bool :=
  match type e with
  | Some t => isErrorResult_type t
  | None => false
  end.

(** The loop of [ArglistExpr::isSingular], over the predicate applied to
    each argument. *)
Definition ArglistExpr_isSingular (isSingular : Expr -> bool)
  : list Expr -> bool :=
  fix loop (args : list Expr) : bool :=
    match args with
    | [] => true
    | a :: rest => if negb (isSingular a) then false else loop rest
    end.

(** [isSingular()], dispatched on the class of the node.  For [ErrorExpr]
    and the leaf classes the override is declared in a header outside these
    sources; modelled from the spec: such a node is singular when its type
    is. *)
Fixpoint isSingular (e : Expr) : bool :=
  match e with
  | ErrorExpr => Ty_isSingular BadType
  | ConstantExpr _ ty => Ty_isSingular ty
  | UnaryExpr _ ty arg => Ty_isSingular ty && isSingular arg
  | BinaryExpr _ ty first second =>
      Ty_isSingular ty && isSingular first && isSingular second
  | ArglistExpr _ _ args => ArglistExpr_isSingular isSingular args
  | LValueExpr _ base value =>
      match base with None => true | Some b => isSingular b end
      && ValueDefn_isSingular value
  | ScopeNameExpr _ _ => true
  | InitVarExpr _ var initExpr => isSingular initExpr && var_isSingular var
  | BoundMethodExpr _ selfArg method =>
      match selfArg with None => true | Some s => isSingular s end
      && fn_isSingular method
  | CallExpr _ _ _ function_ candidates args _ =>
      if negb (ArglistExpr_isSingular isSingular args) then false
      else
        match candidates with
        | front :: _ =>
            Nat.eqb (length candidates) 1 && cc_isSingular front
        | [] =>
            match function_ with
            | Some f => isSingular f
            | None => false
            end
        end
  | FnCallExpr _ _ function_ args =>
      fn_isSingular function_ && ArglistExpr_isSingular isSingular args
  | IndirectCallExpr _ function_ args =>
      isSingular function_ && ArglistExpr_isSingular isSingular args
  | NewExpr ty => Ty_isSingular ty
  | BinaryOpcodeExpr ty _ first second =>
      Ty_isSingular ty && isSingular first && isSingular second
  | InstanceOfExpr _ value toType => isSingular value && Ty_isSingular toType
  end.

(** The child expressions of a node. *)
Definition children (e : Expr) : list Expr :=
  match e with
  | ErrorExpr | ConstantExpr _ _ | ScopeNameExpr _ _ | NewExpr _ => []
  | UnaryExpr _ _ arg => [arg]
  | BinaryExpr _ _ first second => [first; second]
  | ArglistExpr _ _ args => args
  | LValueExpr _ base _ => option_list base
  | InitVarExpr _ _ initExpr => [initExpr]
  | BoundMethodExpr _ selfArg _ => option_list selfArg
  | CallExpr _ _ _ function_ _ args _ => option_list function_ ++ args
  | FnCallExpr _ _ _ args => args
  | IndirectCallExpr _ function_ args => function_ :: args
  | BinaryOpcodeExpr _ _ first second => [first; second]
  | InstanceOfExpr _ value _ => [value]
  end.

(** The node's own result type is singular. *)
Definition typeIsSingular (e : Expr) : bool :=
  match type e with
  | Some t => Ty_isSingular t
  | None => false
  end.

(** The invariant of the specification at one node:
    [isSingular(expr) <-> expr.type.isSingular() /\ all(children.isSingular)]. *)
Definition SingularInvariant (e : Expr) : Prop :=
  isSingular e = true <->
  typeIsSingular e = true /\ Forall (fun c => isSingular c = true) (children e).

(** *** [CallExpr] as a mutable object

    The analyzer allocates a [CallExpr], pushes candidates and arguments into
    it and finally sets its type.  [CallExprR] holds the fields of that object;
    [CallExpr_expr] is the node it denotes. *)
Record CallExprR : Type := mkCallExpr {
  ce_exprType : ExprType;
  ce_addr : CallAddr;
  ce_type : option Ty;
  ce_function : option Expr;
  ce_candidates : list CallCandidate;
  ce_args : list Expr;
  ce_expectedReturnType : option Ty }.

Definition CallExpr_expr (c : CallExprR) : Expr :=
  CallExpr (ce_exprType c) (ce_addr c) (ce_type c) (ce_function c)
           (ce_candidates c) (ce_args c) (ce_expectedReturnType c).

(** Modelled from the spec: [new CallExpr(k, loc, function)] ("a CallExpr
    begins empty"); the constructor is declared in Expr.h, which is not among
    the sources. *)
Definition CallExpr_new (k : ExprType) (addr : CallAddr)
    (function_ : option Expr) : CallExprR :=
  mkCallExpr k addr None function_ [] [] None.

Definition setExpectedReturnType (c : CallExprR) (t : option Ty) : CallExprR :=
  mkCallExpr (ce_exprType c) (ce_addr c) (ce_type c) (ce_function c)
             (ce_candidates c) (ce_args c) t.

Definition setType (c : CallExprR) (t : option Ty) : CallExprR :=
  mkCallExpr (ce_exprType c) (ce_addr c) t (ce_function c)
             (ce_candidates c) (ce_args c) (ce_expectedReturnType c).

(** [call->candidates().push_back(cc)] *)
Definition push_candidate (c : CallExprR) (cc : CallCandidate) : CallExprR :=
  mkCallExpr (ce_exprType c) (ce_addr c) (ce_type c) (ce_function c)
             (ce_candidates c ++ [cc]) (ce_args c) (ce_expectedReturnType c).

(** [call->args().push_back(ex)] *)
Definition push_arg (c : CallExprR) (ex : Expr) : CallExprR :=
  mkCallExpr (ce_exprType c) (ce_addr c) (ce_type c) (ce_function c)
             (ce_candidates c) (ce_args c ++ [ex]) (ce_expectedReturnType c).

(** [CallExpr::singularParamType(index)], Expr.cpp:364.  [singularType] is
    the local of the same name; the result is a type pointer, null when two
    candidates disagree or no candidate was visited. *)
Fixpoint singularParamType_loop (index : nat) (cands : list CallCandidate)
    (singularType : TypeRef) : option Ty :=
  match cands with
  | [] => singularType
  | cc :: rest =>
      if cc_isCulled cc then singularParamType_loop index rest singularType
      else
        let ty := cc_paramType cc index in
        if negb (isDefined singularType) then
          singularParamType_loop index rest ty
        else if negb (TypeRef_isEqual ty singularType) then None
        else singularParamType_loop index rest singularType
  end.

Definition singularParamType (c : CallExprR) (index : nat) : option Ty :=
  singularParamType_loop index (ce_candidates c) None.

(** The type one candidate contributes in [CallExpr::singularResultType]:
    [cc->resultType()], replaced for a constructor by
    [cc->functionType()->selfParam()->type()]. *)
Definition candidateResultType (cc : CallCandidate) : Res TypeRef :=
  let ty := cc_resultType cc in
  match cc_method cc with
  | Some m =>
      if fn_isCtor m then
        match ft_selfParam (cc_fnType cc) with
        | Some selfType => Val selfType
        | None => Fault NullDeref
        end
      else Val ty
  | None => Val ty
  end.

(** [CallExpr::singularResultType()], Expr.cpp:382. *)
Fixpoint singularResultType_loop (cands : list CallCandidate)
    (singularType : TypeRef) : Res (option Ty) :=
  match cands with
  | [] => Val singularType
  | cc :: rest =>
      if cc_isCulled cc then singularResultType_loop rest singularType
      else
        let* ty := candidateResultType cc in
        if negb (isDefined singularType) then
          singularResultType_loop rest ty
        else if negb (TypeRef_isEqual ty singularType) then Val None
        else singularResultType_loop rest singularType
  end.

Definition singularResultType (c : CallExprR) : Res (option Ty) :=
  singularResultType_loop (ce_candidates c) None.

(** [CallExpr::singularCandidate()], Expr.cpp:405. *)
Fixpoint singularCandidate_loop (cands : list CallCandidate)
    (singularCandidate : option CallCandidate) : option CallCandidate :=
  match cands with
  | [] => singularCandidate
  | cc :: rest =>
      if cc_isCulled cc then singularCandidate_loop rest singularCandidate
      else
        match singularCandidate with
        | None => singularCandidate_loop rest (Some cc)
        | Some _ => None
        end
  end.

Definition singularCandidate (c : CallExprR) : option CallCandidate :=
  singularCandidate_loop (ce_candidates c) None.

(** [CallExpr::hasAnyCandidates()], Expr.cpp:422. *)
Fixpoint hasAnyCandidates_loop (cands : list CallCandidate) : bool :=
  match cands with
  | [] => false
  | cc :: rest => if negb (cc_isCulled cc) then true else hasAnyCandidates_loop rest
  end.

Definition hasAnyCandidates (c : CallExprR) : bool :=
  hasAnyCandidates_loop (ce_candidates c).

(** The candidates that are still in play. *)
Definition surviving (cands : list CallCandidate) : list CallCandidate :=
  List.filter (fun cc => negb (cc_isCulled cc)) cands.

End CFG.

(** ** The tracing collector ([lib/Common/GC.cpp]) *)

Module GC.

Definition Addr := nat.

(** The header of a collectable object: its mark bit and the link to the
    object allocated before it. *)
Record GCObject : Type := mkGC {
  marked_ : bool;
  next_ : option Addr }.

(** [size_t]: an unsigned integer of [size_t_bits] bits, here those of an
    LP64 target.  A result that does not fit wraps around. *)
Definition size_t_bits : Z := 64.

Definition size_t_wrap (n : Z) : Z := (n mod 2 ^ size_t_bits)%Z.

(** [++n] on a [size_t]. *)
Definition size_t_incr (n : Z) : Z := size_t_wrap (n + 1).

(** The objects obtained from [malloc] and not yet freed, and the static
    data of class [GC]; the counters [reclaimed] and [total] are of type
    [size_t]. *)
Record GCState : Type := mkGCState {
  heap : gmap Addr GCObject;
  allocList_ : option Addr;
  reclaimed : Z;
  total : Z;
  debugLevel : nat }.

Inductive GCDiag : Type :=
  | Info_GC (objectsReclaimed inUse : Z).

(** A [GC **]: the address of [allocList_] or of the [next_] field of an
    object. *)
Inductive Link : Type :=
  | Link_allocList
  | Link_next (gc : Addr).

(** [*ptr] *)
Definition load (st : GCState) (ptr : Link) : Res (option Addr) :=
  match ptr with
  | Link_allocList => Val (allocList_ st)
  | Link_next gc =>
      match heap st !! gc with
      | Some o => Val (next_ o)
      | None => Fault Dangling
      end
  end.

(** [*ptr = v] *)
Definition store (st : GCState) (ptr : Link) (v : option Addr) : Res GCState :=
  match ptr with
  | Link_allocList =>
      Val (mkGCState (heap st) v (reclaimed st) (total st) (debugLevel st))
  | Link_next gc =>
      match heap st !! gc with
      | Some o =>
          Val (mkGCState (<[gc := mkGC (marked_ o) v]> (heap st)) (allocList_ st)
                         (reclaimed st) (total st) (debugLevel st))
      | None => Fault Dangling
      end
  end.

(** [free(gc)] *)
Definition free (st : GCState) (gc : Addr) : GCState :=
  mkGCState (delete gc (heap st)) (allocList_ st) (reclaimed st) (total st)
            (debugLevel st).

(** [GC::operator new], GC.cpp:21: the block [gc] that [malloc] returned is
    linked in front of the allocation list.  [marked] is the mark bit the
    block starts with. *)
Definition operator_new (st : GCState) (gc : Addr) (marked : bool) : GCState :=
  mkGCState (<[gc := mkGC marked (allocList_ st)]> (heap st)) (Some gc)
            (reclaimed st) (total st) (debugLevel st).

(** [GC::sweepCallback(alloc, ctx)], GC.cpp:51: the callback of the heap
    walk that [sweep] no longer uses.  It returns whether the object is to be
    freed. *)
Definition sweepCallback (st : GCState) (alloc : Addr) : Res (GCState * bool) :=
  let st := mkGCState (heap st) (allocList_ st) (reclaimed st)
                      (size_t_incr (total st)) (debugLevel st) in
  match heap st !! alloc with
  | None => Fault Dangling
  | Some gc =>
      if marked_ gc then
        Val (mkGCState (<[alloc := mkGC false (next_ gc)]> (heap st))
                       (allocList_ st) (reclaimed st) (total st) (debugLevel st),
             false)
      else
        Val (mkGCState (heap st) (allocList_ st) (size_t_incr (reclaimed st))
                       (total st) (debugLevel st),
             true)
  end.

(** The loop [while (GC * gc = *ptr) { ... }] of [GC::sweep], GC.cpp:70.
    [fuel] bounds the number of iterations. *)
Fixpoint sweep_loop (fuel : nat) (st : GCState) (ptr : Link) : Res GCState :=
  match fuel with
  | 0 => Fault OutOfFuel
  | S fuel =>
      let* cur := load st ptr in
      match cur with
      | None => Val st
      | Some gc =>
          match heap st !! gc with
          | None => Fault Dangling
          | Some o =>
              if marked_ o then
                sweep_loop fuel st (Link_next gc)
              else
                let* st := store st ptr (next_ o) in
                sweep_loop fuel (free st gc) ptr
          end
      end
  end.

(** [GC::sweep()], GC.cpp:64.  The loop visits each object of the list
    once, so one step more than there are objects is fuel enough. *)
Definition sweep (st : GCState) : Writer GCDiag GCState :=
  let st := mkGCState (heap st) (allocList_ st) 0%Z 0%Z (debugLevel st) in
  let* st := sweep_loop (S (size (heap st))) st Link_allocList in
  if Nat.eqb (debugLevel st) 0 then Val (st, [])
  else Val (st, [Info_GC (reclaimed st)
                         (size_t_wrap (total st - reclaimed st))]).

(** The allocation list from [p] on holds the objects [l], each given by
    its address and mark bit. *)
Fixpoint linked (h : gmap Addr GCObject) (p : option Addr)
    (l : list (Addr * bool)) : Prop :=
  match l with
  | [] => p = None
  | (a, m) :: rest =>
      p = Some a /\ exists n, h !! a = Some (mkGC m n) /\ linked h n rest
  end.

(** The state holds the allocation list [l]: a chain of distinct objects
    from [allocList_] to a null link. *)
Definition holds (st : GCState) (l : list (Addr * bool)) : Prop :=
  linked (heap st) (allocList_ st) l /\ NoDup (l.*1).

Definition isMarked (o : Addr * bool) : bool := snd o.

(** The object whose [next_] field a link is, if it is one. *)
Definition ownerOf (ptr : Link) : option Addr :=
  match ptr with
  | Link_allocList => None
  | Link_next a => Some a
  end.

End GC.

(** ** Scopes ([include/tart/CFG/Scope.h]) *)

Module Scopes.
Import CFG.

Definition ScopePtr := nat.

(** Modelled from the spec: the ordered symbol table "maps a name to the
    ordered sequence of entries declared under that name"
    ([tart/CFG/SymbolTable.h] is not among the sources). *)
Definition SymbolTable := list (string * list Defn).

Definition Defn_name (d : Defn) : string :=
  match d with
  | DValue (VFunction f) => fn_name f
  | DValue (VVariable v) => var_name v
  | DType t => td_name t
  | DOther _ name => name
  end.

Fixpoint findSymbol (members : SymbolTable) (key : string) : option (list Defn) :=
  match members with
  | [] => None
  | (name, entry) :: rest =>
      if String.eqb name key then Some entry else findSymbol rest key
  end.

Fixpoint SymbolTable_add (members : SymbolTable) (d : Defn) : SymbolTable :=
  match members with
  | [] => [(Defn_name d, [d])]
  | (name, entry) :: rest =>
      if String.eqb name (Defn_name d) then (name, entry ++ [d]) :: rest
      else (name, entry) :: SymbolTable_add rest d
  end.

(** The three classes of Scope.h that can be instantiated, with their data
    members, and [OtherScope]: an object of a class that implements the
    interface [Scope] and is declared elsewhere (the comment on
    [Scope::allowOverloads] names parameter scopes).  Modelled from the spec:
    such a scope is "polymorphic with operations [parentScope], [addMember],
    [lookupMember], [allowOverloads], [getBaseExpr]"; the model keeps its
    members, its parent and what its [allowOverloads()] and [getBaseExpr()]
    answer.  A class that overrides neither keeps the defaults of [Scope],
    false and NULL. *)
Inductive ScopeObj : Type :=
  | IterableScope (members_ : SymbolTable) (parentScope_ : option ScopePtr)
  | LocalScope (members_ : SymbolTable) (parentScope_ : option ScopePtr)
  | DelegatingScope (delegate : ScopePtr) (parent : option ScopePtr)
  | OtherScope (members_ : SymbolTable) (parentScope_ : option ScopePtr)
               (allowOverloads_ : bool) (baseExpr_ : option Expr).

(** The store of scope objects. *)
Abbreviation ScopeHeap := (gmap ScopePtr ScopeObj).

(** [parentScope()].  [DelegatingScope::parentScope() { return parent; }] is
    from the source.  Modelled from the spec: [IterableScope::parentScope],
    which [LocalScope] inherits, is defined in Scope.cpp (not among the
    sources) and returns the scope's [parentScope_]. *)
Definition parentScope (h : ScopeHeap) (s : ScopePtr) : Res (option ScopePtr) :=
  match h !! s with
  | Some (IterableScope _ parentScope_) => Val parentScope_
  | Some (LocalScope _ parentScope_) => Val parentScope_
  | Some (DelegatingScope _ parent) => Val parent
  | Some (OtherScope _ parentScope_ _ _) => Val parentScope_
  | None => Fault Dangling
  end.

(** [allowOverloads()]: [Scope] returns false, [IterableScope] overrides it
    to return true, [LocalScope] declares no override and so inherits
    [IterableScope]'s, [DelegatingScope] asks its delegate, whatever its
    class.  [fuel] bounds the chain of delegations. *)
Fixpoint allowOverloads (fuel : nat) (h : ScopeHeap) (s : ScopePtr) : Res bool :=
  match fuel with
  | 0 => Fault OutOfFuel
  | S fuel =>
      match h !! s with
      | Some (IterableScope _ _) => Val true
      | Some (LocalScope _ _) => Val true
      | Some (DelegatingScope delegate _) => allowOverloads fuel h delegate
      | Some (OtherScope _ _ allowOverloads_ _) => Val allowOverloads_
      | None => Fault Dangling
      end
  end.

(** [getBaseExpr()]: [Scope] returns NULL and neither [IterableScope] nor
    [LocalScope] overrides it; [DelegatingScope] asks its delegate. *)
Fixpoint getBaseExpr (fuel : nat) (h : ScopeHeap) (s : ScopePtr)
    : Res (option Expr) :=
  match fuel with
  | 0 => Fault OutOfFuel
  | S fuel =>
      match h !! s with
      | Some (IterableScope _ _) => Val None
      | Some (LocalScope _ _) => Val None
      | Some (DelegatingScope delegate _) => getBaseExpr fuel h delegate
      | Some (OtherScope _ _ _ baseExpr_) => Val baseExpr_
      | None => Fault Dangling
      end
  end.

(** Modelled from the spec: [IterableScope::addMember] and
    [LocalScope::addMember] (Scope.cpp is not among the sources) enter the
    definition in the scope's symbol table, after the entries already declared
    under its name; a local scope reports a second declaration under a used
    name as a redefinition and leaves the table as it is.  The result is the
    new store and whether a redefinition was reported.  A scope of another
    class does as its [allowOverloads()] says ("duplicate insertion in a
    non-overloading scope is reported as a redefinition").
    [DelegatingScope::addMember(d) { delegate->addMember(d); }] is from the
    source. *)
Fixpoint addMember (fuel : nat) (h : ScopeHeap) (s : ScopePtr) (d : Defn)
    : Res (ScopeHeap * bool) :=
  match fuel with
  | 0 => Fault OutOfFuel
  | S fuel =>
      match h !! s with
      | Some (IterableScope members_ parentScope_) =>
          Val (<[s := IterableScope (SymbolTable_add members_ d) parentScope_]> h,
               false)
      | Some (LocalScope members_ parentScope_) =>
          match findSymbol members_ (Defn_name d) with
          | Some _ => Val (h, true)
          | None =>
              Val (<[s := LocalScope (SymbolTable_add members_ d) parentScope_]> h,
                   false)
          end
      | Some (DelegatingScope delegate _) => addMember fuel h delegate d
      | Some (OtherScope members_ parentScope_ allowOverloads_ baseExpr_) =>
          match findSymbol members_ (Defn_name d) with
          | Some _ =>
              if allowOverloads_ then
                Val (<[s := OtherScope (SymbolTable_add members_ d) parentScope_
                                       allowOverloads_ baseExpr_]> h, false)
              else Val (h, true)
          | None =>
              Val (<[s := OtherScope (SymbolTable_add members_ d) parentScope_
                                     allowOverloads_ baseExpr_]> h, false)
          end
      | None => Fault Dangling
      end
  end.

(** Modelled from the spec: [IterableScope::lookupMember] (Scope.cpp) appends
    the entries declared under [ident] to [defs] and says whether there were
    any, and so does a scope of another class.
    [DelegatingScope::lookupMember] is from the source. *)
Fixpoint lookupMember (fuel : nat) (h : ScopeHeap) (s : ScopePtr)
    (ident : string) (defs : list Defn) (inherit : bool)
    : Res (bool * list Defn) :=
  match fuel with
  | 0 => Fault OutOfFuel
  | S fuel =>
      match h !! s with
      | Some (IterableScope members_ _) | Some (LocalScope members_ _)
      | Some (OtherScope members_ _ _ _) =>
          match findSymbol members_ ident with
          | Some entry => Val (true, defs ++ entry)
          | None => Val (false, defs)
          end
      | Some (DelegatingScope delegate _) =>
          lookupMember fuel h delegate ident defs inherit
      | None => Fault Dangling
      end
  end.

(** [IterableScope(Scope * parent) : parentScope_(parent)] *)
Definition IterableScope_new (parent : option ScopePtr) : ScopeObj :=
  IterableScope [] parent.

(** [LocalScope(Scope * parent) : IterableScope(parent) { assert(parent != NULL); }] *)
Definition LocalScope_new (parent : option ScopePtr) : Res ScopeObj :=
  match parent with
  | Some _ => Val (LocalScope [] parent)
  | None => Fault AssertionFailed
  end.

(** [DelegatingScope(Scope * s, Scope * p) : delegate(s), parent(p)
      { p = s->parentScope(); }], Scope.h:139.
    The member initialisers run first; the body then assigns the result of
    [s->parentScope()] to the constructor's parameter [p], which nothing
    reads afterwards.  The members keep what the initialisers gave them. *)
Definition DelegatingScope_new (h : ScopeHeap) (s : ScopePtr)
    (p : option ScopePtr) : Res ScopeObj :=
  let this_delegate := s in
  let this_parent := p in
  let* p := parentScope h s in
  Val (DelegatingScope this_delegate this_parent).

(** [setDelegate], [setParentScope] of [DelegatingScope] and
    [IterableScope]; the interface [Scope] declares neither, and an object of
    another class is left as it is. *)
Definition setDelegate (o : ScopeObj) (scope : ScopePtr) : ScopeObj :=
  match o with
  | DelegatingScope _ parent => DelegatingScope scope parent
  | _ => o
  end.

Definition setParentScope (o : ScopeObj) (scope : option ScopePtr) : ScopeObj :=
  match o with
  | DelegatingScope delegate _ => DelegatingScope delegate scope
  | IterableScope members_ _ => IterableScope members_ scope
  | LocalScope members_ _ => LocalScope members_ scope
  | OtherScope _ _ _ _ => o
  end.

End Scopes.

(** ** Code generation of type tests ([lib/Gen/CodeGenExpr.cpp]) *)

Module Gen.
Import Types.

(** A union type, by its member types. *)
Record UnionType : Type := mkUnionType {
  members : list Ty }.

(** A composite type, as [cast<CompositeType>] yields it. *)
Record CompositeType : Type := mkCompositeType {
  ct_kind : CompositeKind;
  ct_name : string;
  ct_typeArgs : list Ty }.

(** [cast<CompositeType>(t)]: aborts on a type of another class. *)
Definition cast_CompositeType (t : Ty) : Res CompositeType :=
  match t with
  | Composite kind name typeArgs => Val (mkCompositeType kind name typeArgs)
  | _ => Fault BadCast
  end.

Definition CompositeType_type (c : CompositeType) : Ty :=
  Composite (ct_kind c) (ct_name c) (ct_typeArgs c).

(** [Builtins::typeObject], Builtins.cpp:39. *)
Definition Builtins_typeObject : CompositeType :=
  mkCompositeType Class "tart.core.Object" [].

(** Modelled from the spec: classes and interfaces are held by reference,
    every other type is a value type ([Type::isReferenceType] is not among the
    sources). *)
Definition isReferenceType (t : Ty) : bool :=
  match t with
  | Composite Class _ _ | Composite Interface _ _ => true
  | _ => false
  end.

Definition isVoidType (t : Ty) : bool :=
  match t with
  | Primitive TypeId_Void => true
  | _ => false
  end.

(** Modelled from the spec: "[Union{members}] -- tagged if any value-type
    member, untagged (pointer-only) otherwise; has [numValueTypes()],
    [hasVoidType()], [getTypeIndex(t)] (returns -1 on miss)"; UnionType.cpp is
    not among the sources. *)
Definition numValueTypes (u : UnionType) : nat :=
  length (List.filter (fun t => negb (isReferenceType t) && negb (isVoidType t))
                      (members u)).

Definition hasVoidType (u : UnionType) : bool :=
  existsb isVoidType (members u).

Fixpoint getTypeIndex_from (l : list Ty) (t : Ty) (index : Z) : Z :=
  match l with
  | [] => (-1)%Z
  | m :: rest =>
      if Ty_isEqual t m then index else getTypeIndex_from rest t (index + 1)%Z
  end.

Definition getTypeIndex (u : UnionType) (t : Ty) : Z :=
  getTypeIndex_from (members u) t 0%Z.

(** LLVM types, as far as the type tests name them. *)
Inductive IrType : Type :=
  | irType (t : Ty)              (* [t->irType()] *)
  | irEmbeddedType (t : Ty)      (* [t->irEmbeddedType()] *)
  | PointerType_getUnqual (elem : IrType).

(** LLVM values.  The result of an instruction is named by the instruction
    that computes it. *)
Inductive Value : Type :=
  | Incoming (id : nat)                      (* a value generated earlier *)
  | ConstantInt_getFalse                     (* [ConstantInt::getFalse(context_)] *)
  | ConstantInt_get (typeOf : Value) (n : Z) (* [ConstantInt::get(v->getType(), n)] *)
  | getInt32Val (n : Z)
  | getTypeInfoBlockPtr (t : CompositeType)
  | genFunctionValue_hasBase                 (* [genFunctionValue(Builtins::funcHasBase)] *)
  | CreateLoad (ptr : Value)
  | CreateConstInBoundsGEP2_32 (ptr : Value) (idx0 idx1 : nat)
  | CreateInBoundsGEP (ptr : Value) (indices : list Value)
  | CreateExtractValue (agg : Value) (idx : nat)
  | CreateICmpEQ (lhs rhs : Value)
  | CreateBitCast (v : Value) (ty : IrType)
  | CreateCall (callee : Value) (args : list Value).

(** A generator returns a value and the instructions it appended to the
    insertion block, in order. *)
Definition Emit (A : Type) : Type := Writer Value A.

Definition emit (v : Value) : Emit Value := Val (v, [v]).


(** [CodeGenerator::genCompositeTypeTest], CodeGenExpr.cpp:1358. *)
Definition genCompositeTypeTest (val : Value) (fromType toType : CompositeType)
    : Emit Value :=
  match ct_kind toType with
  | Class | Interface =>
      let toTypeObj := getTypeInfoBlockPtr toType in
      do* valueAsObjType :=
        emit (CreateBitCast val
                (PointerType_getUnqual
                   (irType (CompositeType_type Builtins_typeObject)))) in
      let indices := [getInt32Val 0; getInt32Val 0] in
      do* gep := emit (CreateInBoundsGEP valueAsObjType indices) in
      do* tib := emit (CreateLoad gep) in
      let args := [tib; toTypeObj] in
      let upcastTest := genFunctionValue_hasBase in
      do* result := emit (CreateCall upcastTest args) in
      Val (result, [])
  | _ => Fault AssertionFailed
  end.

(** [CodeGenerator::genUnionTypeTest], CodeGenExpr.cpp:1387. *)
Definition genUnionTypeTest (in_ : Value) (unionType : UnionType)
    (toType : Ty) (valIsLVal : bool) : Emit Value :=
  if (0 <? numValueTypes unionType)%nat || hasVoidType unionType then
    do* actualTypeIndex :=
      (if valIsLVal then
         do* field := emit (CreateConstInBoundsGEP2_32 in_ 0 0) in
         emit (CreateLoad field)
       else
         emit (CreateExtractValue in_ 0)) in
    let testIndex := getTypeIndex unionType toType in
    if (testIndex <? 0)%Z then
      Val (ConstantInt_getFalse, [])
    else
      let testIndexValue := ConstantInt_get actualTypeIndex testIndex in
      do* testResult := emit (CreateICmpEQ actualTypeIndex testIndexValue) in
      Val (testResult, [])
  else
    do* in_ := (if valIsLVal then emit (CreateLoad in_) else Val (in_, [])) in
    match cast_CompositeType toType with
    | Val cto =>
        do* refTypeVal := emit (CreateBitCast in_ (irEmbeddedType toType)) in
        genCompositeTypeTest refTypeVal Builtins_typeObject cto
    | Fault k => Fault k
    end.

End Gen.

(** ** Call analysis ([lib/Sema/ExprAnalyzerCall.cpp]) *)

Module Sema.
Import Types CFG.

Definition ScopePtr := nat.

(** The AST nodes the call analysis inspects ([tart/AST/ASTNode.h] is not
    among the sources): identifiers, member references, explicit
    specializations, keyword arguments; [ASTLiteral] stands for every other
    node. *)
Inductive ASTNode : Type :=
  | ASTIdent (value : string)
  | ASTMemberRef (qualifier : ASTNode) (memberName : string)
  | ASTSpecialize (templateExpr : ASTNode) (templateArgs : list ASTNode)
  | ASTKeywordArg (keyword : string) (arg : ASTNode)
  | ASTLiteral (value : Z).

Inductive NodeType : Type := Id | Member | Specialize | Keyword | Literal.

Definition nodeType (n : ASTNode) : NodeType :=
  match n with
  | ASTIdent _ => Id
  | ASTMemberRef _ _ => Member
  | ASTSpecialize _ _ => Specialize
  | ASTKeywordArg _ _ => Keyword
  | ASTLiteral _ => Literal
  end.

(** What the analysis writes to the diagnostics sink, and the two other
    effects of [callConstructor] on its surroundings. *)
Inductive Event : Type :=
  | Error_UndefinedMethod (callable : ASTNode)
  | Error_MultipleDefinitions (callable : ASTNode)
  | Error_NotConstructable (ty : Ty)
  | Error_NoMatchingMethod (callable : ASTNode) (argTypes : list (option Ty))
                           (expected : option Ty)
  | Error_NoConstructorsFound (tdef : TypeDefn)
  | Error_NoConstructorMatching (args : list ASTNode)
  | Info_Candidate (result : Expr)
  | Info_Method (d : Defn)
  | WriteLn_ScopesSearched
  | DumpScopeHierarchy
  | CheckAccess (tdef : TypeDefn)
  | Module_addSymbol (tdef : TypeDefn).

Definition W (A : Type) : Type := Writer Event A.

(** The diagnostic "No matching method for call to ...". *)
Definition isNoMatchingMethod (e : Event) : bool :=
  match e with
  | Error_NoMatchingMethod _ _ _ => true
  | _ => false
  end.

(** The collaborators of the call analysis that are defined outside
    ExprAnalyzerCall.cpp, taken as parameters.  A lookup returns what it
    reports ([bool]) and what it appends to its output list. *)
Record Externals : Type := mkExternals {
  (* ExprAnalyzer, AnalyzerBase *)
  lookupName : ASTNode -> list Expr;
  getTypesFromExprs : list Expr -> bool * list Ty;
  analyzeValueDefn : ValueDefn -> Task -> bool;
  analyzeDefn : FunctionDefn -> Task -> bool;
  analyzeType : Ty -> Task -> bool;
  lvalueBase : Expr -> option Expr;
  reduceExpr : ASTNode -> Ty -> Expr;
  lookupTemplateMember : TypeDefn -> string -> bool * list Defn;
  (* ParameterAssignmentsBuilder *)
  assignFromAST : FunctionType -> list ASTNode -> option ParameterAssignments;
  assignPositional : FunctionType -> nat -> option ParameterAssignments;
  (* CallCandidate: what the views of a new candidate return *)
  candParamType : option FunctionDefn -> FunctionType -> ParameterAssignments ->
                  nat -> TypeRef;
  candResultType : option FunctionDefn -> FunctionType -> ParameterAssignments ->
                   TypeRef;
  candIsSingular : option Expr -> option FunctionDefn -> FunctionType ->
                   ParameterAssignments -> bool;
  (* Type, TypeDefn, Scope *)
  dealias : Ty -> option Ty;
  typeDefn : Ty -> option TypeDefn;
  definingScope : TypeDefn -> option ScopePtr;
  memberScope : Ty -> option ScopePtr;
  lookupMember : ScopePtr -> string -> bool -> bool * list Defn;
  asExpr : TypeDefn -> Expr;
  coercers : Ty -> list FunctionDefn }.

(** [istrings.idConstruct], [istrings.idCreate] *)
Definition idConstruct : string := "construct".
Definition idCreate : string := "create".

Definition isStaticOrGlobal (f : FunctionDefn) : bool :=
  match fn_storageClass f with
  | Storage_Static | Storage_Global => true
  | _ => false
  end.

Definition isStorageStatic (f : FunctionDefn) : bool :=
  match fn_storageClass f with
  | Storage_Static => true
  | _ => false
  end.

Definition isStorageInstance (f : FunctionDefn) : bool :=
  match fn_storageClass f with
  | Storage_Instance => true
  | _ => false
  end.

(** [!returnType().isDefined() || returnType().isVoidType()] *)
Definition returnsNothing (ft : FunctionType) : bool :=
  match ft_returnType ft with
  | None => true
  | Some (Primitive TypeId_Void) => true
  | Some _ => false
  end.

(** [cons->addTrait(Defn::Ctor)] *)
Definition addTrait_Ctor (f : FunctionDefn) : FunctionDefn :=
  mkFunctionDefn (fn_addr f) (fn_name f) (fn_storageClass f) true
                 (fn_isTemplate f) (fn_isTemplateMember f)
                 (fn_functionType f) (fn_isSingular f).

(** A set of pointers ([llvm::SmallPtrSet]); [None] is the null pointer.
    [insert] says whether the pointer was new. *)
Definition PtrSet := list (option nat).

Definition PtrSet_mem (p : option nat) (s : PtrSet) : bool :=
  existsb (fun q => bool_decide (p = q)) s.

Definition PtrSet_insert (p : option nat) (s : PtrSet) : bool * PtrSet :=
  if PtrSet_mem p s then (false, s) else (true, p :: s).

Definition TySet_mem (t : Ty) (s : list Ty) : bool :=
  existsb (Ty_isEqual t) s.

(** The states in which the candidate-gathering loop of [callName] is left:
    it runs to its end, or it returns from [callName] with a pointer. *)
Inductive Gathered : Type :=
  | Gather_done (success : bool) (call : CallExprR)
  | Gather_return (p : option Expr).

(** Where [callName] stands before its final checks: it has returned a
    pointer, or it holds the lookup results, the [success] flag and the call
    with the candidates of all the overloads tried. *)
Inductive Resolved : Type :=
  | Resolved_return (p : option Expr)
  | Resolved_call (results : list Expr) (success : bool) (call : CallExprR).

Section Analyzer.
Variable X : Externals.

(** [new CallCandidate(call, base, method|fnType, pa)].  Modelled from the
    spec: a candidate is created not culled. *)
Definition newCallCandidate (call : CallExprR) (base : option Expr)
    (method : option FunctionDefn) (ft : FunctionType)
    (pa : ParameterAssignments) : CallCandidate :=
  mkCallCandidate (ce_addr call) base method ft pa false
    (candParamType X method ft pa) (candResultType X method ft pa)
    (candIsSingular X base method ft pa).

(** [addOverload(call, baseExpr, method, const ASTNodeList & args)],
    ExprAnalyzerCall.cpp:502. *)
Definition addOverload (call : CallExprR) (baseExpr : option Expr)
    (method : FunctionDefn) (args : list ASTNode) : W (bool * CallExprR) :=
  if negb (analyzeValueDefn X (VFunction method) Task_PrepConversion) then
    w_ret (false, call)
  else
    match fn_functionType method with
    | None => Fault AssertionFailed
    | Some ft =>
        match assignFromAST X ft args with
        | Some pa =>
            w_ret (true,
                   push_candidate call
                     (newCallCandidate call baseExpr (Some method) ft pa))
        | None => w_ret (true, call)
        end
    end.

(** [addOverload(call, LValueExpr * fn, const FunctionType * ftype, args)],
    ExprAnalyzerCall.cpp:518. *)
Definition addOverload_fnType (call : CallExprR) (fn : Expr)
    (ftype : FunctionType) (args : list ASTNode) : W (bool * CallExprR) :=
  match assignFromAST X ftype args with
  | Some pa =>
      w_ret (true,
             push_candidate call (newCallCandidate call (Some fn) None ftype pa))
  | None => w_ret (true, call)
  end.

(** [addOverload(call, baseExpr, method, const ExprList & args)],
    ExprAnalyzerCall.cpp:534: one positional argument per expression, then
    [builder.check()]. *)
Definition addOverload_exprs (call : CallExprR) (baseExpr : option Expr)
    (method : FunctionDefn) (args : list Expr) : W (bool * CallExprR) :=
  if negb (analyzeValueDefn X (VFunction method) Task_PrepConversion) then
    w_ret (false, call)
  else
    match fn_functionType method with
    | None => Fault AssertionFailed
    | Some ft =>
        match assignPositional X ft (length args) with
        | None => w_ret (false, call)
        | Some pa =>
            w_ret (true,
                   push_candidate call
                     (newCallCandidate call baseExpr (Some method) ft pa))
        end
    end.

(** [getMappedParameterType(call, index)], ExprAnalyzerCall.cpp:493. *)
Definition getMappedParameterType (call : CallExprR) (index : nat)
    : option Ty :=
  match singularParamType call index with
  | Some ty => Some ty
  | None => Some (ParameterOfConstraint (ce_addr call) index)
  end.

(** [reduceReturnType(call)], ExprAnalyzerCall.cpp:480. *)
Definition reduceReturnType (call : CallExprR) : Res Ty :=
  let* ty := singularResultType call in
  match ty with
  | Some ty =>
      let* _ := (if isSingular (CallExpr_expr call)
                 then dassert (Ty_isSingular ty) else Val tt) in
      Val ty
  | None => Val (ResultOfConstraint (ce_addr call))
  end.

(** [reduceArgList(in, call)], ExprAnalyzerCall.cpp:456; [i] is the loop
    index. *)
Fixpoint reduceArgList_loop (in_ : list ASTNode) (i : nat) (call : CallExprR)
    : bool * CallExprR :=
  match in_ with
  | [] => (true, call)
  | a :: rest =>
      let arg := match a with
                 | ASTKeywordArg _ inner => inner
                 | _ => a
                 end in
      match getMappedParameterType call i with
      | None => (false, call)
      | Some paramType =>
          let ex := reduceExpr X arg paramType in
          if isErrorResult ex then (false, call)
          else reduceArgList_loop rest (S i) (push_arg call ex)
      end
  end.

Definition reduceArgList (in_ : list ASTNode) (call : CallExprR)
    : bool * CallExprR :=
  reduceArgList_loop in_ 0 call.

(** First loop of [lookupByArgType], ExprAnalyzerCall.cpp:186: the
    definitions found under [name] in the defining scopes of the argument
    types. *)
Fixpoint lookupByArgType_search (name : string) (callArgs : list Expr)
    (typesSearched : list Ty) (defns : list Defn) : list Defn :=
  match callArgs with
  | [] => defns
  | arg :: rest =>
      match type arg with
      | Some ty =>
          if Ty_isSingular ty then
            match dealias X ty with
            | Some argType =>
                if negb (TySet_mem argType typesSearched) then
                  let typesSearched := argType :: typesSearched in
                  let _ := analyzeType X argType Task_PrepMemberLookup in
                  match typeDefn X argType with
                  | Some argTypeDefn =>
                      match definingScope X argTypeDefn with
                      | Some scope =>
                          lookupByArgType_search name rest typesSearched
                            (defns ++ snd (lookupMember X scope name true))
                      | None =>
                          lookupByArgType_search name rest typesSearched defns
                      end
                  | None => lookupByArgType_search name rest typesSearched defns
                  end
                else lookupByArgType_search name rest typesSearched defns
            | None => lookupByArgType_search name rest typesSearched defns
            end
          else lookupByArgType_search name rest typesSearched defns
      | None => lookupByArgType_search name rest typesSearched defns
      end
  end.

(** "Set of methods already found", ExprAnalyzerCall.cpp:208. *)
Fixpoint methodsFound_init (cclist : list CallCandidate) (methodsFound : PtrSet)
    : PtrSet :=
  match cclist with
  | [] => methodsFound
  | cc :: rest =>
      methodsFound_init rest
        (snd (PtrSet_insert (option_map fn_addr (cc_method cc)) methodsFound))
  end.

(** Last loop of [lookupByArgType], ExprAnalyzerCall.cpp:213. *)
Fixpoint lookupByArgType_add (defns : list Defn) (methodsFound : PtrSet)
    (call : CallExprR) (args : list ASTNode) : W CallExprR :=
  match defns with
  | [] => w_ret call
  | d :: rest =>
      match dyn_cast_FunctionDefn d with
      | Some f =>
          if isStaticOrGlobal f then
            let '(inserted, methodsFound') :=
              PtrSet_insert (Some (fn_addr f)) methodsFound in
            if inserted then
              do* r := addOverload call None f args in
              lookupByArgType_add rest methodsFound' (snd r) args
            else lookupByArgType_add rest methodsFound' call args
          else lookupByArgType_add rest methodsFound call args
      | None => lookupByArgType_add rest methodsFound call args
      end
  end.

(** [lookupByArgType(call, name, args)], ExprAnalyzerCall.cpp:180. *)
Definition lookupByArgType (call : CallExprR) (name : string)
    (args : list ASTNode) : W CallExprR :=
  let defns := lookupByArgType_search name (ce_args call) [] [] in
  let methodsFound := methodsFound_init (ce_candidates call) [] in
  lookupByArgType_add defns methodsFound call args.

(** The loops of [callConstructor] over the members found: constructors are
    given the [NewExpr] as base, creators must be static and get no base. *)
Fixpoint addConstructors (methods : list Defn) (newExpr : Expr)
    (call : CallExprR) (args : list ASTNode) : W CallExprR :=
  match methods with
  | [] => w_ret call
  | d :: rest =>
      match dyn_cast_FunctionDefn d with
      | None => Fault BadCast
      | Some ctor =>
          match fn_functionType ctor with
          | None => Fault AssertionFailed
          | Some ft =>
              do* _ := w_lift (dassert (fn_isCtor ctor)) in
              do* _ := w_lift (dassert (returnsNothing ft)) in
              do* _ := w_lift (dassert (isStorageInstance ctor)) in
              do* r := addOverload call (Some newExpr) ctor args in
              addConstructors rest newExpr (snd r) args
          end
      end
  end.

Fixpoint addCreators (methods : list Defn) (call : CallExprR)
    (args : list ASTNode) : W CallExprR :=
  match methods with
  | [] => w_ret call
  | d :: rest =>
      match dyn_cast_FunctionDefn d with
      | None => Fault BadCast
      | Some create =>
          match fn_functionType create with
          | None => Fault AssertionFailed
          | Some _ =>
              if isStorageStatic create then
                do* r := addOverload call None create args in
                addCreators rest (snd r) args
              else addCreators rest call args
          end
      end
  end.

(** The same loops for a template, ExprAnalyzerCall.cpp:331 and :344. *)
Fixpoint addTemplateConstructors (methods : list Defn) (newExpr : Expr)
    (call : CallExprR) (args : list ASTNode) : W CallExprR :=
  match methods with
  | [] => w_ret call
  | d :: rest =>
      match dyn_cast_FunctionDefn d with
      | None => Fault BadCast
      | Some ctor =>
          if analyzeDefn X ctor Task_PrepTypeComparison then
            match fn_functionType ctor with
            | None => Fault AssertionFailed
            | Some ft =>
                do* _ := w_lift (dassert (returnsNothing ft)) in
                do* _ := w_lift (dassert (isStorageInstance ctor)) in
                do* _ := w_lift (dassert (fn_isTemplate ctor
                                          || fn_isTemplateMember ctor)) in
                let ctor := addTrait_Ctor ctor in
                do* r := addOverload call (Some newExpr) ctor args in
                addTemplateConstructors rest newExpr (snd r) args
            end
          else addTemplateConstructors rest newExpr call args
      end
  end.

Fixpoint addTemplateCreators (methods : list Defn) (call : CallExprR)
    (args : list ASTNode) : W CallExprR :=
  match methods with
  | [] => w_ret call
  | d :: rest =>
      match dyn_cast_FunctionDefn d with
      | None => Fault BadCast
      | Some create =>
          if isStorageStatic create then
            if analyzeDefn X create Task_PrepTypeComparison then
              match fn_functionType create with
              | None => Fault AssertionFailed
              | Some _ =>
                  do* r := addOverload call None create args in
                  addTemplateCreators rest (snd r) args
              end
            else addTemplateCreators rest call args
          else addTemplateCreators rest call args
      end
  end.

(** What the search for constructors yields: the call with its candidates
    and the members found, or no constructor at all. *)
Inductive ConstructorSearch : Type :=
  | Constructors_found (call : CallExprR) (methods : list Defn)
  | Constructors_none.

(** The search of [callConstructor] for a type that is not a template,
    ExprAnalyzerCall.cpp:360-395.  [methods] is the list the three lookups
    share. *)
Definition findConstructors (ty : Ty) (scope : ScopePtr) (call : CallExprR)
    (args : list ASTNode) : W ConstructorSearch :=
  let methods : list Defn := [] in
  let '(found, out) := lookupMember X scope idConstruct false in
  let methods := methods ++ out in
  if found then
    let newExpr := NewExpr ty in
    do* _ := w_lift (dassert (negb (is_nil methods))) in
    do* call := addConstructors methods newExpr call args in
    w_ret (Constructors_found call methods)
  else
    let '(found, out) := lookupMember X scope idCreate false in
    let methods := methods ++ out in
    if found then
      do* _ := w_lift (dassert (negb (is_nil methods))) in
      do* call := addCreators methods call args in
      w_ret (Constructors_found call methods)
    else
      let '(found, out) := lookupMember X scope idConstruct true in
      let methods := methods ++ out in
      if found then
        let newExpr := NewExpr ty in
        do* _ := w_lift (dassert (negb (is_nil methods))) in
        do* call := addConstructors methods newExpr call args in
        w_ret (Constructors_found call methods)
      else
        w_ret Constructors_none.

(** The search for a template, ExprAnalyzerCall.cpp:328-358. *)
Definition findTemplateConstructors (ty : Ty) (tdef : TypeDefn)
    (call : CallExprR) (args : list ASTNode) : W ConstructorSearch :=
  let methods : list Defn := [] in
  let '(found, out) := lookupTemplateMember X tdef idConstruct in
  let methods := methods ++ out in
  if found then
    let newExpr := NewExpr ty in
    do* _ := w_lift (dassert (negb (is_nil methods))) in
    do* call := addTemplateConstructors methods newExpr call args in
    w_ret (Constructors_found call methods)
  else
    let '(found, out) := lookupTemplateMember X tdef idCreate in
    let methods := methods ++ out in
    if found then
      do* _ := w_lift (dassert (negb (is_nil methods))) in
      do* call := addTemplateCreators methods call args in
      w_ret (Constructors_found call methods)
    else
      (* diag.error, then DFAIL("Implement constructor inheritance ...") *)
      Fault AssertionFailed.

(** [callConstructor(loc, tdef, args)], ExprAnalyzerCall.cpp:301.  [addr] is
    the address [new CallExpr] returns. *)
Definition callConstructor (addr : CallAddr) (tdef : TypeDefn)
    (args : list ASTNode) : W (option Expr) :=
  let ty := td_typeValue tdef in
  do* _ := w_tell [CheckAccess tdef] in
  do* _ := (if negb (td_isTemplate tdef) && negb (td_isTemplateMember tdef)
            then w_tell [Module_addSymbol tdef] else w_ret tt) in
  if negb (analyzeType X ty Task_PrepConstruction) then
    w_ret (Some ErrorVal)
  else
    let call := CallExpr_new Construct addr (Some (asExpr X tdef)) in
    let call := setExpectedReturnType call (Some ty) in
    do* search :=
      (if td_isTemplate tdef then findTemplateConstructors ty tdef call args
       else
         match memberScope X ty with
         | None => Fault NullDeref
         | Some scope => findConstructors ty scope call args
         end) in
    match search with
    | Constructors_none =>
        do* _ := w_tell [Error_NoConstructorsFound tdef] in
        w_ret (Some ErrorVal)
    | Constructors_found call methods =>
        if negb (hasAnyCandidates call) then
          do* _ := w_tell (Error_NoConstructorMatching args
                           :: map Info_Method methods) in
          w_ret (Some ErrorVal)
        else
          let '(ok, call) := reduceArgList args call in
          if negb ok then w_ret (Some ErrorVal)
          else
            do* ty := w_lift (reduceReturnType call) in
            w_ret (Some (CallExpr_expr (setType call (Some ty))))
    end.

(** The loop of [callName] over the lookup results,
    ExprAnalyzerCall.cpp:95-134. *)
Fixpoint gatherOverloads (results : list Expr) (args : list ASTNode)
    (success : bool) (call : CallExprR) : W Gathered :=
  match results with
  | [] => w_ret (Gather_done success call)
  | r :: rest =>
      match r with
      | LValueExpr _ _ (VFunction func) =>
          do* ok := addOverload call (lvalueBase X r) func args in
          gatherOverloads rest args (success && fst ok) (snd ok)
      | LValueExpr _ _ (VVariable var) =>
          if negb (analyzeValueDefn X (VVariable var) Task_PrepTypeComparison)
          then
            (* [return false;] in a function that returns [Expr *] *)
            w_ret (Gather_return None)
          else
            match var_type var with
            | None => Fault NullDeref
            | Some vty =>
                match dyn_cast_FunctionType vty with
                | Some ft =>
                    do* ok := addOverload_fnType call r ft args in
                    gatherOverloads rest args (success && fst ok) (snd ok)
                | None =>
                    match dyn_cast_BoundMethodType vty with
                    | Some fnTy =>
                        match dyn_cast_FunctionType fnTy with
                        | Some ft =>
                            do* ok := addOverload_fnType call r ft args in
                            gatherOverloads rest args (success && fst ok) (snd ok)
                        | None => Fault BadCast
                        end
                    | None => gatherOverloads rest args success call
                    end
                end
            end
      | _ => Fault Fatal     (* diag.fatal: "... is not callable." *)
      end
  end.

(** The end of [callName], ExprAnalyzerCall.cpp:146-177, once the
    candidates are gathered and the arguments reduced. *)
Definition callName_finish (callable : ASTNode) (results : list Expr)
    (expected : option Ty) (success : bool) (call : CallExprR)
    : W (option Expr) :=
  if negb success then w_ret (Some ErrorVal)
  else if is_nil results then
    do* _ := w_tell [Error_UndefinedMethod callable; WriteLn_ScopesSearched;
                     DumpScopeHierarchy] in
    w_ret (Some ErrorVal)
  else if is_nil (ce_candidates call) then
    do* _ := w_tell (Error_NoMatchingMethod callable (map type (ce_args call))
                                            expected
                     :: map Info_Candidate results) in
    w_ret (Some ErrorVal)
  else
    do* ty := w_lift (reduceReturnType call) in
    w_ret (Some (CallExpr_expr (setType call (Some ty)))).

(** "If it's unqualified, then do ADL", ExprAnalyzerCall.cpp:140-144. *)
Definition callName_adl (callable : ASTNode) (args : list ASTNode)
    (call : CallExprR) : W CallExprR :=
  match callable, args with
  | ASTIdent name, _ :: _ => lookupByArgType call name args
  | _, _ => w_ret call
  end.

(** The first part of [callName], ExprAnalyzerCall.cpp:46-144: name lookup,
    the early exits, the constructor call when the name denotes a type, and
    otherwise the gathering of candidates, the reduction of the arguments and
    the argument-dependent lookup.  [addr] is the address [new CallExpr]
    returns. *)
Definition callName_resolve (addr : CallAddr) (callable : ASTNode)
    (args : list ASTNode) (expected : option Ty) (isOptional : bool)
    : W Resolved :=
  match nodeType callable with
  | Id | Member | Specialize =>
      let isUnqualified := match nodeType callable with Id => true | _ => false end in
      let success := true in
      let results := lookupName X callable in
      if is_nil results && negb isUnqualified then
        if isOptional then w_ret (Resolved_return None)
        else
          do* _ := w_tell [Error_UndefinedMethod callable; WriteLn_ScopesSearched;
                           DumpScopeHierarchy] in
          w_ret (Resolved_return (Some ErrorVal))
      else
        let '(areTypes, typeList) :=
          if negb (is_nil results) then getTypesFromExprs X results
          else (false, []) in
        if areTypes then
          if (1 <? length typeList)%nat then
            do* _ := w_tell [Error_MultipleDefinitions callable] in
            w_ret (Resolved_return (Some ErrorVal))
          else
            match typeList with
            | [] => Fault NullDeref          (* [typeList.front()] of an empty list *)
            | ty :: _ =>
                match typeDefn X ty with
                | None =>
                    do* _ := w_tell [Error_NotConstructable ty] in
                    w_ret (Resolved_return (Some ErrorVal))
                | Some tdef =>
                    do* p := callConstructor addr tdef args in
                    w_ret (Resolved_return p)
                end
            end
        else
          let call := CallExpr_new Call addr None in
          let call := setExpectedReturnType call expected in
          do* g := gatherOverloads results args success call in
          match g with
          | Gather_return p => w_ret (Resolved_return p)
          | Gather_done success call =>
              let '(ok, call) := reduceArgList args call in
              if negb ok then w_ret (Resolved_return (Some ErrorVal))
              else
                do* call := (if isUnqualified then callName_adl callable args call
                             else w_ret call) in
                w_ret (Resolved_call results success call)
          end
  | _ => Fault AssertionFailed
  end.

(** [callName(loc, callable, args, expected, isOptional)],
    ExprAnalyzerCall.cpp:46.  The result is the pointer returned, [None] for
    a null pointer. *)
Definition callName (addr : CallAddr) (callable : ASTNode)
    (args : list ASTNode) (expected : option Ty) (isOptional : bool)
    : W (option Expr) :=
  do* r := callName_resolve addr callable args expected isOptional in
  match r with
  | Resolved_return p => w_ret p
  | Resolved_call results success call =>
      callName_finish callable results expected success call
  end.

(** [tryCoerciveCast(in, toType)], ExprAnalyzerCall.cpp:428: the coercers of
    a composite target type become the candidates of a call on [in]. *)
Fixpoint addCoercers (cs : list FunctionDefn) (call : CallExprR) : W CallExprR :=
  match cs with
  | [] => w_ret call
  | c :: rest =>
      do* r := addOverload_exprs call None c (ce_args call) in
      addCoercers rest (snd r)
  end.

Definition tryCoerciveCast (addr : CallAddr) (in_ : Expr) (toType : Ty)
    : W (option Expr) :=
  match toType with
  | Composite _ _ _ =>
      if negb (is_nil (coercers X toType)) then
        if negb (analyzeType X toType Task_PrepConversion) then w_ret None
        else
          let call := CallExpr_new Call addr None in
          let call := setExpectedReturnType call (Some toType) in
          let call := push_arg call in_ in
          do* call := addCoercers (coercers X toType) call in
          if is_nil (ce_candidates call) then w_ret None
          else
            do* ty := w_lift (reduceReturnType call) in
            w_ret (Some (CallExpr_expr (setType call (Some ty))))
      else w_ret None
  | _ => w_ret None
  end.

End Analyzer.

End Sema.

(** ** Sample objects used to run the model on concrete inputs *)

Module Samples.
Import Types CFG.

Definition tyInt32 : Ty := Primitive TypeId_SInt32.
Definition tyInt64 : Ty := Primitive TypeId_SInt64.
Definition tyVoid : Ty := Primitive TypeId_Void.
Definition tyFoo : Ty := Composite Class "other.Foo" [].
Definition tyString : Ty := Composite Class "tart.core.String" [].

(** [def f(a:int32) -> int32], a global function. *)
Definition fnType_f : FunctionType :=
  mkFunctionType None ["a"] [tyInt32] (Some tyInt32).
Definition fn_f : FunctionDefn :=
  mkFunctionDefn 1 "f" Storage_Global false false false (Some fnType_f) true.

(** [def g(a:int64) -> int64], a global function. *)
Definition fnType_g : FunctionType :=
  mkFunctionType None ["a"] [tyInt64] (Some tyInt64).
Definition fn_g : FunctionDefn :=
  mkFunctionDefn 2 "f" Storage_Global false false false (Some fnType_g) true.

(** [String.construct(s:String)], a constructor. *)
Definition fnType_construct : FunctionType :=
  mkFunctionType (Some (Some tyString)) ["s"] [tyString] None.
Definition fn_construct : FunctionDefn :=
  mkFunctionDefn 3 "construct" Storage_Instance true false false
                 (Some fnType_construct) true.

Definition candidateOf (call : CallAddr) (base : option Expr)
    (f : FunctionDefn) (ft : FunctionType) : CallCandidate :=
  mkCallCandidate call base (Some f) ft [0] false
    (fun i => nth_error (ft_paramTypes ft) i) (ft_returnType ft) true.

Definition cand_f : CallCandidate := candidateOf 0 None fn_f fnType_f.
Definition cand_g : CallCandidate := candidateOf 0 None fn_g fnType_g.
Definition cand_construct : CallCandidate :=
  candidateOf 0 (Some (NewExpr tyString)) fn_construct fnType_construct.

Definition callWith (cands : list CallCandidate) : CallExprR :=
  mkCallExpr Call 0 None None cands [] None.

End Samples.

(** ** Call analysis: what the loops compute, stated apart from the loops *)

Module CallSpec.
Import Types CFG Sema.

(** The call [c] with the candidate list [l]. *)
Definition withCandidates (c : CallExprR) (l : list CallCandidate) : CallExprR :=
  mkCallExpr (ce_exprType c) (ce_addr c) (ce_type c) (ce_function c) l
             (ce_args c) (ce_expectedReturnType c).

(** The call [c] with the argument list [l]. *)
Definition withArgs (c : CallExprR) (l : list Expr) : CallExprR :=
  mkCallExpr (ce_exprType c) (ce_addr c) (ce_type c) (ce_function c)
             (ce_candidates c) l (ce_expectedReturnType c).

Definition asDefn (f : FunctionDefn) : Defn := DValue (VFunction f).

(** What the loops of [callConstructor] assert of a member found under
    [construct], ExprAnalyzerCall.cpp:365-368: its type is defined, it is a
    constructor, it returns nothing and it is an instance method. *)
Definition isConstructorMember (f : FunctionDefn) : Prop :=
  exists ft, fn_functionType f = Some ft /\ fn_isCtor f = true /\
             returnsNothing ft = true /\ isStorageInstance f = true.

(** What they assert of a member found under [create],
    ExprAnalyzerCall.cpp:375: its type is defined. *)
Definition isCreateMember (f : FunctionDefn) : Prop :=
  is_Some (fn_functionType f).

Section Spec.
Variable X : Externals.

(** The candidate that offering [method] with [args] adds to the call at
    [addr]: none when the method cannot be analyzed or the arguments do not
    map onto its parameters. *)
Definition acceptedCandidate (addr : CallAddr) (base : option Expr)
    (args : list ASTNode) (method : FunctionDefn) : option CallCandidate :=
  if analyzeValueDefn X (VFunction method) Task_PrepConversion then
    match fn_functionType method with
    | Some ft =>
        match assignFromAST X ft args with
        | Some pa =>
            Some (mkCallCandidate addr base (Some method) ft pa false
                    (candParamType X (Some method) ft pa)
                    (candResultType X (Some method) ft pa)
                    (candIsSingular X base (Some method) ft pa))
        | None => None
        end
    | None => None
    end
  else None.

(** The dealiased type of an argument whose type is singular. *)
Definition adlArgType (arg : Expr) : option Ty :=
  match type arg with
  | Some ty => if Ty_isSingular ty then dealias X ty else None
  | None => None
  end.

(** The elements of [l] that are not in [seen], each once, in the order of
    their first occurrence. *)
Fixpoint distinctFrom (seen : list Ty) (l : list Ty) : list Ty :=
  match l with
  | [] => []
  | t :: rest =>
      if TySet_mem t seen then distinctFrom seen rest
      else t :: distinctFrom (t :: seen) rest
  end.

(** The distinct dealiased singular argument types of a call. *)
Definition adlTypes (callArgs : list Expr) : list Ty :=
  distinctFrom [] (omap adlArgType callArgs).

(** What the defining scope of an argument type holds under [name],
    inherited members included. *)
Definition adlScopeDefns (name : string) (argType : Ty) : list Defn :=
  match typeDefn X argType with
  | Some argTypeDefn =>
      match definingScope X argTypeDefn with
      | Some scope => snd (lookupMember X scope name true)
      | None => []
      end
  | None => []
  end.

Definition adlDefns (name : string) (callArgs : list Expr) : list Defn :=
  flat_map (adlScopeDefns name) (adlTypes callArgs).

(** [f] is already the method of a candidate (the same object, that is the
    same address). *)
Definition alreadyCandidate (cands : list CallCandidate) (f : FunctionDefn)
    : Prop :=
  exists cc, cc ∈ cands /\ option_map fn_addr (cc_method cc) = Some (fn_addr f).

(** The static or global functions among [defns] whose address is not in
    [found], each address once. *)
Fixpoint adlSelect (defns : list Defn) (found : PtrSet) : list FunctionDefn :=
  match defns with
  | [] => []
  | d :: rest =>
      match dyn_cast_FunctionDefn d with
      | Some f =>
          if isStaticOrGlobal f then
            if PtrSet_mem (Some (fn_addr f)) found then adlSelect rest found
            else f :: adlSelect rest (Some (fn_addr f) :: found)
          else adlSelect rest found
      | None => adlSelect rest found
      end
  end.

(** C4 as the specification states it, for one run of the lookup: every
    static or global function found in the defining scope of an argument
    type that is not yet a candidate's method is the method of a candidate
    afterwards. *)
Definition AdlClaim (call : CallExprR) (name : string) (args : list ASTNode)
    : Prop :=
  forall call' log f,
    lookupByArgType X call name args = Val (call', log) ->
    asDefn f ∈ adlDefns name (ce_args call) ->
    isStaticOrGlobal f = true ->
    ~ alreadyCandidate (ce_candidates call) f ->
    exists cc, cc ∈ ce_candidates call' /\ cc_method cc = Some f.

(** No variable that is called fails its analysis (the exit of [callName]
    through [return false]). *)
Definition variableCalleesAnalyzed (results : list Expr) : Prop :=
  forall ty base v,
    LValueExpr ty base (VVariable v) ∈ results ->
    analyzeValueDefn X (VVariable v) Task_PrepTypeComparison = true.

(** What the gathering of candidates in [callName] requires of a lookup
    result to run on, ExprAnalyzerCall.cpp:95-134: the result is an lvalue;
    when it names a function that can be analyzed, the type of the function
    is defined; when it names a variable, the variable has a type, and the
    function type of a bound method is a function type. *)
Definition calleeWellFormed (r : Expr) : Prop :=
  match r with
  | LValueExpr _ _ (VFunction func) =>
      analyzeValueDefn X (VFunction func) Task_PrepConversion = true ->
      is_Some (fn_functionType func)
  | LValueExpr _ _ (VVariable var) =>
      exists vty, var_type var = Some vty /\
        forall fnTy, dyn_cast_FunctionType vty = None ->
                     dyn_cast_BoundMethodType vty = Some fnTy ->
                     is_Some (dyn_cast_FunctionType fnTy)
  | _ => False
  end.

End Spec.

Definition quiet (log : list Event) : Prop :=
  Forall (fun e => isNoMatchingMethod e = false) log.

(** What a returned expression pointer is when it is not null: the error
    sentinel, or a call whose type has been set. *)
Definition errorOrTypedCall (e : Expr) : Prop :=
  e = ErrorVal \/
  exists call ty, e = CallExpr_expr call /\ ce_type call = Some ty.

(** All surviving candidates contribute the type [t]. *)
Definition agreeOn (cands : list CallCandidate) (t : Ty) : Prop :=
  forall cc, In cc (surviving cands) -> candidateResultType cc = Val (Some t).

(** "All non-culled candidates agree on the result type". *)
Definition candidatesAgree (cands : list CallCandidate) : Prop :=
  exists t, agreeOn cands t.

(** No surviving candidate is a constructor without a self parameter. *)
Definition resultTypesComputable (cands : list CallCandidate) : Prop :=
  forall cc, In cc (surviving cands) -> exists r, candidateResultType cc = Val r.

(** C3 as the specification states it, for one call: when the surviving
    candidates agree, the type assigned is [singularResultType()]. *)
Definition ResultTypeClaim (call : CallExprR) : Prop :=
  candidatesAgree (ce_candidates call) ->
  exists t, singularResultType call = Val (Some t) /\
            reduceReturnType call = Val t.

(** C6 as the specification states it, for one run of [callName]: the
    pointer returned is not null. *)
Definition NeverNullClaim (X : Externals) (addr : CallAddr)
    (callable : ASTNode) (args : list ASTNode) (expected : option Ty)
    (isOptional : bool) : Prop :=
  forall r log,
    callName X addr callable args expected isOptional = Val (r, log) ->
    r <> None.

End CallSpec.

(** ** Sample analyses *)

Module CallSamples.
Import Types CFG Sema Samples CallSpec.

Definition tdefOf (addr : nat) (name : string) (ty : Ty) : TypeDefn :=
  mkTypeDefn addr name ty false false.

Definition tdefFoo : TypeDefn := tdefOf 10 "Foo" tyFoo.
Definition tdefString : TypeDefn := tdefOf 11 "String" tyString.

(** Scope 100 is the module [other], in which [Foo] is defined; scope 101 is
    the member scope of [String]. *)
Definition scopeOther : ScopePtr := 100.
Definition scopeStringMembers : ScopePtr := 101.

(** [other.print(x:Foo, y:Foo)], a global function of two parameters. *)
Definition fnType_print2 : FunctionType :=
  mkFunctionType None ["x"; "y"] [tyFoo; tyFoo] (Some tyVoid).
Definition fn_print2 : FunctionDefn :=
  mkFunctionDefn 20 "print" Storage_Global false false false
                 (Some fnType_print2) true.

(** [other.print(x:Foo)], a global function of one parameter. *)
Definition fnType_print1 : FunctionType :=
  mkFunctionType None ["x"] [tyFoo] (Some tyVoid).
Definition fn_print1 : FunctionDefn :=
  mkFunctionDefn 21 "print" Storage_Global false false false
                 (Some fnType_print1) true.

(** [print(x:int32)], visible at the point of call. *)
Definition fnType_printInt : FunctionType :=
  mkFunctionType None ["x"] [tyInt32] (Some tyVoid).
Definition fn_printInt : FunctionDefn :=
  mkFunctionDefn 22 "print" Storage_Global false false false
                 (Some fnType_printInt) true.

(** [String.create(s:String) -> String], a static factory. *)
Definition fnType_create : FunctionType :=
  mkFunctionType None ["s"] [tyString] (Some tyString).
Definition fn_create : FunctionDefn :=
  mkFunctionDefn 23 "create" Storage_Static false false false
                 (Some fnType_create) true.

(** A variable [v] of function type. *)
Definition var_v : VariableDefn :=
  mkVariableDefn 30 "v"
    (Some (FunctionTy None ["a"] [tyInt32] (Some tyInt32))) true.

(** The value [x], of type [Foo], and the string literal. *)
Definition expr_x : Expr := ConstantExpr ConstInt tyFoo.
Definition expr_str : Expr := ConstantExpr ConstString tyString.

(** A base analyzer: every analysis succeeds, positional arguments are
    assigned when their number is the number of parameters, the argument [x]
    reduces to a value of type [Foo] and every other argument to a string,
    nothing is found by name. *)
Definition baseExternals : Externals :=
  mkExternals
    (fun _ => [])
    (fun _ => (false, []))
    (fun _ _ => true)
    (fun _ _ => true)
    (fun _ _ => true)
    (fun e => match e with LValueExpr _ base _ => base | _ => None end)
    (fun a _ => match a with ASTIdent "x" => expr_x | _ => expr_str end)
    (fun _ _ => (false, []))
    (fun ft args =>
       if Nat.eqb (length args) (length (ft_paramTypes ft))
       then Some (seq 0 (length args)) else None)
    (fun ft n =>
       if Nat.eqb n (length (ft_paramTypes ft)) then Some (seq 0 n) else None)
    (fun _ ft pa i =>
       match nth_error pa i with
       | Some k => nth_error (ft_paramTypes ft) k
       | None => None
       end)
    (fun _ ft _ => ft_returnType ft)
    (fun _ _ _ _ => true)
    (fun t => Some t)
    (fun t => match t with
              | Composite _ "other.Foo" _ => Some tdefFoo
              | Composite _ "tart.core.String" _ => Some tdefString
              | _ => None
              end)
    (fun td => if Nat.eqb (td_addr td) 10 then Some scopeOther else None)
    (fun t => match t with
              | Composite _ "tart.core.String" _ => Some scopeStringMembers
              | _ => None
              end)
    (fun _ _ _ => (false, []))
    (fun td => ConstantExpr TypeLiteral (TypeLiteralTy (td_typeValue td)))
    (fun _ => []).

(** [X] with another name lookup and another scope lookup. *)
Definition withLookups (X : Externals)
    (names : ASTNode -> list Expr)
    (types : list Expr -> bool * list Ty)
    (scopes : ScopePtr -> string -> bool -> bool * list Defn) : Externals :=
  mkExternals names types
    (analyzeValueDefn X) (analyzeDefn X) (analyzeType X) (lvalueBase X)
    (reduceExpr X) (lookupTemplateMember X) (assignFromAST X)
    (assignPositional X) (candParamType X) (candResultType X)
    (candIsSingular X) (dealias X) (typeDefn X) (definingScope X)
    (memberScope X) scopes (asExpr X) (coercers X).

(** [X] with another analysis of value definitions. *)
Definition withAnalyzeValueDefn (X : Externals)
    (analyze : ValueDefn -> Task -> bool) : Externals :=
  mkExternals (lookupName X) (getTypesFromExprs X)
    analyze (analyzeDefn X) (analyzeType X) (lvalueBase X)
    (reduceExpr X) (lookupTemplateMember X) (assignFromAST X)
    (assignPositional X) (candParamType X) (candResultType X)
    (candIsSingular X) (dealias X) (typeDefn X) (definingScope X)
    (memberScope X) (lookupMember X) (asExpr X) (coercers X).

(** [print(x)] where [print(int32)] is visible and the module of [Foo]
    defines [print(Foo, Foo)] and [print(Foo)]. *)
Definition printWorld : Externals :=
  withLookups baseExternals
    (fun n => match n with
              | ASTIdent "print" =>
                  [LValueExpr (FunctionTy None ["x"] [tyInt32] (Some tyVoid))
                              None (VFunction fn_printInt)]
              | _ => []
              end)
    (fun _ => (false, []))
    (fun sc name _ =>
       if Nat.eqb sc scopeOther && String.eqb name "print"
       then (true, [DValue (VFunction fn_print2); DValue (VFunction fn_print1)])
       else (false, [])).

(** [String("hi")] where [String] has both [construct] and [create]. *)
Definition stringWorld : Externals :=
  withLookups baseExternals
    (fun n => match n with
              | ASTIdent "String" => [ConstantExpr TypeLiteral (TypeLiteralTy tyString)]
              | _ => []
              end)
    (fun _ => (true, [tyString]))
    (fun sc name inherit =>
       if Nat.eqb sc scopeStringMembers && String.eqb name "construct"
       then (true, [DValue (VFunction fn_construct)])
       else if Nat.eqb sc scopeStringMembers && String.eqb name "create"
       then (true, [DValue (VFunction fn_create)])
       else (false, [])).

(** [String("hi")] where [String] has [create] and no [construct]. *)
Definition createWorld : Externals :=
  withLookups baseExternals
    (fun n => match n with
              | ASTIdent "String" => [ConstantExpr TypeLiteral (TypeLiteralTy tyString)]
              | _ => []
              end)
    (fun _ => (true, [tyString]))
    (fun sc name inherit =>
       if Nat.eqb sc scopeStringMembers && String.eqb name "create"
       then (true, [DValue (VFunction fn_create)])
       else (false, [])).

(** [String("hi")] where [String] has neither of its own and inherits
    [construct]. *)
Definition inheritedWorld : Externals :=
  withLookups baseExternals
    (fun n => match n with
              | ASTIdent "String" => [ConstantExpr TypeLiteral (TypeLiteralTy tyString)]
              | _ => []
              end)
    (fun _ => (true, [tyString]))
    (fun sc name inherit =>
       if Nat.eqb sc scopeStringMembers && String.eqb name "construct" && inherit
       then (true, [DValue (VFunction fn_construct)])
       else (false, [])).

(** The methods of the candidates of a call, by their addresses. *)
Definition candidateMethods (call : CallExprR) : list (option nat) :=
  map (fun cc => option_map fn_addr (cc_method cc)) (ce_candidates call).

(** [print(x)] where no [print] is visible at the point of call and the
    module of [Foo] defines [print(Foo, Foo)] and [print(Foo)]. *)
Definition adlOnlyWorld : Externals :=
  withLookups baseExternals
    (fun _ => [])
    (fun _ => (false, []))
    (fun sc name _ =>
       if Nat.eqb sc scopeOther && String.eqb name "print"
       then (true, [DValue (VFunction fn_print2); DValue (VFunction fn_print1)])
       else (false, [])).

(** [v(1)] where [v] is a variable of function type whose analysis
    fails. *)
Definition variableWorld : Externals :=
  withAnalyzeValueDefn
    (withLookups baseExternals
       (fun n => match n with
                 | ASTIdent "v" =>
                     [LValueExpr (FunctionTy None ["a"] [tyInt32] (Some tyInt32))
                                 None (VVariable var_v)]
                 | _ => []
                 end)
       (fun _ => (false, []))
       (fun _ _ _ => (false, [])))
    (fun d _ => match d with VVariable _ => false | VFunction _ => true end).

(** The call [print(x)] after the gathering of candidates and the reduction
    of its argument: [print(int32)] is its candidate, [x : Foo] its
    argument. *)
Definition printCall : CallExprR :=
  withArgs
    (withCandidates (CallExpr_new Call 0 None)
       (omap (acceptedCandidate printWorld 0 None [ASTIdent "x"]) [fn_printInt]))
    [expr_x].

End CallSamples.

(** ** Sample unions and scopes *)

Module GenSamples.
Import Types Gen Samples.

(** The union [(A | B)] of two classes, tested against the class [C]. *)
Definition classA : Ty := Composite Class "A" [].
Definition classB : Ty := Composite Class "B" [].
Definition classC : Ty := Composite Class "C" [].
Definition unionAB : UnionType := mkUnionType [classA; classB].
(** The union [(int32 | String)]. *)
Definition unionIntString : UnionType := mkUnionType [tyInt32; tyString].


End GenSamples.

Module GCSamples.
Import GC.

(** Three objects allocated in the order 1, 2, 3, of which 2 is not
    marked. *)
Definition sampleState : GCState :=
  operator_new
    (operator_new (operator_new (mkGCState ∅ None 0%Z 0%Z 0) 1 true) 2 false)
    3 true.

Definition sampleList : list (Addr * bool) := [(3, true); (2, false); (1, true)].

End GCSamples.

Module ScopeSamples.
Import CFG Scopes.

(** A class scope 1 inside a module scope 0; a method body sees the class
    members through a delegating scope 2 whose parent is a scope 3, not the
    module.  The delegating scope reports parent 3, allows overloads as the
    class scope does, and a member added through it lands in the class
    scope. *)
Definition sampleHeap : ScopeHeap :=
  <[3 := IterableScope [] None]>
    (<[1 := IterableScope [] (Some 0)]>
       (<[0 := IterableScope [] None]> ∅)).

(** The expression [self], through which instance members are reached. *)
Definition selfExpr : Expr :=
  LValueExpr (Types.Composite Types.Class "Foo" []) None
    (VVariable (mkVariableDefn 40 "self"
                  (Some (Types.Composite Types.Class "Foo" [])) true)).

(** The sample scopes and a scope 6 of another class, inside the module
    scope: it keeps the default of [Scope::allowOverloads], false, and
    answers [getBaseExpr()] with [self]. *)
Definition otherHeap : ScopeHeap :=
  <[6 := OtherScope [] (Some 0) false (Some selfExpr)]> sampleHeap.

End ScopeSamples.

(** ** Call analysis and expressions: further notions used in the statements *)

Module MoreSpec.
Import Types CFG Sema CallSpec.

(** The argument node itself, for a keyword argument the node behind the
    keyword. *)
Definition argNode (a : ASTNode) : ASTNode :=
  match a with
  | ASTKeywordArg _ inner => inner
  | _ => a
  end.

(** The type against which the argument at [index] is reduced: the
    parameter type the candidates agree on, or a constraint over the call. *)
Definition mappedType (call : CallExprR) (index : nat) : Ty :=
  match singularParamType call index with
  | Some ty => ty
  | None => ParameterOfConstraint (ce_addr call) index
  end.

(** The arguments [in_], the first of which has index [i], each reduced
    against its mapped parameter type. *)
Fixpoint reducedArgs (X : Externals) (call : CallExprR) (i : nat)
    (in_ : list ASTNode) : list Expr :=
  match in_ with
  | [] => []
  | a :: rest =>
      reduceExpr X (argNode a) (mappedType call i) :: reducedArgs X call (S i) rest
  end.

(** The expressions before the first error result. *)
Fixpoint untilError (l : list Expr) : list Expr :=
  match l with
  | [] => []
  | e :: rest => if isErrorResult e then [] else e :: untilError rest
  end.

Definition noError (l : list Expr) : bool :=
  forallb (fun e => negb (isErrorResult e)) l.

(** A candidate that [tryCoerciveCast] adds for the coercers [cs]: it has
    no base, is not culled, and its method is one of [cs] that could be
    analyzed. *)
Definition coercerCandidate (X : Externals) (cs : list FunctionDefn)
    (cc : CallCandidate) : Prop :=
  cc_base cc = None /\ cc_isCulled cc = false /\
  exists f, In f cs /\ cc_method cc = Some f /\
            analyzeValueDefn X (VFunction f) Task_PrepConversion = true.

(** The effects [callConstructor] has before it looks at the type. *)
Definition accessEvents (tdef : TypeDefn) : list Event :=
  CheckAccess tdef ::
  (if negb (td_isTemplate tdef) && negb (td_isTemplateMember tdef)
   then [Module_addSymbol tdef] else []).

(** The operands of a node: its children, but for a call with candidates
    only its arguments, since [CallExpr::isSingular] then leaves the function
    expression aside. *)
Definition operands (e : Expr) : list Expr :=
  match e with
  | CallExpr _ _ _ _ (_ :: _) args _ => args
  | _ => children e
  end.

End MoreSpec.

(** ** Calls of an expression ([ExprAnalyzer::callExpr]) *)

Module SemaExpr.
Import Types CFG Sema.

(** What [callExpr] writes: the events of the call analysis, and its own
    diagnostic "... is not a callable expression."  The subject streamed into
    that diagnostic is the variable [func] declared in the condition of the
    [if] whose [else] branch reports it, that is, the null result of the
    failed [dyn_cast<FunctionDefn>]. *)
Inductive ExprEvent : Type :=
  | Analysis (e : Event)
  | Error_NotACallableExpression (func : option FunctionDefn).

(** A step of the call analysis run inside [callExpr]. *)
Definition w_events {A} (m : W A) : Writer ExprEvent A :=
  match m with
  | Val (a, l) => Val (a, map Analysis l)
  | Fault k => Fault k
  end.

Section Analyzer.
Variable X : Externals.

(** [dyn_cast<TypeLiteralExpr>(func)] followed by [value()]; the class is
    declared in Constant.h, outside these sources. *)
Variable typeLiteralValue : Expr -> option Ty.

(** [callExpr(loc, func, args, expected)], ExprAnalyzerCall.cpp:224.  [addr]
    is the address [new CallExpr] returns. *)
Definition callExpr (addr : CallAddr) (func : Expr) (args : list ASTNode)
    (expected : option Ty) : Writer ExprEvent (option Expr) :=
  if isErrorResult func then w_ret (Some func)
  else
    match typeLiteralValue func with
    | Some value =>
        match typeDefn X value with
        | Some tdef => w_events (callConstructor X addr tdef args)
        | None => Fault NullDeref    (* [tdef->typeValue()] on a null [tdef] *)
        end
    | None =>
        match func with
        | LValueExpr _ _ value =>
            let call := CallExpr_new Call addr None in
            let call := setExpectedReturnType call expected in
            match value with
            | VFunction f =>
                do* r := w_events (addOverload X call (lvalueBase X func) f args) in
                let call := snd r in
                let '(ok, call) := reduceArgList X args call in
                if negb ok then w_ret (Some ErrorVal)
                else
                  do* ty := w_lift (reduceReturnType call) in
                  w_ret (Some (CallExpr_expr (setType call (Some ty))))
            | VVariable _ =>
                do* _ := w_tell [Error_NotACallableExpression None] in
                w_ret (Some ErrorVal)
            end
        | _ => Fault Fatal    (* "Unimplemented function type" *)
        end
    end.

End Analyzer.

End SemaExpr.

(** ** The collector's life cycle ([lib/Common/GC.cpp]) *)

Module GCLife.
Import GC.

(** A registered [GC::Callback], named by its address. *)
Definition Callback := nat.

(** The file-level statics [initialized] and [uninitCallbacks]. *)
Record Statics : Type := mkStatics {
  initialized : bool;
  uninitCallbacks : list Callback }.

(** The statics as the program starts. *)
Definition startStatics : Statics := mkStatics false [].

(** [GC::init()], GC.cpp:31. *)
Definition init (s : Statics) : Res Statics :=
  let* _ := dassert (negb (initialized s)) in
  Val (mkStatics true (uninitCallbacks s)).

(** The loop of [GC::uninit] over the callbacks: each callback is called,
    which the log records.  A callback is taken not to register callbacks itself. *)
Fixpoint callAll (cbs : list Callback) : Writer Callback unit :=
  match cbs with
  | [] => w_ret tt
  | cb :: rest =>
      do* _ := w_tell [cb] in
      callAll rest
  end.

(** [GC::uninit()], GC.cpp:36. *)
Definition uninit (s : Statics) : Writer Callback Statics :=
  do* _ := w_lift (dassert (initialized s)) in
  let s := mkStatics false (uninitCallbacks s) in
  do* _ := callAll (uninitCallbacks s) in
  w_ret (mkStatics (initialized s) []).

(** [GC::registerUninitCallback(cb)], GC.cpp:47. *)
Definition registerUninitCallback (s : Statics) (cb : Callback) : Statics :=
  mkStatics (initialized s) (uninitCallbacks s ++ [cb]).

(** [GC::operator new], GC.cpp:21, with its [DASSERT(initialized)]. *)
Definition GC_operator_new (s : Statics) (st : GCState) (gc : Addr)
    (marked : bool) : Res GCState :=
  let* _ := dassert (initialized s) in
  Val (operator_new st gc marked).

(** The mark phase between two sweeps sets or clears the mark bit of an
    object and leaves its link alone. *)
Definition setMarked (st : GCState) (gc : Addr) (marked : bool) : GCState :=
  match heap st !! gc with
  | Some o =>
      mkGCState (<[gc := mkGC marked (next_ o)]> (heap st)) (allocList_ st)
                (reclaimed st) (total st) (debugLevel st)
  | None => st
  end.

(** The states of the collector that a program can reach: it starts with an
    empty allocation list, allocates blocks that [malloc] has not handed out
    yet, marks and sweeps. *)
Inductive reachable : GCState -> Prop :=
  | reachable_start (level : nat) :
      reachable (mkGCState ∅ None 0%Z 0%Z level)
  | reachable_new (st : GCState) (gc : Addr) (marked : bool) :
      reachable st -> heap st !! gc = None ->
      reachable (operator_new st gc marked)
  | reachable_mark (st : GCState) (gc : Addr) (marked : bool) :
      reachable st -> reachable (setMarked st gc marked)
  | reachable_sweep (st st' : GCState) (d : list GCDiag) :
      reachable st -> sweep st = Val (st', d) -> reachable st'.

(** The list [l] with the mark of [gc] set to [marked]. *)
Definition remark (gc : Addr) (marked : bool) (l : list (Addr * bool))
    : list (Addr * bool) :=
  map (fun o => if Nat.eqb (fst o) gc then (fst o, marked) else o) l.

(** The allocation list of [st] is [l] and holds every object of the
    heap. *)
Definition wellFormed (st : GCState) (l : list (Addr * bool)) : Prop :=
  holds st l /\ forall a, a ∈ l.*1 <-> is_Some (heap st !! a).

End GCLife.

(** ** Chains of delegating scopes *)

Module ScopeChains.
Import CFG Scopes.

(** From [s], [n] delegating scopes lead to [t]: each is a
    [DelegatingScope] whose delegate is the next. *)
Inductive delegatesTo (h : ScopeHeap) : ScopePtr -> nat -> ScopePtr -> Prop :=
  | delegatesTo_here (s : ScopePtr) : delegatesTo h s 0 s
  | delegatesTo_step (s delegate : ScopePtr) (parent : option ScopePtr)
                     (n : nat) (t : ScopePtr) :
      h !! s = Some (DelegatingScope delegate parent) ->
      delegatesTo h delegate n t ->
      delegatesTo h s (S n) t.

End ScopeChains.

(** ** Code generation of [isa] tests and upcasts ([lib/Gen/CodeGenExpr.cpp]) *)

Module GenExpr.
Import Types CFG Gen.

Section InstanceOf.

(** [genExpr], the generator of the operand, of which the type tests are
    the part embedded here; it returns a null pointer when it could not
    generate the value. *)
Variable genExpr : Expr -> Emit (option Value).

(** [CodeGenerator::genInstanceOf(in)], CodeGenExpr.cpp:308, on the fields
    [value()] and [toType()] of the node. *)
Definition genInstanceOf (value : Expr) (toType : Ty) : Emit (option Value) :=
  match type value with
  | None => Fault AssertionFailed
  | Some valueType =>
      do* val := genExpr value in
      match val with
      | None => w_ret None
      | Some val =>
          match valueType with
          | UnionTy members =>
              do* r := genUnionTypeTest val (mkUnionType members) toType false in
              w_ret (Some r)
          | _ =>
              do* fromType := w_lift (cast_CompositeType valueType) in
              do* toType := w_lift (cast_CompositeType toType) in
              do* r := genCompositeTypeTest val fromType toType in
              w_ret (Some r)
          end
      end
  end.

End InstanceOf.

Section UpCast.

(** [CompositeType::isSubclassOf] and [CompositeType::super]
    (CompositeType.cpp is not among the sources), and whether the LLVM type
    of a value is a pointer type. *)
Variable isSubclassOf : CompositeType -> CompositeType -> bool.
Variable super : CompositeType -> option CompositeType.
Variable isPointerTy : Value -> bool.

(** Two [CompositeType] pointers are the same. *)
Definition sameType (a b : CompositeType) : bool :=
  Ty_isEqual (CompositeType_type a) (CompositeType_type b).

(** The loop [while (fromType != toType)] of [genUpCastInstr],
    CodeGenExpr.cpp:1246: one index for each supertype.  [fuel] bounds the
    number of iterations. *)
Fixpoint upcastIndices (fuel : nat) (fromType toType : CompositeType)
    (indices : list Value) : Res (list Value) :=
  match fuel with
  | 0 => Fault OutOfFuel
  | S fuel =>
      if sameType fromType toType then Val indices
      else
        match super fromType with
        | None => Fault AssertionFailed
        | Some fromType =>
            upcastIndices fuel fromType toType (indices ++ [getInt32Val 0])
        end
  end.

(** [CodeGenerator::genUpCastInstr(val, from, to)], CodeGenExpr.cpp:1214. *)
Definition genUpCastInstr (fuel : nat) (val : Value) (from to : Ty)
    : Emit Value :=
  if Ty_isEqual from to then w_ret val
  else
    match cast_CompositeType to, cast_CompositeType from with
    | Val toType, Val fromType =>
        if negb (isSubclassOf fromType toType) then Fault Fatal
        else
          do* _ := w_lift (dassert (isPointerTy val)) in
          match ct_kind toType with
          | Interface =>
              emit (CreateBitCast val (PointerType_getUnqual (irType to)))
          | _ =>
              let indices := [getInt32Val 0] in
              do* indices := w_lift (upcastIndices fuel fromType toType indices) in
              emit (CreateInBoundsGEP val indices)
          end
    | _, _ => Fault AssertionFailed
    end.

(** The [n]-th supertype of [c]. *)
Fixpoint superN (n : nat) (c : CompositeType) : option CompositeType :=
  match n with
  | 0 => Some c
  | S n =>
      match super c with
      | Some s => superN n s
      | None => None
      end
  end.

End UpCast.

End GenExpr.

(** ** Formatting of lists and constant values ([lib/CFG/Expr.cpp]) *)

Module ExprUtil.
Import Types CFG.

(** A [FormatStream], by what has been written to it. *)
Definition FormatStream := string.

Section Format.
Context {A : Type}.

(** How [out << x] prints one element: the printers of expressions and of
    types are defined outside these sources. *)
Variable print : A -> string.

(** The loop shared by [formatExprList], [formatExprTypeList] and
    [formatTypeList]: a separator before every element but the one at
    [begin()]. *)
Fixpoint formatList_loop (atBegin : bool) (l : list A) (out : FormatStream)
    : FormatStream :=
  match l with
  | [] => out
  | x :: rest =>
      let out := if negb atBegin then out +:+ ", " else out in
      let out := out +:+ print x in
      formatList_loop false rest out
  end.

End Format.

(** [formatExprList(out, exprs)], Expr.cpp:42. *)
Definition formatExprList (printExpr : Expr -> string) (out : FormatStream)
    (exprs : list Expr) : FormatStream :=
  formatList_loop printExpr true exprs out.

(** [formatExprTypeList(out, exprs)], Expr.cpp:52: the types of the
    expressions. *)
Definition formatExprTypeList (printType : option Ty -> string)
    (out : FormatStream) (exprs : list Expr) : FormatStream :=
  formatList_loop (fun e => printType (type e)) true exprs out.

(** [formatTypeList(out, types)], Expr.cpp:62. *)
Definition formatTypeList (printType : option Ty -> string)
    (out : FormatStream) (types : list (option Ty)) : FormatStream :=
  formatList_loop printType true types out.

Section ConstValue.

(** [value->defnType() == Defn::Let], [var->initValue()] and the class test
    of [dyn_cast_or_null<ConstantExpr>]: Defn.h, VariableDefn.h and
    Constant.h are not among the sources. *)
Variable isLet : ValueDefn -> bool.
Variable initValue : VariableDefn -> option Expr.
Variable isConstantExpr : Expr -> bool.

(** [LValueExpr::constValue(in)], Expr.cpp:246. *)
Definition constValue (in_ : Expr) : Expr :=
  match in_ with
  | LValueExpr _ _ value =>
      if isLet value then
        match value with
        | VVariable var =>
            match initValue var with
            | Some cexp => if isConstantExpr cexp then cexp else in_
            | None => in_
            end
        | VFunction _ => in_
        end
      else in_
  | _ => in_
  end.

End ConstValue.

End ExprUtil.

(** ** Substitutions of a binding environment ([tart/Sema/BindingEnv.h]) *)

Module Unification.

(** A [const Type *], compared by address as the source does. *)
Definition TypePtr := nat.

(** [class Substitution]: its fields, [prev_] being the rest of the chain. *)
Inductive Substitution : Type :=
  | mkSubstitution (left_ right_ lowerBound_ upperBound_ : TypePtr)
                   (prev_ : option Substitution).

Definition left (s : Substitution) : TypePtr :=
  match s with mkSubstitution l _ _ _ _ => l end.
Definition right (s : Substitution) : TypePtr :=
  match s with mkSubstitution _ r _ _ _ => r end.
Definition lowerBound (s : Substitution) : TypePtr :=
  match s with mkSubstitution _ _ lo _ _ => lo end.
Definition upperBound (s : Substitution) : TypePtr :=
  match s with mkSubstitution _ _ _ up _ => up end.
Definition prev (s : Substitution) : option Substitution :=
  match s with mkSubstitution _ _ _ _ p => p end.

(** [Substitution(left, right, prev)], BindingEnv.h:37. *)
Definition Substitution_new (left right : TypePtr)
    (prev : option Substitution) : Substitution :=
  mkSubstitution left right right right prev.

(** [Substitution(left, upper, lower, prev)], BindingEnv.h:46. *)
Definition Substitution_bounds (left upper lower : TypePtr)
    (prev : option Substitution) : Substitution :=
  mkSubstitution left lower lower upper prev.

(** [class BindingEnv]: the head of the chain. *)
Record BindingEnv : Type := mkBindingEnv {
  substitutions_ : option Substitution }.

(** [BindingEnv()] and the copy constructor [BindingEnv(env)]. *)
Definition BindingEnv_new : BindingEnv := mkBindingEnv None.
Definition BindingEnv_copy (env : BindingEnv) : BindingEnv :=
  mkBindingEnv (substitutions_ env).

Definition empty (env : BindingEnv) : bool :=
  match substitutions_ env with None => true | Some _ => false end.

Definition substitutions (env : BindingEnv) : option Substitution :=
  substitutions_ env.

Definition setSubstitutions (env : BindingEnv) (s : option Substitution)
    : BindingEnv :=
  mkBindingEnv s.

(** The loop of [getSubstitutionFor], BindingEnv.h:185, from the
    substitution [s] on. *)
Fixpoint getSubstitutionFor_from (s : Substitution) (l : TypePtr)
    : option Substitution :=
  if Nat.eqb (left s) l then Some s
  else
    match s with
    | mkSubstitution _ _ _ _ (Some p) => getSubstitutionFor_from p l
    | mkSubstitution _ _ _ _ None => None
    end.

(** [BindingEnv::getSubstitutionFor(left)], BindingEnv.h:184. *)
Definition getSubstitutionFor (env : BindingEnv) (l : TypePtr)
    : option Substitution :=
  match substitutions_ env with
  | Some s => getSubstitutionFor_from s l
  | None => None
  end.

(** The substitutions of a chain, the newest first. *)
Fixpoint chain_from (s : Substitution) : list Substitution :=
  s :: match s with
       | mkSubstitution _ _ _ _ (Some p) => chain_from p
       | mkSubstitution _ _ _ _ None => []
       end.

Definition chain (env : BindingEnv) : list Substitution :=
  match substitutions_ env with
  | Some s => chain_from s
  | None => []
  end.

End Unification.

(** ** Built-in types ([lib/Objects/Builtins.cpp]) *)

Module BuiltinTypes.
Import Types CFG Gen Sema.

(** What the functions of Builtins.cpp write to the diagnostics. *)
Inductive BuiltinDiag : Type :=
  | Info_CouldntFindSystemDefinition (name : string).

Section Loader.

(** [PackageMgr::get().getModuleForImportPath(name)]: null, or the module,
    given by what its [primaryDefn()] returns. *)
Variable getModuleForImportPath : string -> option (option Defn).

(** [Builtins::loadSystemModule(name)], Builtins.cpp:89: a module that
    cannot be found is fatal.  The module is given by its primary
    definition. *)
Definition loadSystemModule (name : string) : Res (option Defn) :=
  match getModuleForImportPath name with
  | Some module => Val module
  | None => Fault Fatal
  end.

(** [Builtins::loadSystemDef(name)], Builtins.cpp:99: the module's
    [primaryDefn()]. *)
Definition loadSystemDef (name : string) : Res (option Defn) :=
  let* module := loadSystemModule name in
  Val module.

(** [Builtins::loadSystemType(name)], Builtins.cpp:104. *)
Definition loadSystemType (name : string) : Res Ty :=
  let* d := loadSystemDef name in
  match d with
  | Some (DType tdef) => Val (td_typeValue tdef)
  | _ => Fault BadCast
  end.

(** [class SystemClass]: the name and the type once it is loaded. *)
Record SystemClass : Type := mkSystemClass {
  typeName_ : string;
  type_ : option CompositeType }.

(** [SystemClass::get()], Builtins.cpp:188: the type and the object with
    its [mutable] field updated. *)
Definition get (sc : SystemClass) : Res (CompositeType * SystemClass) :=
  match type_ sc with
  | Some t => Val (t, sc)
  | None =>
      let* ty := loadSystemType (typeName_ sc) in
      let* t := cast_CompositeType ty in
      Val (t, mkSystemClass (typeName_ sc) (Some t))
  end.

End Loader.

Section Lookup.

(** [CompositeType::lookupMember(name, defs, inherit)] and
    [AnalyzerBase::analyzeType]. *)
Variable lookupMember : CompositeType -> string -> bool -> bool * list Defn.
Variable analyzeType : Ty -> Task -> bool.

(** [Builtins::getSingleDefn(type, name)], Builtins.cpp:110. *)
Definition getSingleDefn (type : Ty) (name : string)
    : Writer BuiltinDiag Defn :=
  let defs : list Defn := [] in
  do* defs :=
    (match type with
     | Composite kind cname typeArgs =>
         let ctype := mkCompositeType kind cname typeArgs in
         let _ := analyzeType type Task_PrepMemberLookup in
         let '(found, out) := lookupMember ctype name false in
         let defs := defs ++ out in
         do* _ := (if negb found then
                     do* _ := w_tell [Info_CouldntFindSystemDefinition name] in
                     Fault AssertionFailed
                   else w_ret tt) in
         do* _ := w_lift (dassert (negb (1 <? length defs))) in
         w_ret defs
     | _ => w_ret defs
     end) in
  match defs with
  | d :: _ => w_ret d
  | [] => Fault NullDeref      (* [defs.front()] of an empty list *)
  end.

End Lookup.

(** The loop of [Builtins::objectCoerceFn], Builtins.cpp:178: the first
    coercer that is a template. *)
Fixpoint firstTemplate (coercers : list FunctionDefn) : option FunctionDefn :=
  match coercers with
  | [] => None
  | f :: rest => if fn_isTemplate f then Some f else firstTemplate rest
  end.

(** [Builtins::objectCoerceFn()], Builtins.cpp:170. *)
Definition objectCoerceFn (X : Externals) : option FunctionDefn :=
  let typeObject := CompositeType_type Builtins_typeObject in
  if negb (Sema.analyzeType X typeObject Task_PrepConversion) then None
  else firstTemplate (coercers X typeObject).

End BuiltinTypes.

(** ** Further sample objects *)

Module MoreWorlds.
Import Types CFG Sema Samples CallSpec CallSamples GC GCSamples Scopes
       ScopeSamples Gen GenSamples GenExpr ExprUtil BuiltinTypes GCLife.

(** The candidate [cc], culled. *)
Definition culled (cc : CallCandidate) : CallCandidate :=
  mkCallCandidate (cc_call cc) (cc_base cc) (cc_method cc) (cc_fnType cc)
    (cc_paramAssignments cc) true (cc_paramType cc) (cc_resultType cc)
    (cc_isSingular cc).

(** [String.coerce(x:Foo) -> String], a static coercer of [String]. *)
Definition fnType_coerce : FunctionType :=
  mkFunctionType None ["x"] [tyFoo] (Some tyString).
Definition fn_coerce : FunctionDefn :=
  mkFunctionDefn 24 "coerce" Storage_Static false false false
                 (Some fnType_coerce) true.

(** [X] with other coercers. *)
Definition withCoercers (X : Externals) (cs : Ty -> list FunctionDefn)
    : Externals :=
  mkExternals (lookupName X) (getTypesFromExprs X)
    (analyzeValueDefn X) (analyzeDefn X) (analyzeType X) (lvalueBase X)
    (reduceExpr X) (lookupTemplateMember X) (assignFromAST X)
    (assignPositional X) (candParamType X) (candResultType X)
    (candIsSingular X) (dealias X) (typeDefn X) (definingScope X)
    (memberScope X) (Sema.lookupMember X) (asExpr X) cs.

(** The base analyzer where [String] has the coercer [coerce(Foo)]. *)
Definition coerceWorld : Externals :=
  withCoercers baseExternals
    (fun t => match t with
              | Composite _ "tart.core.String" _ => [fn_coerce]
              | _ => []
              end).

(** A type literal, as [asExpr] of the sample analyzers builds it. *)
Definition typeLiteralOf (e : Expr) : option Ty :=
  match e with
  | ConstantExpr TypeLiteral (TypeLiteralTy value) => Some value
  | _ => None
  end.

(** The lvalues naming [print(int32)] and [print(Foo, Foo)]. *)
Definition lvalue_printInt : Expr :=
  LValueExpr (FunctionTy None ["x"] [tyInt32] (Some tyVoid)) None
             (VFunction fn_printInt).
Definition lvalue_print2 : Expr :=
  LValueExpr (FunctionTy None ["x"; "y"] [tyFoo; tyFoo] (Some tyVoid)) None
             (VFunction fn_print2).

(** The sample heap of the collector with one more block, at 9, that is not
    on the allocation list. *)
Definition stateWithOther : GCState :=
  mkGCState (<[9 := mkGC false None]> (heap sampleState))
            (allocList_ sampleState) 0 0 1.

(** The sample scopes with a delegating scope 2 over the class scope 1, a
    delegating scope 4 over 2, and a delegating scope 5 that is its own
    delegate. *)
Definition chainHeap : ScopeHeap :=
  <[5 := DelegatingScope 5 None]>
    (<[4 := DelegatingScope 2 None]>
       (<[2 := DelegatingScope 1 (Some 3)]> sampleHeap)).

(** [print(Foo, Foo)] as a candidate. *)
Definition cand_print2 : CallCandidate :=
  candidateOf 0 None fn_print2 fnType_print2.

(** A delegating scope 7 over the scope 6 of another class, and a delegating
    scope 8 over 7. *)
Definition otherChain : ScopeHeap :=
  <[8 := DelegatingScope 7 None]>
    (<[7 := DelegatingScope 6 (Some 3)]> otherHeap).

(** A generator of operands that yields the value 7 with one instruction. *)
Definition genOperand (e : Expr) : Emit (option Value) :=
  Val (Some (Incoming 7), [CreateLoad (Incoming 6)]).

(** A value of the union type [(int32 | String)]. *)
Definition expr_union : Expr :=
  ConstantExpr ConstInt (UnionTy [tyInt32; tyString]).

(** The classes [A], its subclass [B] and the subclass [C] of [B]. *)
Definition ctA : CompositeType := mkCompositeType Class "A" [].
Definition ctB : CompositeType := mkCompositeType Class "B" [].
Definition ctC : CompositeType := mkCompositeType Class "C" [].
Definition sampleSuper (c : CompositeType) : option CompositeType :=
  if String.eqb (ct_name c) "C" then Some ctB
  else if String.eqb (ct_name c) "B" then Some ctA
  else None.

(** Let-variables initialised with the constant 1. *)
Definition constantOne : Expr := ConstantExpr ConstInt tyInt32.
Definition isConstantNode (e : Expr) : bool :=
  match e with ConstantExpr _ _ => true | _ => false end.

(** A package manager that knows the module of [String]. *)
Definition samplePackages (name : string) : option (option Defn) :=
  if String.eqb name "tart.core.String" then Some (Some (DType tdefString))
  else None.

(** A class in which [hasBase] names one function. *)
Definition sampleMembers (c : CompositeType) (name : string) (inherit : bool)
    : bool * list Defn :=
  if String.eqb name "hasBase" then (true, [DValue (VFunction fn_f)])
  else (false, []).

End MoreWorlds.

(** * Properties *)

(** ** Types *)

Module TypeFacts.
Import Types.

Lemma Ty_isEqual_true (a b : Ty) : Ty_isEqual a b = true <-> a = b.
Proof. unfold Ty_isEqual. destruct (Ty_eq_dec a b); split; congruence. Qed.

Lemma Ty_isEqual_false (a b : Ty) : Ty_isEqual a b = false <-> a <> b.
Proof. unfold Ty_isEqual. destruct (Ty_eq_dec a b); split; congruence. Qed.

Lemma Ty_isEqual_refl (a : Ty) : Ty_isEqual a a = true.
Proof. by apply Ty_isEqual_true. Qed.

Lemma TypeRef_isEqual_true (a b : TypeRef) :
  TypeRef_isEqual a b = true <-> exists t, a = Some t /\ b = Some t.
Proof.
  unfold TypeRef_isEqual.
  destruct a as [x|], b as [y|]; rewrite ?Ty_isEqual_true; split;
    try (intros [t [? ?]]); try congruence; try discriminate.
  intros ->. eauto.
Qed.

Lemma TypeRef_isEqual_same (t : Ty) : TypeRef_isEqual (Some t) (Some t) = true.
Proof. apply Ty_isEqual_refl. Qed.

Lemma TypeRef_isEqual_other (r : TypeRef) (t : Ty) :
  r <> Some t -> TypeRef_isEqual r (Some t) = false.
Proof.
  intros Hne. destruct (TypeRef_isEqual r (Some t)) eqn:E; [|done].
  apply TypeRef_isEqual_true in E as [u [-> Hu]]. congruence.
Qed.

End TypeFacts.

(** ** Expressions: singularity, result types of calls *)

Module ExprFacts.
Import Types CFG TypeFacts Samples.

Lemma ArglistExpr_isSingular_Forall (p : Expr -> bool) (args : list Expr) :
  ArglistExpr_isSingular p args = true <-> Forall (fun a => p a = true) args.
Proof.
  induction args as [|a rest IH]; simpl.
  - split; [constructor | done].
  - destruct (p a) eqn:Ha; simpl.
    + rewrite IH. split.
      * by constructor.
      * by inversion 1.
    + split; [done|]. inversion 1; congruence.
Qed.

Lemma SingularInvariant_UnaryExpr k ty arg :
  SingularInvariant (UnaryExpr k ty arg).
Proof.
  unfold SingularInvariant, typeIsSingular. simpl.
  rewrite andb_true_iff, Forall_cons, Forall_nil. tauto.
Qed.

Lemma SingularInvariant_BinaryExpr k ty first second :
  SingularInvariant (BinaryExpr k ty first second).
Proof.
  unfold SingularInvariant, typeIsSingular. simpl.
  rewrite !andb_true_iff, !Forall_cons, Forall_nil. tauto.
Qed.

Lemma SingularInvariant_BinaryOpcodeExpr ty op first second :
  SingularInvariant (BinaryOpcodeExpr ty op first second).
Proof.
  unfold SingularInvariant, typeIsSingular. simpl.
  rewrite !andb_true_iff, !Forall_cons, Forall_nil. tauto.
Qed.

Lemma SingularInvariant_NewExpr ty : SingularInvariant (NewExpr ty).
Proof.
  unfold SingularInvariant, typeIsSingular. simpl.
  rewrite Forall_nil. tauto.
Qed.

Lemma isSingular_FnCallExpr k ty function_ args :
  isSingular (FnCallExpr k ty function_ args) = true <->
  fn_isSingular function_ = true /\ Forall (fun a => isSingular a = true) args.
Proof. simpl. by rewrite andb_true_iff, ArglistExpr_isSingular_Forall. Qed.

Lemma isSingular_IndirectCallExpr ty function_ args :
  isSingular (IndirectCallExpr ty function_ args) = true <->
  Forall (fun a => isSingular a = true) (function_ :: args).
Proof.
  simpl. by rewrite andb_true_iff, ArglistExpr_isSingular_Forall, Forall_cons.
Qed.

Lemma isSingular_LValueExpr ty base value :
  isSingular (LValueExpr ty base value) = true <->
  Forall (fun b => isSingular b = true) (option_list base) /\
  ValueDefn_isSingular value = true.
Proof.
  simpl. rewrite andb_true_iff. destruct base as [b|]; simpl.
  - rewrite Forall_cons, Forall_nil. tauto.
  - rewrite Forall_nil. tauto.
Qed.

Lemma isSingular_CallExpr k addr ty function_ candidates args expected :
  isSingular (CallExpr k addr ty function_ candidates args expected) = true <->
  Forall (fun a => isSingular a = true) args /\
  match candidates with
  | [] => exists f, function_ = Some f /\ isSingular f = true
  | [cc] => cc_isSingular cc = true
  | _ :: _ :: _ => False
  end.
Proof.
  simpl. rewrite <- ArglistExpr_isSingular_Forall.
  destruct (ArglistExpr_isSingular isSingular args); simpl; [|intuition congruence].
  destruct candidates as [|cc [|cc' rest]]; simpl.
  - destruct function_ as [f|].
    + split; [eauto|]. intros [_ [f' [[= <-] Hf]]]. done.
    + split; [done|]. intros [_ [f' [[=] _]]].
  - tauto.
  - split; [done | tauto].
Qed.

(** C1, as the specification states it, fails on the code: a [FnCallExpr]
    whose own type is the pattern variable [T], whose function is singular
    and which has no arguments, reports [isSingular() = true]. *)
Lemma SingularInvariant_fails_FnCallExpr :
  ~ SingularInvariant (FnCallExpr FnCall (PatternVar "T") fn_f []).
Proof.
  unfold SingularInvariant. intros [H _].
  assert (E : isSingular (FnCallExpr FnCall (PatternVar "T") fn_f []) = true)
    by reflexivity.
  destruct (H E) as [Hty _]. discriminate Hty.
Qed.

(** C1 (amended): the equivalence [isSingular(e) <-> e.type.isSingular() /\
    all children singular] holds for unary, binary, binary-opcode and new
    nodes.  The other classes of Expr.cpp do not consult the node's own type:
    an argument-list node is singular iff every argument is; a function call
    iff its function definition and every argument are; an lvalue iff its
    base, when there is one, and its value definition are; a call iff every
    argument is and either it has exactly one candidate, which is singular, or
    it has no candidate and its function expression exists and is
    singular. *)
Theorem isSingular_by_class :
  (forall k ty arg, SingularInvariant (UnaryExpr k ty arg)) /\
  (forall k ty first second, SingularInvariant (BinaryExpr k ty first second)) /\
  (forall ty op first second,
      SingularInvariant (BinaryOpcodeExpr ty op first second)) /\
  (forall ty, SingularInvariant (NewExpr ty)) /\
  (forall k ty args,
      isSingular (ArglistExpr k ty args) = true <->
      Forall (fun a => isSingular a = true) args) /\
  (forall k ty function_ args,
      isSingular (FnCallExpr k ty function_ args) = true <->
      fn_isSingular function_ = true /\
      Forall (fun a => isSingular a = true) args) /\
  (forall ty base value,
      isSingular (LValueExpr ty base value) = true <->
      Forall (fun b => isSingular b = true) (option_list base) /\
      ValueDefn_isSingular value = true) /\
  (forall k addr ty function_ candidates args expected,
      isSingular (CallExpr k addr ty function_ candidates args expected) = true <->
      Forall (fun a => isSingular a = true) args /\
      match candidates with
      | [] => exists f, function_ = Some f /\ isSingular f = true
      | [cc] => cc_isSingular cc = true
      | _ :: _ :: _ => False
      end).
Proof.
  split; [exact SingularInvariant_UnaryExpr|].
  split; [exact SingularInvariant_BinaryExpr|].
  split; [exact SingularInvariant_BinaryOpcodeExpr|].
  split; [exact SingularInvariant_NewExpr|].
  split; [intros k ty args; apply ArglistExpr_isSingular_Forall|].
  split; [exact isSingular_FnCallExpr|].
  split; [exact isSingular_LValueExpr|].
  exact isSingular_CallExpr.
Qed.

End ExprFacts.

(** ** The result type of a call *)

Module ResultTypeFacts.
Import Types CFG TypeFacts Samples Sema CallSpec.

Lemma surviving_cons (cc : CallCandidate) (rest : list CallCandidate) :
  surviving (cc :: rest) =
  if cc_isCulled cc then surviving rest else cc :: surviving rest.
Proof. unfold surviving. simpl. by destruct (cc_isCulled cc). Qed.

Lemma singularResultType_loop_agree (cands : list CallCandidate) (t : Ty) :
  agreeOn cands t ->
  singularResultType_loop cands (Some t) = Val (Some t).
Proof.
  induction cands as [|cc rest IH]; intros Hall; simpl; [done|].
  unfold agreeOn in Hall. rewrite surviving_cons in Hall.
  destruct (cc_isCulled cc) eqn:Hc.
  - by apply IH.
  - rewrite (Hall cc) by (by left). simpl.
    rewrite TypeRef_isEqual_same. simpl.
    apply IH. intros c Hin. apply Hall. by right.
Qed.

Lemma singularResultType_loop_first (cands : list CallCandidate) (t : Ty) :
  surviving cands <> [] -> agreeOn cands t ->
  singularResultType_loop cands None = Val (Some t).
Proof.
  induction cands as [|cc rest IH]; intros Hne Hall; simpl; [done|].
  unfold agreeOn in Hall. rewrite surviving_cons in Hne, Hall.
  destruct (cc_isCulled cc) eqn:Hc.
  - by apply IH.
  - rewrite (Hall cc) by (by left). simpl.
    apply singularResultType_loop_agree. intros c Hin. apply Hall. by right.
Qed.

Lemma singularResultType_loop_none (cands : list CallCandidate) :
  surviving cands = [] -> singularResultType_loop cands None = Val None.
Proof.
  induction cands as [|cc rest IH]; intros Hs; simpl; [done|].
  rewrite surviving_cons in Hs. destruct (cc_isCulled cc); [by apply IH | done].
Qed.

Lemma singularResultType_loop_differs (cands : list CallCandidate) (t : Ty) :
  resultTypesComputable cands ->
  (exists cc, In cc (surviving cands) /\ candidateResultType cc <> Val (Some t)) ->
  singularResultType_loop cands (Some t) = Val None.
Proof.
  induction cands as [|cc rest IH]; intros Hok [c [Hin Hne]]; simpl.
  - destruct Hin.
  - unfold resultTypesComputable in Hok. rewrite surviving_cons in Hok, Hin.
    destruct (cc_isCulled cc) eqn:Hc.
    + apply IH; [done | eauto].
    + destruct (Hok cc) as [r Hr]; [by left|]. rewrite Hr. simpl.
      destruct (decide (r = Some t)) as [->|Hrt].
      * rewrite TypeRef_isEqual_same. simpl.
        apply IH; [intros c' Hc'; apply Hok; by right|].
        destruct Hin as [<-|Hin]; [by destruct Hne | eauto].
      * by rewrite TypeRef_isEqual_other.
Qed.

Lemma singularResultType_loop_disagree (cands : list CallCandidate)
    (c1 c2 : CallCandidate) (t1 t2 : Ty) :
  resultTypesComputable cands ->
  In c1 (surviving cands) -> In c2 (surviving cands) ->
  candidateResultType c1 = Val (Some t1) ->
  candidateResultType c2 = Val (Some t2) ->
  t1 <> t2 ->
  singularResultType_loop cands None = Val None.
Proof.
  induction cands as [|cc rest IH]; intros Hok H1 H2 E1 E2 Hne; simpl.
  - destruct H1.
  - unfold resultTypesComputable in Hok. rewrite surviving_cons in Hok, H1, H2.
    destruct (cc_isCulled cc) eqn:Hc.
    + by apply IH.
    + destruct (Hok cc) as [r Hr]; [by left|]. rewrite Hr. simpl.
      assert (Hrest : resultTypesComputable rest)
        by (intros c' Hc'; apply Hok; by right).
      destruct r as [t|]; simpl.
      * apply singularResultType_loop_differs; [done|].
        destruct (decide (t = t1)) as [->|Ht1].
        -- exists c2. split; [|rewrite E2; intros [=]; done].
           destruct H2 as [<-|H2]; [|done].
           rewrite Hr in E2. by injection E2.
        -- exists c1. split; [|rewrite E1; intros [=]; done].
           destruct H1 as [<-|H1]; [|done].
           rewrite Hr in E1. by injection E1.
      * apply IH; try done.
        -- destruct H1 as [<-|H1]; [|done]. rewrite Hr in E1. discriminate E1.
        -- destruct H2 as [<-|H2]; [|done]. rewrite Hr in E2. discriminate E2.
Qed.

(** C3, as the specification states it, fails on the code: a call without
    candidates (all of them agree, there being none) gets a fresh
    [ResultOfConstraint], while [singularResultType()] is null. *)
Lemma ResultTypeClaim_fails_without_candidates :
  ~ ResultTypeClaim (callWith []).
Proof.
  intros H. destruct H as [t [Hs _]].
  - exists tyInt32. intros cc [].
  - discriminate Hs.
Qed.

(** C3 (amended): the type assigned after argument reduction is the common
    type [t] -- which is what [singularResultType()] returns -- when at least
    one candidate is not culled and every such candidate contributes [t]; it
    is a fresh [ResultOfConstraint] over the call when no candidate survives
    or when two surviving candidates contribute different types.  A candidate
    whose method is a constructor contributes the type of the self parameter
    of its function type, whatever [resultType()] returns. *)
Theorem reduceReturnType_spec (call : CallExprR) :
  (forall t,
      surviving (ce_candidates call) <> [] ->
      agreeOn (ce_candidates call) t ->
      (isSingular (CallExpr_expr call) = true -> Ty_isSingular t = true) ->
      singularResultType call = Val (Some t) /\
      reduceReturnType call = Val t) /\
  (surviving (ce_candidates call) = [] ->
      singularResultType call = Val None /\
      reduceReturnType call = Val (ResultOfConstraint (ce_addr call))) /\
  (forall c1 c2 t1 t2,
      resultTypesComputable (ce_candidates call) ->
      In c1 (surviving (ce_candidates call)) ->
      In c2 (surviving (ce_candidates call)) ->
      candidateResultType c1 = Val (Some t1) ->
      candidateResultType c2 = Val (Some t2) ->
      t1 <> t2 ->
      singularResultType call = Val None /\
      reduceReturnType call = Val (ResultOfConstraint (ce_addr call))) /\
  (forall cc m selfType,
      cc_method cc = Some m -> fn_isCtor m = true ->
      ft_selfParam (cc_fnType cc) = Some selfType ->
      candidateResultType cc = Val selfType).
Proof.
  split; [|split; [|split]].
  - intros t Hne Hall Hsing.
    assert (E : singularResultType call = Val (Some t))
      by (by apply singularResultType_loop_first).
    split; [done|]. unfold reduceReturnType. rewrite E. cbn [res_bind].
    destruct (isSingular (CallExpr_expr call)); [|done].
    by rewrite Hsing.
  - intros Hs.
    assert (E : singularResultType call = Val None)
      by (by apply singularResultType_loop_none).
    split; [done|]. unfold reduceReturnType. by rewrite E.
  - intros c1 c2 t1 t2 Hok H1 H2 E1 E2 Hne.
    assert (E : singularResultType call = Val None)
      by exact (singularResultType_loop_disagree _ c1 c2 t1 t2 Hok H1 H2 E1 E2 Hne).
    split; [done|]. unfold reduceReturnType. by rewrite E.
  - intros cc m selfType Hm Hctor Hself. unfold candidateResultType.
    by rewrite Hm, Hctor, Hself.
Qed.

(** The amended C3 at work: [f(int32) -> int32] alone gives [int32]; with
    [g(int64) -> int64] beside it the call gets a constraint; a constructor
    of [String] gives [String], not its undefined return type. *)
Lemma reduceReturnType_spec_witness :
  reduceReturnType (callWith [cand_f]) = Val tyInt32 /\
  reduceReturnType (callWith [cand_f; cand_g]) = Val (ResultOfConstraint 0) /\
  reduceReturnType (callWith [cand_construct]) = Val tyString.
Proof.
  split; [|split].
  - apply (reduceReturnType_spec (callWith [cand_f])).
    + simpl. discriminate.
    + intros cc [<-|[]]. reflexivity.
    + reflexivity.
  - apply (proj1 (proj2 (proj2 (reduceReturnType_spec (callWith [cand_f; cand_g]))))
             cand_f cand_g tyInt32 tyInt64).
    + intros cc [<-|[<-|[]]]; eexists; reflexivity.
    + simpl. by left.
    + simpl. right. by left.
    + reflexivity.
    + reflexivity.
    + discriminate.
  - apply (reduceReturnType_spec (callWith [cand_construct])).
    + simpl. discriminate.
    + intros cc [<-|[]]. reflexivity.
    + reflexivity.
Defined.

End ResultTypeFacts.

(** ** The collector: what a sweep leaves behind *)

Module GCFacts.
Import GC GCSamples.

Lemma linked_frame h h' p l :
  linked h p l -> (forall a, a ∈ l.*1 -> h' !! a = h !! a) -> linked h' p l.
Proof.
  revert p. induction l as [|[a m] rest IH]; intros p; simpl; [done|].
  intros [-> [n [Ha Hrest]]] Hsame. split; [done|]. exists n. split.
  - rewrite Hsame; [done|]. set_solver.
  - apply IH; [done|]. intros a' Hin. apply Hsame. set_solver.
Qed.

Lemma linked_lookup h p l a m :
  linked h p l -> (a, m) ∈ l -> exists n, h !! a = Some (mkGC m n).
Proof.
  revert p. induction l as [|[a' m'] rest IH]; intros p; simpl.
  - set_solver.
  - intros [-> [n [Ha Hrest]]] Hin. apply elem_of_cons in Hin as [[= -> ->]|Hin].
    + eauto.
    + by eapply IH.
Qed.

Lemma holds_size st l : holds st l -> length l <= size (heap st).
Proof.
  intros [Hl Hnd].
  assert (Hsub : l.*1 ⊆+ elements (dom (heap st))).
  { apply NoDup_submseteq; [done|]. intros a Hin.
    apply list_elem_of_fmap in Hin as [[a' m] [-> Hin]]. simpl.
    destruct (linked_lookup _ _ _ _ _ Hl Hin) as [n Hn].
    apply elem_of_elements, elem_of_dom. eauto. }
  apply submseteq_length in Hsub. rewrite length_fmap in Hsub.
  by rewrite <- size_dom.
Qed.

(** A list whose objects are all marked is walked without a change. *)
Lemma sweep_loop_all_marked l fuel st ptr p :
  length l < fuel -> load st ptr = Val p -> linked (heap st) p l ->
  Forall (fun o => isMarked o = true) l ->
  sweep_loop fuel st ptr = Val st.
Proof.
  revert fuel ptr p. induction l as [|[a m] rest IH]; intros fuel ptr p Hf Hload.
  - simpl. intros -> _. destruct fuel; [lia|]. simpl. by rewrite Hload.
  - simpl. intros [-> [n [Ha Hrest]]] Hall.
    apply Forall_cons_1 in Hall as [Hm Hall]. simpl in Hm. subst m.
    destruct fuel; [simpl in Hf; lia|]. simpl. rewrite Hload. simpl.
    rewrite Ha. simpl. apply (IH fuel (Link_next a) n); try done.
    + simpl in Hf. lia.
    + simpl. by rewrite Ha.
Qed.

Lemma sweep_loop_spec l fuel st ptr p :
  length l < fuel -> load st ptr = Val p -> linked (heap st) p l ->
  NoDup (l.*1) -> (forall a, ownerOf ptr = Some a -> a ∉ l.*1) ->
  exists st' p',
    sweep_loop fuel st ptr = Val st' /\
    load st' ptr = Val p' /\
    linked (heap st') p' (List.filter isMarked l) /\
    (forall a, (a, false) ∈ l -> heap st' !! a = None) /\
    (forall a, a ∉ l.*1 -> ownerOf ptr <> Some a ->
               heap st' !! a = heap st !! a) /\
    (forall a, ownerOf ptr = Some a ->
               allocList_ st' = allocList_ st /\
               exists o, heap st !! a = Some o /\
                         heap st' !! a = Some (mkGC (marked_ o) p')) /\
    reclaimed st' = reclaimed st /\ total st' = total st /\
    debugLevel st' = debugLevel st.
Proof.
  revert fuel st ptr p.
  induction l as [|[a m] rest IH]; intros fuel st ptr p Hf Hload Hl Hnd Hown.
  - simpl in Hl. subst p. destruct fuel; [lia|].
    exists st, None. simpl. rewrite Hload. simpl.
    split; [done|]. split; [done|]. split; [done|].
    split; [set_solver|]. split; [done|]. split; [|done].
    intros a Ha. split; [done|].
    destruct ptr as [|a0]; [done|]. injection Ha as <-. simpl in Hload.
    destruct (heap st !! a0) as [[m0 n0]|]; [|done].
    injection Hload as ->. eauto.
  - simpl in Hl. destruct Hl as [-> [n [Ha Hrest]]].
    rewrite fmap_cons in Hnd. simpl in Hnd.
    apply NoDup_cons in Hnd as [Hna Hnd].
    destruct fuel; [simpl in Hf; lia|]. simpl in Hf. simpl sweep_loop.
    rewrite Hload. simpl. rewrite Ha. simpl.
    destruct m.
    + (* marked: step over *)
      destruct (IH fuel st (Link_next a) n) as
        (st' & p' & Hrun & Hload' & Hl' & Hfreed & Hframe & Howner & Hcnt);
        try done.
      * lia.
      * simpl. by rewrite Ha.
      * simpl. by intros a' [= <-].
      * destruct (Howner a eq_refl) as [Halloc [o [Ho Ho']]].
        rewrite Ha in Ho. injection Ho as <-. simpl in Ho'.
        assert (Hptr : load st' ptr = Val (Some a)).
        { destruct ptr as [|a0]; simpl in *.
          - by rewrite Halloc.
          - rewrite Hframe; [done| |].
            + specialize (Hown a0 eq_refl). set_solver.
            + intros [= E]. specialize (Hown a0 eq_refl). set_solver. }
        exists st', (Some a). split; [done|]. split; [done|].
        split; [simpl; eauto|].
        split.
        { intros a' Hin. apply elem_of_cons in Hin as [[=]|Hin]. by apply Hfreed. }
        split.
        { intros a' Hnin Hno. apply Hframe; [set_solver|].
          simpl. intros [= ->]. set_solver. }
        split; [|done].
        intros a0 Ha0. split; [done|]. destruct ptr as [|a0']; [done|].
        injection Ha0 as ->. simpl in Hload, Hptr.
        assert (a0 <> a) by (specialize (Hown a0 eq_refl); set_solver).
        assert (Hsame : heap st' !! a0 = heap st !! a0).
        { apply Hframe; [|simpl; congruence].
          specialize (Hown a0 eq_refl). set_solver. }
        destruct (heap st !! a0) as [[m0 n0]|] eqn:E0; [|done].
        injection Hload as ->. exists (mkGC m0 (Some a)). by rewrite Hsame.
    + (* unmarked: unlink and free *)
      assert (Hstore : exists st1,
        store st ptr n = Val st1 /\
        load (free st1 a) ptr = Val n /\
        allocList_ (free st1 a) =
          match ptr with Link_allocList => n | _ => allocList_ st end /\
        (forall a', a' <> a -> ownerOf ptr <> Some a' ->
                    heap (free st1 a) !! a' = heap st !! a') /\
        heap (free st1 a) !! a = None /\
        (forall a0, ownerOf ptr = Some a0 ->
           exists o, heap st !! a0 = Some o /\
                     heap (free st1 a) !! a0 = Some (mkGC (marked_ o) n)) /\
        reclaimed (free st1 a) = reclaimed st /\ total (free st1 a) = total st /\
        debugLevel (free st1 a) = debugLevel st).
      { destruct ptr as [|a0]; simpl in *.
        - eexists. split; [done|]. simpl.
          split; [done|]. split; [done|].
          split; [intros a' Hne _; by apply lookup_delete_ne|].
          split; [apply lookup_delete_eq|]. done.
        - assert (a0 <> a) by (specialize (Hown a0 eq_refl); set_solver).
          destruct (heap st !! a0) as [[m0 n0]|] eqn:E0; [|done].
          eexists. split; [done|]. simpl.
          rewrite lookup_delete_ne, lookup_insert_eq by done.
          split; [done|]. split; [done|].
          split.
          { intros a' Hne Hno. rewrite lookup_delete_ne by done.
            apply lookup_insert_ne. congruence. }
          split; [apply lookup_delete_eq|].
          split; [|done].
          intros a1 [= <-]. exists (mkGC m0 n0). split; [done|].
          by rewrite lookup_delete_ne, lookup_insert_eq. }
      destruct Hstore as
        (st1 & -> & Hload1 & Halloc1 & Hframe1 & Hgone & Howner1 & Hcnt1).
      simpl.
      destruct (IH fuel (free st1 a) ptr n) as
        (st' & p' & Hrun & Hload' & Hl' & Hfreed & Hframe & Howner & Hcnt);
        try done.
      * lia.
      * eapply linked_frame; [exact Hrest|]. intros a' Hin.
        apply Hframe1; [set_solver|].
        intros Ho. specialize (Hown a' Ho). set_solver.
      * intros a0 Ha0. specialize (Hown a0 Ha0). set_solver.
      * exists st', p'. split; [done|]. split; [done|]. split; [done|].
        split.
        { intros a' Hin. apply elem_of_cons in Hin as [[= ->]|Hin].
          - rewrite Hframe; [done|done|].
            intros Ho. specialize (Hown a Ho). set_solver.
          - by apply Hfreed. }
        split.
        { intros a' Hnin Hno. rewrite Hframe; [|set_solver|done].
          apply Hframe1; [set_solver|done]. }
        split.
        { intros a0 Ha0. destruct (Howner a0 Ha0) as [Hal [o [Ho Ho']]].
          destruct (Howner1 a0 Ha0) as [o0 [Ho0 Ho1]].
          rewrite Ho1 in Ho. injection Ho as <-. simpl in Ho'.
          split; [|eauto]. rewrite Hal, Halloc1.
          destruct ptr; [done|done]. }
        destruct Hcnt as (-> & -> & ->). done.
Qed.

Lemma filter_isMarked_Forall (l : list (Addr * bool)) :
  Forall (fun o => isMarked o = true) (List.filter isMarked l).
Proof.
  induction l as [|[a m] rest IH]; simpl; [done|].
  destruct m; simpl; [|exact IH]. by constructor.
Qed.

Lemma filter_isMarked_elem (l : list (Addr * bool)) o :
  o ∈ List.filter isMarked l -> o ∈ l.
Proof.
  intros Hin. apply list_elem_of_In. apply list_elem_of_In in Hin.
  by apply filter_In in Hin as [Hin _].
Qed.

Lemma filter_isMarked_NoDup (l : list (Addr * bool)) :
  NoDup (l.*1) -> NoDup ((List.filter isMarked l).*1).
Proof.
  induction l as [|[a m] rest IH]; simpl; [done|].
  rewrite NoDup_cons. intros [Hna Hnd].
  destruct m; simpl; [|by apply IH]. apply NoDup_cons. split; [|by apply IH].
  intros Hin. apply Hna.
  apply list_elem_of_fmap in Hin as [o [-> Hin]].
  apply list_elem_of_fmap. exists o. split; [done|].
  by apply filter_isMarked_elem.
Qed.

Lemma filter_isMarked_true (l : list (Addr * bool)) a :
  (a, true) ∈ l -> (a, true) ∈ List.filter isMarked l.
Proof.
  intros Hin. apply list_elem_of_In. apply filter_In.
  split; [by apply list_elem_of_In|done].
Qed.

(** The callback that [sweep] no longer calls is the one that clears the
    mark of a survivor. *)
Lemma sweepCallback_clears_mark st alloc n :
  heap st !! alloc = Some (mkGC true n) ->
  exists st', sweepCallback st alloc = Val (st', false) /\
              heap st' !! alloc = Some (mkGC false n).
Proof.
  intros Ha. unfold sweepCallback. simpl. rewrite Ha. simpl.
  eexists. split; [done|]. simpl. apply lookup_insert_eq.
Qed.

(** C10: when the allocation list is a chain of distinct objects,
    [GC::sweep()] returns; the list then holds exactly the objects that were
    marked, in their order, each still in the heap with its mark bit set;
    the unmarked ones were unlinked and freed.  A second [sweep()] with no
    marking in between returns the state as it is: it unlinks and frees
    nothing. *)
Theorem sweep_keeps_marks (st : GCState) (l : list (Addr * bool)) :
  holds st l ->
  exists st1 d,
    sweep st = Val (st1, d) /\
    holds st1 (List.filter isMarked l) /\
    (forall a, (a, true) ∈ l -> exists n, heap st1 !! a = Some (mkGC true n)) /\
    (forall a, (a, false) ∈ l -> heap st1 !! a = None) /\
    sweep st1 = Val (st1, d).
Proof.
  intros Hholds. pose proof (holds_size _ _ Hholds) as Hsize.
  destruct Hholds as [Hl Hnd].
  set (st0 := mkGCState (heap st) (allocList_ st) 0 0 (debugLevel st)).
  destruct (sweep_loop_spec l (S (size (heap st0))) st0 Link_allocList
              (allocList_ st)) as
    (st1 & p' & Hrun & Hload' & Hl' & Hfreed & _ & _ & Hr & Ht & Hd);
    try done.
  { simpl. lia. }
  simpl in Hload'. injection Hload' as Hp'. subst p'.
  simpl in Hr, Ht, Hd.
  assert (Hholds1 : holds st1 (List.filter isMarked l)).
  { split; [done|]. by apply filter_isMarked_NoDup. }
  assert (Hst1 : mkGCState (heap st1) (allocList_ st1) 0 0 (debugLevel st1) = st1).
  { destruct st1 as [h1 al1 r1 t1 d1]. simpl in *. by subst. }
  assert (Hagain : sweep_loop (S (size (heap st1))) st1 Link_allocList = Val st1).
  { apply (sweep_loop_all_marked (List.filter isMarked l) _ _ _ (allocList_ st1));
      [|done|done|apply filter_isMarked_Forall].
    pose proof (holds_size _ _ Hholds1). lia. }
  assert (Hsweep : forall st', sweep_loop (S (size (heap st0))) st0 Link_allocList
                                 = Val st' ->
            sweep st = Val (st', if Nat.eqb (debugLevel st') 0 then []
                                 else [Info_GC (reclaimed st')
                                         (size_t_wrap (total st' - reclaimed st'))])).
  { intros st' Hst'. unfold sweep. fold st0. rewrite Hst'. simpl.
    by destruct (Nat.eqb (debugLevel st') 0). }
  eexists st1, _. split; [by apply Hsweep|].
  split; [done|].
  split.
  { intros a Hin.
    apply (linked_lookup _ _ _ _ _ Hl'). by apply filter_isMarked_true. }
  split; [done|].
  unfold sweep. rewrite Hst1, Hagain. simpl.
  by destruct (Nat.eqb (debugLevel st1) 0).
Qed.

Lemma sweep_keeps_marks_witness :
  holds sampleState sampleList /\
  exists st1 d,
    sweep sampleState = Val (st1, d) /\
    holds st1 (List.filter isMarked sampleList) /\
    (forall a, (a, true) ∈ sampleList ->
               exists n, heap st1 !! a = Some (mkGC true n)) /\
    (forall a, (a, false) ∈ sampleList -> heap st1 !! a = None) /\
    sweep st1 = Val (st1, d).
Proof.
  assert (H : holds sampleState sampleList).
  { split.
    - simpl. split; [done|]. exists (Some 2). split; [done|].
      split; [done|]. exists (Some 1). split; [done|].
      split; [done|]. exists None. by split.
    - simpl. repeat constructor; set_solver. }
  split; [exact H|]. exact (sweep_keeps_marks sampleState sampleList H).
Defined.

(** On the sample the object 2 is freed and 3 is relinked to 1. *)
Lemma sweep_sample_run :
  exists st1, sweep sampleState = Val (st1, []) /\
    allocList_ st1 = Some 3 /\
    heap st1 !! 3 = Some (mkGC true (Some 1)) /\
    heap st1 !! 2 = None /\
    heap st1 !! 1 = Some (mkGC true None).
Proof.
  eexists. split; [vm_compute; reflexivity|]. by vm_compute.
Qed.

End GCFacts.

(** ** Type tests on unions *)

Module GenFacts.
Import Types Gen Samples GenSamples.




End GenFacts.

(** ** Scopes *)

Module ScopeFacts.
Import CFG Scopes ScopeSamples.

(** C8: [DelegatingScope(s, p)], for a live scope [s] of whatever class,
    builds the object with delegate [s] and parent [p]; once it is stored at
    an address [a], [parentScope()] of [a] is the [p] that was passed in, and
    [addMember], [lookupMember], [allowOverloads] and [getBaseExpr] on [a] do
    what they do on [s] (one dispatch step later).  In particular, over a
    scope of a class that answers [allowOverloads()] with [b] and
    [getBaseExpr()] with [e], the delegating scope answers [b] and [e], and
    its parent is [p], not the parent of [s]. *)
Theorem DelegatingScope_parent_and_forwarding
    (h : ScopeHeap) (s : ScopePtr) (p : option ScopePtr) (a : ScopePtr) :
  is_Some (h !! s) ->
  DelegatingScope_new h s p = Val (DelegatingScope s p) /\
  let h' := <[a := DelegatingScope s p]> h in
  parentScope h' a = Val p /\
  (forall fuel d, addMember (S fuel) h' a d = addMember fuel h' s d) /\
  (forall fuel ident defs inherit,
      lookupMember (S fuel) h' a ident defs inherit
      = lookupMember fuel h' s ident defs inherit) /\
  (forall fuel, allowOverloads (S fuel) h' a = allowOverloads fuel h' s) /\
  (forall fuel, getBaseExpr (S fuel) h' a = getBaseExpr fuel h' s) /\
  (forall members_ q b e fuel,
      h !! s = Some (OtherScope members_ q b e) -> a <> s ->
      allowOverloads (S (S fuel)) h' a = Val b /\
      getBaseExpr (S (S fuel)) h' a = Val e /\
      parentScope h' s = Val q).
Proof.
  intros [o Ho]. split.
  - unfold DelegatingScope_new, parentScope. rewrite Ho. by destruct o.
  - cbv zeta. unfold parentScope. simpl. rewrite !lookup_insert_eq.
    do 5 (split; [done|]).
    intros members_ q b e fuel Hs Hne.
    rewrite !lookup_insert_ne by done. by rewrite Hs.
Qed.

(** A delegating scope 7 over the scope 6, which allows no overloads and
    has [self] as base expression, with parent 3: it reports parent 3 where
    the parent of 6 is 0, and answers false and [self]. *)
Lemma DelegatingScope_parent_and_forwarding_witness :
  DelegatingScope_new otherHeap 6 (Some 3) = Val (DelegatingScope 6 (Some 3)) /\
  let h' := <[7 := DelegatingScope 6 (Some 3)]> otherHeap in
  parentScope h' 7 = Val (Some 3) /\
  (forall fuel d, addMember (S fuel) h' 7 d = addMember fuel h' 6 d) /\
  (forall fuel ident defs inherit,
      lookupMember (S fuel) h' 7 ident defs inherit
      = lookupMember fuel h' 6 ident defs inherit) /\
  (forall fuel, allowOverloads (S fuel) h' 7 = allowOverloads fuel h' 6) /\
  (forall fuel, getBaseExpr (S fuel) h' 7 = getBaseExpr fuel h' 6) /\
  allowOverloads 2 h' 7 = Val false /\
  getBaseExpr 2 h' 7 = Val (Some selfExpr) /\
  parentScope h' 6 = Val (Some 0).
Proof.
  destruct (DelegatingScope_parent_and_forwarding otherHeap 6 (Some 3) 7)
    as (Hnew & Hp & Ha & Hl & Ho & Hb & Hother).
  { exists (OtherScope [] (Some 0) false (Some selfExpr)). reflexivity. }
  do 6 (split; [done|]).
  apply (Hother [] (Some 0) false (Some selfExpr) 0); [reflexivity|lia].
Defined.

(** Through the delegating scope the operations do return: the class scope
    answers. *)
Lemma DelegatingScope_sample_run :
  let h' := <[2 := DelegatingScope 1 (Some 3)]> sampleHeap in
  allowOverloads 2 h' 2 = Val true /\
  getBaseExpr 2 h' 2 = Val None /\
  lookupMember 2 h' 2 "x" [] false = Val (false, []) /\
  exists h'', addMember 2 h' 2 (DOther 7 "x") = Val (h'', false) /\
              lookupMember 2 h'' 2 "x" [] false = Val (true, [DOther 7 "x"]) /\
              lookupMember 1 h'' 1 "x" [] false = Val (true, [DOther 7 "x"]).
Proof.
  cbv zeta. repeat split; try reflexivity.
  eexists. split; [reflexivity|]. split; reflexivity.
Qed.

(** C9 on the code: [LocalScope] declares no [allowOverloads] of its own, so
    a local scope answers with [IterableScope::allowOverloads], which returns
    true -- not the false that the comment on [Scope::allowOverloads] ("Local
    scopes and parameter scopes do not") and the specification
    promise. *)
Theorem LocalScope_allowOverloads_is_true
    (h : ScopeHeap) (a : ScopePtr) (members_ : SymbolTable)
    (parent : option ScopePtr) (fuel : nat) :
  allowOverloads (S fuel) (<[a := LocalScope members_ parent]> h) a = Val true /\
  allowOverloads (S fuel) (<[a := IterableScope members_ parent]> h) a = Val true.
Proof. simpl. by rewrite !lookup_insert_eq. Qed.

End ScopeFacts.

(** ** Call analysis: candidates, diagnostics, returned pointers *)

Module CallFacts.
Import Types CFG Sema Samples CallSpec CallSamples.

Lemma w_bind_Val {L A B} (m : Writer L A) (f : A -> Writer L B) b l :
  w_bind m f = Val (b, l) ->
  exists a l1 l2, m = Val (a, l1) /\ f a = Val (b, l2) /\ l = l1 ++ l2.
Proof.
  unfold w_bind. destruct m as [[a l1]|k]; [|done].
  destruct (f a) as [[b' l2]|k] eqn:E; [|done].
  intros [= <- <-]. eauto 6.
Qed.

Lemma w_lift_Val {L A} (m : Res A) (a : A) (l : list L) :
  w_lift m = Val (a, l) -> m = Val a /\ l = [].
Proof. destruct m; simpl; [|done]. by intros [= <- <-]. Qed.

Lemma w_ret_Val {L A} (a b : A) (l : list L) :
  w_ret a = Val (b, l) -> a = b /\ l = [].
Proof. unfold w_ret. by intros [= <- <-]. Qed.

(** Undo one [do*] of a hypothesis [H : ... = Val (_, _)]. *)
Ltac w_inv H :=
  let a := fresh "a" in
  let l1 := fresh "l" in
  let l2 := fresh "l" in
  let H1 := fresh "Hm" in
  let H2 := fresh "Hk" in
  let E := fresh "El" in
  apply w_bind_Val in H as (a & l1 & l2 & H1 & H2 & E).

Lemma withCandidates_same (c : CallExprR) :
  withCandidates c (ce_candidates c) = c.
Proof. by destruct c. Qed.

Lemma push_candidate_with (c : CallExprR) (cc : CallCandidate) :
  push_candidate c cc = withCandidates c (ce_candidates c ++ [cc]).
Proof. done. Qed.

Lemma withCandidates_twice (c : CallExprR) (l l' : list CallCandidate) :
  withCandidates (withCandidates c l) l' = withCandidates c l'.
Proof. done. Qed.

Section WithExternals.
Variable X : Externals.

(** *** [addOverload] *)

Lemma addOverload_Val call base method args r log :
  addOverload X call base method args = Val (r, log) ->
  log = [] /\
  snd r = withCandidates call
            (ce_candidates call ++
             option_list (acceptedCandidate X (ce_addr call) base args method)).
Proof.
  unfold addOverload, acceptedCandidate.
  destruct (analyzeValueDefn X (VFunction method) Task_PrepConversion); simpl.
  - destruct (fn_functionType method) as [ft|]; [|done].
    destruct (assignFromAST X ft args) as [pa|]; intros [= <- <-]; simpl.
    + done.
    + by rewrite app_nil_r, withCandidates_same.
  - intros [= <- <-]. simpl. by rewrite app_nil_r, withCandidates_same.
Qed.

Lemma addOverload_fnType_Val call fn ft args r log :
  addOverload_fnType X call fn ft args = Val (r, log) ->
  log = [] /\ fst r = true /\ ce_addr (snd r) = ce_addr call /\
  ce_args (snd r) = ce_args call.
Proof.
  unfold addOverload_fnType.
  destruct (assignFromAST X ft args); by intros [= <- <-].
Qed.

Lemma addOverload_exprs_Val call base method args r log :
  addOverload_exprs X call base method args = Val (r, log) -> log = [].
Proof.
  unfold addOverload_exprs.
  destruct (analyzeValueDefn X (VFunction method) Task_PrepConversion); simpl.
  - destruct (fn_functionType method) as [ft|]; [|done].
    destruct (assignPositional X ft (length args)); by intros [= <- <-].
  - by intros [= <- <-].
Qed.

(** *** [reduceArgList] touches the arguments only *)

Lemma reduceArgList_loop_candidates in_ i call ok call' :
  reduceArgList_loop X in_ i call = (ok, call') ->
  ce_candidates call' = ce_candidates call /\ ce_addr call' = ce_addr call.
Proof.
  revert i call. induction in_ as [|a rest IH]; intros i call; simpl.
  - by intros [= <- <-].
  - unfold getMappedParameterType.
    destruct (singularParamType call i);
      (destruct (isErrorResult _); [by intros [= <- <-]|]);
      intros H; apply IH in H as [-> ->]; done.
Qed.

Lemma reduceArgList_candidates in_ call ok call' :
  reduceArgList X in_ call = (ok, call') ->
  ce_candidates call' = ce_candidates call /\ ce_addr call' = ce_addr call.
Proof. apply reduceArgList_loop_candidates. Qed.

(** *** The constructor search *)

Lemma dyn_cast_FunctionDefn_Some d f :
  dyn_cast_FunctionDefn d = Some f -> d = asDefn f.
Proof. destruct d as [[?|?]|?|? ?]; simpl; by intros [= <-]. Qed.

Lemma dassert_Val {L} b (u : unit) (l : list L) :
  w_lift (dassert b) = Val (u, l) -> b = true /\ l = [].
Proof. destruct b; simpl; [by intros [= <-]|done]. Qed.

Lemma omap_cons_option_list {A B} (f : A -> option B) (x : A) (l : list A) :
  omap f (x :: l) = option_list (f x) ++ omap f l.
Proof. simpl. by destruct (f x). Qed.

Lemma addConstructors_Val methods newExpr call args call' log :
  addConstructors X methods newExpr call args = Val (call', log) ->
  log = [] /\
  exists fs,
    methods = map asDefn fs /\
    Forall (fun f => fn_isCtor f = true /\ isStorageInstance f = true) fs /\
    call' = withCandidates call
              (ce_candidates call ++
               omap (acceptedCandidate X (ce_addr call) (Some newExpr) args) fs).
Proof.
  revert call log. induction methods as [|d rest IH]; intros call log; simpl.
  - intros [= <- <-]. split; [done|]. exists []. simpl.
    by rewrite app_nil_r, withCandidates_same.
  - destruct (dyn_cast_FunctionDefn d) as [f|] eqn:Hd; [|done].
    apply dyn_cast_FunctionDefn_Some in Hd as ->.
    destruct (fn_functionType f) as [ft|] eqn:Hft; [|done].
    intros H.
    w_inv H. apply dassert_Val in Hm as [Hctor ->].
    w_inv Hk. apply dassert_Val in Hm as [_ ->].
    w_inv Hk0. apply dassert_Val in Hm as [Hinst ->].
    w_inv Hk. apply addOverload_Val in Hm as [-> Hr].
    apply IH in Hk0 as [-> [fs [-> [Hall ->]]]].
    subst l2 l1 l0 log. split; [done|]. exists (f :: fs). split; [done|].
    split; [by constructor|].
    rewrite Hr, omap_cons_option_list. simpl.
    by rewrite withCandidates_twice, app_assoc.
Qed.

Lemma addCreators_Val methods call args call' log :
  addCreators X methods call args = Val (call', log) ->
  log = [] /\
  exists fs,
    methods = map asDefn fs /\
    call' = withCandidates call
              (ce_candidates call ++
               omap (acceptedCandidate X (ce_addr call) None args)
                    (List.filter isStorageStatic fs)).
Proof.
  revert call log. induction methods as [|d rest IH]; intros call log; simpl.
  - intros [= <- <-]. split; [done|]. exists []. simpl.
    by rewrite app_nil_r, withCandidates_same.
  - destruct (dyn_cast_FunctionDefn d) as [f|] eqn:Hd; [|done].
    apply dyn_cast_FunctionDefn_Some in Hd as ->.
    destruct (fn_functionType f) as [ft|] eqn:Hft; [|done].
    destruct (isStorageStatic f) eqn:Hst.
    + intros H. w_inv H. apply addOverload_Val in Hm as [-> Hr].
      apply IH in Hk as [-> [fs [-> ->]]].
      subst log. split; [done|]. exists (f :: fs). split; [done|].
      simpl. rewrite Hst, Hr, omap_cons_option_list. simpl.
      by rewrite withCandidates_twice, app_assoc.
    + intros H. apply IH in H as [-> [fs [-> ->]]].
      split; [done|]. exists (f :: fs). split; [done|].
      simpl. by rewrite Hst.
Qed.

Lemma findConstructors_Val ty scope call args r log :
  findConstructors X ty scope call args = Val (r, log) ->
  let own := lookupMember X scope idConstruct false in
  let create := lookupMember X scope idCreate false in
  let inherited := lookupMember X scope idConstruct true in
  log = [] /\
  (fst own = true ->
     exists fs, snd own = map asDefn fs /\
       r = Constructors_found
             (withCandidates call
                (ce_candidates call ++
                 omap (acceptedCandidate X (ce_addr call) (Some (NewExpr ty)) args) fs))
             (snd own)) /\
  (fst own = false -> fst create = true ->
     exists fs, snd own ++ snd create = map asDefn fs /\
       r = Constructors_found
             (withCandidates call
                (ce_candidates call ++
                 omap (acceptedCandidate X (ce_addr call) None args)
                      (List.filter isStorageStatic fs)))
             (snd own ++ snd create)) /\
  (fst own = false -> fst create = false -> fst inherited = true ->
     exists fs, (snd own ++ snd create) ++ snd inherited = map asDefn fs /\
       r = Constructors_found
             (withCandidates call
                (ce_candidates call ++
                 omap (acceptedCandidate X (ce_addr call) (Some (NewExpr ty)) args) fs))
             ((snd own ++ snd create) ++ snd inherited)) /\
  (fst own = false -> fst create = false -> fst inherited = false ->
     r = Constructors_none).
Proof.
  cbv zeta. unfold findConstructors.
  destruct (lookupMember X scope idConstruct false) as [f1 o1].
  destruct (lookupMember X scope idCreate false) as [f2 o2].
  destruct (lookupMember X scope idConstruct true) as [f3 o3].
  simpl. destruct f1; [|destruct f2; [|destruct f3]]; intros H.
  - w_inv H. apply dassert_Val in Hm as [_ ->].
    w_inv Hk. apply addConstructors_Val in Hm as [-> [fs [-> [_ ->]]]].
    apply w_ret_Val in Hk0 as [<- ->]. subst.
    split; [done|]. split; [eauto|]. by repeat split.
  - w_inv H. apply dassert_Val in Hm as [_ ->].
    w_inv Hk. apply addCreators_Val in Hm as [-> [fs [Hfs ->]]].
    apply w_ret_Val in Hk0 as [<- ->]. subst.
    split; [done|]. split; [done|]. split; [|by repeat split].
    intros _ _. exists fs. by rewrite Hfs.
  - w_inv H. apply dassert_Val in Hm as [_ ->].
    w_inv Hk. apply addConstructors_Val in Hm as [-> [fs [Hfs [_ ->]]]].
    apply w_ret_Val in Hk0 as [<- ->]. subst.
    split; [done|]. split; [done|]. split; [done|]. split; [|done].
    intros _ _ _. exists fs. by rewrite Hfs.
  - apply w_ret_Val in H as [<- ->]. by repeat split.
Qed.

(** Offered a method whose type is defined, [addOverload] returns: it says
    whether the method could be analyzed and leaves the call with the
    candidate accepted, if any, at the end. *)
Lemma addOverload_total call base method args :
  is_Some (fn_functionType method) ->
  addOverload X call base method args =
    Val ((analyzeValueDefn X (VFunction method) Task_PrepConversion,
          withCandidates call
            (ce_candidates call ++
             option_list (acceptedCandidate X (ce_addr call) base args method))),
         []).
Proof.
  intros [ft Hft]. unfold addOverload, acceptedCandidate.
  destruct (analyzeValueDefn X (VFunction method) Task_PrepConversion); simpl.
  - rewrite Hft. destruct (assignFromAST X ft args); simpl; [done|].
    by rewrite app_nil_r, withCandidates_same.
  - by rewrite app_nil_r, withCandidates_same.
Qed.

Lemma addConstructors_total fs newExpr call args :
  Forall isConstructorMember fs ->
  addConstructors X (map asDefn fs) newExpr call args =
    Val (withCandidates call
           (ce_candidates call ++
            omap (acceptedCandidate X (ce_addr call) (Some newExpr) args) fs),
         []).
Proof.
  intros Hall. revert call.
  induction Hall as [|f fs (ft & Hft & Hctor & Hret & Hinst) _ IH]; intros call.
  - simpl. by rewrite app_nil_r, withCandidates_same.
  - cbn [map addConstructors asDefn dyn_cast_FunctionDefn].
    rewrite Hft, Hctor, Hret, Hinst. cbn [dassert w_lift].
    rewrite addOverload_total by (by rewrite Hft).
    unfold w_bind. cbn [snd]. rewrite IH, omap_cons_option_list.
    simpl. by rewrite withCandidates_twice, app_assoc.
Qed.

Lemma addCreators_total fs call args :
  Forall isCreateMember fs ->
  addCreators X (map asDefn fs) call args =
    Val (withCandidates call
           (ce_candidates call ++
            omap (acceptedCandidate X (ce_addr call) None args)
                 (List.filter isStorageStatic fs)),
         []).
Proof.
  intros Hall. revert call.
  induction Hall as [|f fs Hft _ IH]; intros call.
  - simpl. by rewrite app_nil_r, withCandidates_same.
  - cbn [map addCreators asDefn dyn_cast_FunctionDefn List.filter].
    destruct Hft as [ft Hft]. rewrite Hft.
    destruct (isStorageStatic f) eqn:Hst.
    + rewrite addOverload_total by (by rewrite Hft).
      unfold w_bind. cbn [snd]. rewrite IH, omap_cons_option_list.
      simpl. by rewrite withCandidates_twice, app_assoc.
    + apply IH.
Qed.

Lemma map_asDefn_nil (fs : list FunctionDefn) :
  fs <> [] -> is_nil (map asDefn fs) = false.
Proof. by destruct fs. Qed.

(** What [callConstructor] does once the search has found members,
    ExprAnalyzerCall.cpp:398-413. *)
Lemma callConstructor_found addr tdef args scope call methods :
  td_isTemplate tdef = false ->
  analyzeType X (td_typeValue tdef) Task_PrepConstruction = true ->
  memberScope X (td_typeValue tdef) = Some scope ->
  findConstructors X (td_typeValue tdef) scope
    (setExpectedReturnType (CallExpr_new Construct addr (Some (asExpr X tdef)))
                           (Some (td_typeValue tdef))) args
    = Val (Constructors_found call methods, []) ->
  (hasAnyCandidates call = false ->
     callConstructor X addr tdef args =
       Val (Some ErrorVal,
            MoreSpec.accessEvents tdef ++
            Error_NoConstructorMatching args :: map Info_Method methods)) /\
  (forall reduced t,
     hasAnyCandidates call = true ->
     reduceArgList X args call = (true, reduced) ->
     reduceReturnType reduced = Val t ->
     callConstructor X addr tdef args =
       Val (Some (CallExpr_expr (setType reduced (Some t))),
            MoreSpec.accessEvents tdef) /\
     ce_candidates reduced = ce_candidates call).
Proof.
  intros Htmpl Han Hsc Hfind. unfold callConstructor, MoreSpec.accessEvents.
  rewrite Htmpl, Han, Hsc. cbn [negb andb]. rewrite Hfind. split.
  - intros Hany.
    destruct (negb (td_isTemplateMember tdef));
      cbn [w_bind w_tell w_ret]; rewrite Hany; simpl; by rewrite app_nil_r.
  - intros reduced t Hany Hred Hty.
    pose proof Hred as Hc. apply reduceArgList_candidates in Hc as [Hc _].
    split; [|done].
    destruct (negb (td_isTemplateMember tdef));
      cbn [w_bind w_tell w_ret]; rewrite Hany, Hred; cbn [negb];
      rewrite Hty; simpl; done.
Qed.

(** C2: for a type that is not a template, whose analysis succeeds, the
    search for constructors looks into the type's member scope in a fixed
    order and stops at the first lookup that reports a hit.  If [construct]
    is found without inherited members, every member found is offered with a
    [NewExpr] of the type as base and [create] is not looked at; else, if
    [create] is found without inherited members, its static members are
    offered without base; else, if [construct] is found with inherited
    members, these are offered with the [NewExpr] as base; else no
    constructor is found and [callConstructor] returns the error value with
    the diagnostic "No constructors found".  The candidates of the search are
    the candidates of the call that [callConstructor] returns: it returns the
    call once some candidate is in play, the arguments reduce and the result
    type is computed, and the error value, with the members found listed,
    when no candidate is in play.  Conversely a call that is returned holds
    the candidates of the lookup that came first in this order. *)
Theorem callConstructor_search_order addr tdef args scope :
  td_isTemplate tdef = false ->
  analyzeType X (td_typeValue tdef) Task_PrepConstruction = true ->
  memberScope X (td_typeValue tdef) = Some scope ->
  let ty := td_typeValue tdef in
  let own := lookupMember X scope idConstruct false in
  let create := lookupMember X scope idCreate false in
  let inherited := lookupMember X scope idConstruct true in
  let call0 :=
    setExpectedReturnType (CallExpr_new Construct addr (Some (asExpr X tdef)))
                          (Some ty) in
  let constructors fs :=
    withCandidates call0
      (omap (acceptedCandidate X addr (Some (NewExpr ty)) args) fs) in
  let creators fs :=
    withCandidates call0
      (omap (acceptedCandidate X addr None args)
            (List.filter isStorageStatic fs)) in
  (forall fs,
     fst own = true ->
     snd own = map asDefn fs -> fs <> [] -> Forall isConstructorMember fs ->
     findConstructors X ty scope call0 args
       = Val (Constructors_found (constructors fs) (snd own), [])) /\
  (forall fs,
     fst own = false -> fst create = true ->
     snd own ++ snd create = map asDefn fs -> fs <> [] ->
     Forall isCreateMember fs ->
     findConstructors X ty scope call0 args
       = Val (Constructors_found (creators fs) (snd own ++ snd create), [])) /\
  (forall fs,
     fst own = false -> fst create = false -> fst inherited = true ->
     (snd own ++ snd create) ++ snd inherited = map asDefn fs -> fs <> [] ->
     Forall isConstructorMember fs ->
     findConstructors X ty scope call0 args
       = Val (Constructors_found (constructors fs)
                ((snd own ++ snd create) ++ snd inherited), [])) /\
  (fst own = false -> fst create = false -> fst inherited = false ->
     findConstructors X ty scope call0 args = Val (Constructors_none, []) /\
     callConstructor X addr tdef args
       = Val (Some ErrorVal,
              MoreSpec.accessEvents tdef ++ [Error_NoConstructorsFound tdef])) /\
  (forall call methods,
     findConstructors X ty scope call0 args
       = Val (Constructors_found call methods, []) ->
     (hasAnyCandidates call = false ->
        callConstructor X addr tdef args =
          Val (Some ErrorVal,
               MoreSpec.accessEvents tdef ++
               Error_NoConstructorMatching args :: map Info_Method methods)) /\
     (forall reduced t,
        hasAnyCandidates call = true ->
        reduceArgList X args call = (true, reduced) ->
        reduceReturnType reduced = Val t ->
        callConstructor X addr tdef args =
          Val (Some (CallExpr_expr (setType reduced (Some t))),
               MoreSpec.accessEvents tdef) /\
        ce_candidates reduced = ce_candidates call)) /\
  (forall r log e,
     callConstructor X addr tdef args = Val (r, log) ->
     r = Some e -> e <> ErrorVal ->
     exists call,
       e = CallExpr_expr call /\
       (fst own = true ->
          exists fs, snd own = map asDefn fs /\
            ce_candidates call = ce_candidates (constructors fs)) /\
       (fst own = false -> fst create = true ->
          exists fs, snd own ++ snd create = map asDefn fs /\
            ce_candidates call = ce_candidates (creators fs)) /\
       (fst own = false -> fst create = false ->
          fst inherited = true /\
          exists fs, (snd own ++ snd create) ++ snd inherited = map asDefn fs /\
            ce_candidates call = ce_candidates (constructors fs))).
Proof.
  intros Htmpl Han Hsc. cbv zeta.
  split; [|split; [|split; [|split; [|split]]]].
  - intros fs E1 Hfs Hne Hall. unfold findConstructors.
    destruct (lookupMember X scope idConstruct false) as [f1 o1].
    simpl in E1, Hfs. subst f1 o1. cbn [app fst snd].
    rewrite map_asDefn_nil by done. cbn [negb dassert w_lift].
    by rewrite addConstructors_total.
  - intros fs E1 E2 Hfs Hne Hall. unfold findConstructors.
    destruct (lookupMember X scope idConstruct false) as [f1 o1].
    destruct (lookupMember X scope idCreate false) as [f2 o2].
    simpl in E1, E2, Hfs. subst f1 f2. cbn [app fst snd]. rewrite Hfs.
    rewrite map_asDefn_nil by done. cbn [negb dassert w_lift].
    by rewrite addCreators_total.
  - intros fs E1 E2 E3 Hfs Hne Hall. unfold findConstructors.
    destruct (lookupMember X scope idConstruct false) as [f1 o1].
    destruct (lookupMember X scope idCreate false) as [f2 o2].
    destruct (lookupMember X scope idConstruct true) as [f3 o3].
    simpl in E1, E2, E3, Hfs. subst f1 f2 f3. cbn [app fst snd]. rewrite Hfs.
    rewrite map_asDefn_nil by done. cbn [negb dassert w_lift].
    by rewrite addConstructors_total.
  - intros E1 E2 E3.
    assert (Hnone : findConstructors X (td_typeValue tdef) scope
              (setExpectedReturnType
                 (CallExpr_new Construct addr (Some (asExpr X tdef)))
                 (Some (td_typeValue tdef))) args = Val (Constructors_none, [])).
    { unfold findConstructors.
      destruct (lookupMember X scope idConstruct false) as [f1 o1].
      destruct (lookupMember X scope idCreate false) as [f2 o2].
      destruct (lookupMember X scope idConstruct true) as [f3 o3].
      simpl in E1, E2, E3. by subst f1 f2 f3. }
    split; [done|]. unfold callConstructor, MoreSpec.accessEvents.
    rewrite Htmpl, Han, Hsc. cbn [negb andb]. rewrite Hnone.
    by destruct (negb (td_isTemplateMember tdef)).
  - intros call methods Hfind. by eapply callConstructor_found.
  - intros r log e H -> He. unfold callConstructor in H.
    rewrite Htmpl, Han, Hsc in H. cbn [negb andb] in H.
    w_inv H. clear Hm. w_inv Hk. clear Hm. w_inv Hk0.
    pose proof Hm as Hf. apply findConstructors_Val in Hf. cbv zeta in Hf.
    destruct Hf as (-> & H1 & H2 & H3 & H4).
    destruct a1 as [call methods|]; simpl in Hk.
    2:{ by injection Hk as <-. }
    destruct (hasAnyCandidates call); simpl in Hk.
    2:{ by injection Hk as <-. }
    destruct (reduceArgList X args call) as [ok call2] eqn:Hred.
    apply reduceArgList_candidates in Hred as [Hc Ha].
    destruct ok; simpl in Hk.
    2:{ by injection Hk as <-. }
    w_inv Hk. apply w_ret_Val in Hk0 as [[= <-] _].
    eexists. split; [done|]. simpl. rewrite Hc.
    destruct (fst (lookupMember X scope idConstruct false)) eqn:E1.
    + destruct (H1 eq_refl) as [fs [Hfs [= -> _]]].
      split; [eauto|]. split; done.
    + destruct (fst (lookupMember X scope idCreate false)) eqn:E2.
      * destruct (H2 eq_refl eq_refl) as [fs [Hfs [= -> _]]].
        split; [done|]. split; [eauto|]. done.
      * destruct (fst (lookupMember X scope idConstruct true)) eqn:E3.
        -- destruct (H3 eq_refl eq_refl eq_refl) as [fs [Hfs [= -> _]]].
           split; [done|]. split; [done|]. eauto.
        -- discriminate (H4 eq_refl eq_refl eq_refl).
Qed.

(** *** Argument-dependent lookup *)

Lemma TySet_mem_true t s : TySet_mem t s = true <-> t ∈ s.
Proof.
  unfold TySet_mem. rewrite existsb_exists. split.
  - intros [u [Hin Hu]]. apply TypeFacts.Ty_isEqual_true in Hu as ->.
    by apply list_elem_of_In.
  - intros Hin. exists t. split; [by apply list_elem_of_In|].
    apply TypeFacts.Ty_isEqual_refl.
Qed.

Lemma PtrSet_mem_true p s : PtrSet_mem p s = true <-> p ∈ s.
Proof.
  unfold PtrSet_mem. rewrite existsb_exists. split.
  - intros [q [Hin Hq]]. apply bool_decide_eq_true in Hq as ->.
    by apply list_elem_of_In.
  - intros Hin. exists p. split; [by apply list_elem_of_In|].
    by apply bool_decide_eq_true.
Qed.

Lemma PtrSet_mem_false p s : PtrSet_mem p s = false <-> p ∉ s.
Proof.
  rewrite <- PtrSet_mem_true. destruct (PtrSet_mem p s); split; congruence.
Qed.

Lemma elem_of_distinctFrom seen l t :
  t ∈ distinctFrom seen l <-> t ∈ l /\ t ∉ seen.
Proof.
  revert seen. induction l as [|u rest IH]; intros seen; simpl.
  - set_solver.
  - destruct (TySet_mem u seen) eqn:E.
    + apply TySet_mem_true in E. rewrite IH. set_solver.
    + assert (u ∉ seen) by (rewrite <- TySet_mem_true; congruence).
      rewrite elem_of_cons, IH.
      destruct (decide (t = u)) as [->|Hne]; set_solver.
Qed.

Lemma NoDup_distinctFrom seen l : NoDup (distinctFrom seen l).
Proof.
  revert seen. induction l as [|u rest IH]; intros seen; simpl.
  - constructor.
  - destruct (TySet_mem u seen); [done|]. constructor; [|done].
    rewrite elem_of_distinctFrom. set_solver.
Qed.

Lemma lookupByArgType_search_spec name callArgs seen defns :
  lookupByArgType_search X name callArgs seen defns =
  defns ++ flat_map (adlScopeDefns X name)
                    (distinctFrom seen (omap (adlArgType X) callArgs)).
Proof.
  revert seen defns. induction callArgs as [|arg rest IH]; intros seen defns.
  - simpl. by rewrite app_nil_r.
  - simpl. unfold adlArgType at 1.
    destruct (type arg) as [ty|]; [|by rewrite IH].
    destruct (Ty_isSingular ty); [|by rewrite IH].
    destruct (dealias X ty) as [argType|]; [|by rewrite IH].
    cbn [distinctFrom]. destruct (TySet_mem argType seen); cbn [negb].
    { apply IH. }
    cbn [flat_map]. unfold adlScopeDefns at 1.
    destruct (typeDefn X argType) as [td|]; [|by rewrite IH].
    destruct (definingScope X td) as [sc|]; [|by rewrite IH].
    by rewrite IH, app_assoc.
Qed.

Lemma elem_of_adlTypes callArgs argType :
  argType ∈ adlTypes X callArgs <->
  exists arg ty, arg ∈ callArgs /\ type arg = Some ty /\
                 Ty_isSingular ty = true /\ dealias X ty = Some argType.
Proof.
  unfold adlTypes. rewrite elem_of_distinctFrom, list_elem_of_omap.
  unfold adlArgType. split.
  - intros [[arg [Hin Harg]] _]. exists arg.
    destruct (type arg) as [ty|]; [|done]. exists ty.
    destruct (Ty_isSingular ty); [|done]. done.
  - intros (arg & ty & Hin & Hty & Hs & Hd). split; [|set_solver].
    exists arg. by rewrite Hty, Hs.
Qed.

Lemma elem_of_adlDefns name callArgs d :
  d ∈ adlDefns X name callArgs <->
  exists arg ty argType argTypeDefn scope,
    arg ∈ callArgs /\ type arg = Some ty /\ Ty_isSingular ty = true /\
    dealias X ty = Some argType /\ typeDefn X argType = Some argTypeDefn /\
    definingScope X argTypeDefn = Some scope /\
    d ∈ snd (lookupMember X scope name true).
Proof.
  unfold adlDefns. rewrite list_elem_of_In, in_flat_map. split.
  - intros [argType [Hin Hd]].
    apply list_elem_of_In, elem_of_adlTypes in Hin
      as (arg & ty & Harg & Hty & Hs & Hda).
    unfold adlScopeDefns in Hd.
    destruct (typeDefn X argType) as [td|] eqn:Htd; [|done].
    destruct (definingScope X td) as [sc|] eqn:Hsc; [|done].
    exists arg, ty, argType, td, sc. by rewrite <- list_elem_of_In in Hd.
  - intros (arg & ty & argType & td & sc & Harg & Hty & Hs & Hda & Htd & Hsc & Hd).
    exists argType. split.
    + apply list_elem_of_In, elem_of_adlTypes. exists arg, ty. done.
    + unfold adlScopeDefns. rewrite Htd, Hsc. by apply list_elem_of_In.
Qed.

Lemma elem_of_methodsFound_init cands found p :
  p ∈ methodsFound_init cands found <->
  p ∈ found \/ exists cc, cc ∈ cands /\ option_map fn_addr (cc_method cc) = p.
Proof.
  revert found. induction cands as [|cc rest IH]; intros found; simpl.
  - set_solver.
  - rewrite IH. unfold PtrSet_insert.
    destruct (PtrSet_mem (option_map fn_addr (cc_method cc)) found) eqn:E; simpl.
    + apply PtrSet_mem_true in E. set_solver.
    + set_solver.
Qed.

Lemma lookupByArgType_add_Val defns found call args call' log :
  lookupByArgType_add X defns found call args = Val (call', log) ->
  log = [] /\
  call' = withCandidates call
            (ce_candidates call ++
             omap (acceptedCandidate X (ce_addr call) None args)
                  (adlSelect defns found)).
Proof.
  revert found call log. induction defns as [|d rest IH]; intros found call log.
  - simpl. intros [= <- <-]. simpl. by rewrite app_nil_r, withCandidates_same.
  - simpl. destruct (dyn_cast_FunctionDefn d) as [f|]; [|apply IH].
    destruct (isStaticOrGlobal f); [|apply IH].
    unfold PtrSet_insert.
    destruct (PtrSet_mem (Some (fn_addr f)) found); [apply IH|].
    intros H. w_inv H. apply addOverload_Val in Hm as [-> Hr].
    apply IH in Hk as [-> ->]. subst log. split; [done|].
    rewrite Hr, omap_cons_option_list. simpl.
    by rewrite withCandidates_twice, app_assoc.
Qed.

Lemma elem_of_adlSelect defns found f :
  f ∈ adlSelect defns found ->
  asDefn f ∈ defns /\ isStaticOrGlobal f = true /\ Some (fn_addr f) ∉ found.
Proof.
  revert found. induction defns as [|d rest IH]; intros found; simpl.
  - set_solver.
  - destruct (dyn_cast_FunctionDefn d) as [g|] eqn:Hd.
    2:{ intros H. apply IH in H. set_solver. }
    apply dyn_cast_FunctionDefn_Some in Hd as ->.
    destruct (isStaticOrGlobal g) eqn:Hg.
    2:{ intros H. apply IH in H. set_solver. }
    destruct (PtrSet_mem (Some (fn_addr g)) found) eqn:Hm.
    + intros H. apply IH in H. set_solver.
    + apply PtrSet_mem_false in Hm. rewrite elem_of_cons.
      intros [->|H]; [set_solver|]. apply IH in H. set_solver.
Qed.

Lemma adlSelect_complete defns found f :
  asDefn f ∈ defns -> isStaticOrGlobal f = true -> Some (fn_addr f) ∉ found ->
  exists f', f' ∈ adlSelect defns found /\ fn_addr f' = fn_addr f.
Proof.
  revert found. induction defns as [|d rest IH]; intros found Hin Hs Hnf.
  - set_solver.
  - simpl. apply elem_of_cons in Hin as [<-|Hin].
    + simpl. rewrite Hs. apply PtrSet_mem_false in Hnf. rewrite Hnf.
      exists f. set_solver.
    + destruct (dyn_cast_FunctionDefn d) as [g|] eqn:Hd; [|by apply IH].
      destruct (isStaticOrGlobal g); [|by apply IH].
      destruct (PtrSet_mem (Some (fn_addr g)) found) eqn:Hm; [by apply IH|].
      destruct (decide (fn_addr g = fn_addr f)) as [E|Hne].
      * exists g. set_solver.
      * destruct (IH (Some (fn_addr g) :: found)) as [f' [Hf' E]]; try done.
        -- set_solver.
        -- exists f'. set_solver.
Qed.

Lemma NoDup_adlSelect defns found :
  NoDup (fn_addr <$> adlSelect defns found).
Proof.
  revert found. induction defns as [|d rest IH]; intros found; simpl.
  - constructor.
  - destruct (dyn_cast_FunctionDefn d) as [g|]; [|done].
    destruct (isStaticOrGlobal g); [|done].
    destruct (PtrSet_mem (Some (fn_addr g)) found); [done|].
    rewrite fmap_cons. constructor; [|done].
    rewrite list_elem_of_fmap. intros [f' [E Hf']].
    apply elem_of_adlSelect in Hf' as (_ & _ & Hnf). set_solver.
Qed.

(** *** [callName] *)

Lemma quiet_nil : quiet [].
Proof. constructor. Qed.

Lemma quiet_app l1 l2 : quiet l1 -> quiet l2 -> quiet (l1 ++ l2).
Proof. apply Forall_app_2. Qed.

Lemma quiet_not_Exists log :
  quiet log -> ~ Exists (fun e => isNoMatchingMethod e = true) log.
Proof.
  unfold quiet. intros Hq He. apply Exists_exists in He as [e [Hin He]].
  rewrite Forall_forall in Hq. specialize (Hq e Hin). congruence.
Qed.

Lemma variableCalleesAnalyzed_tail r rest :
  variableCalleesAnalyzed X (r :: rest) -> variableCalleesAnalyzed X rest.
Proof. intros H ty base v Hin. eapply H. by right. Qed.

Lemma gatherOverloads_Val results args success call g log :
  gatherOverloads X results args success call = Val (g, log) ->
  log = [] /\
  match g with
  | Gather_done _ c => ce_addr c = ce_addr call /\ ce_args c = ce_args call
  | Gather_return p => p = None /\ ~ variableCalleesAnalyzed X results
  end.
Proof.
  revert success call log.
  induction results as [|r rest IH]; intros success call log.
  - simpl. by intros [= <- <-].
  - simpl. destruct r as [| | | | |ty base [func|var]| | | | | | | | |]; try done.
    + intros H. w_inv H. apply addOverload_Val in Hm as [-> Hr].
      apply IH in Hk as [-> Hg]. subst log. split; [done|].
      destruct g as [s c|p].
      * rewrite Hr in Hg. done.
      * destruct Hg as [-> Hg]. split; [done|].
        intros Hall. apply variableCalleesAnalyzed_tail in Hall. by apply Hg.
    + destruct (analyzeValueDefn X (VVariable var) Task_PrepTypeComparison) eqn:Han;
        simpl.
      2:{ intros [= <- <-]. split; [done|]. split; [done|].
          intros Hall. specialize (Hall ty base var). rewrite Hall in Han; [done|].
          by left. }
      destruct (var_type var) as [vty|]; [|done].
      assert (Hstep : forall ft,
        (do* ok := addOverload_fnType X call
                     (LValueExpr ty base (VVariable var)) ft args in
         gatherOverloads X rest args (success && ok.1) ok.2) = Val (g, log) ->
        log = [] /\
        match g with
        | Gather_done _ c => ce_addr c = ce_addr call /\ ce_args c = ce_args call
        | Gather_return p =>
            p = None /\
            ~ variableCalleesAnalyzed X (LValueExpr ty base (VVariable var) :: rest)
        end).
      { intros ft H. w_inv H.
        apply addOverload_fnType_Val in Hm as (-> & _ & Ha & Hargs).
        apply IH in Hk as [-> Hg]. subst log. split; [done|].
        destruct g as [s c|p].
        - rewrite Ha, Hargs in Hg. done.
        - destruct Hg as [-> Hg]. split; [done|].
          intros Hall. apply variableCalleesAnalyzed_tail in Hall. by apply Hg. }
      destruct (dyn_cast_FunctionType vty) as [ft|]; [apply Hstep|].
      destruct (dyn_cast_BoundMethodType vty) as [fnTy|].
      * destruct (dyn_cast_FunctionType fnTy) as [ft|]; [apply Hstep|done].
      * intros H. apply IH in H as [-> Hg]. split; [done|].
        destruct g as [s c|p]; [done|].
        destruct Hg as [-> Hg]. split; [done|].
        intros Hall. apply variableCalleesAnalyzed_tail in Hall. by apply Hg.
Qed.

Lemma callName_finish_Val callable results expected success call r log :
  callName_finish callable results expected success call = Val (r, log) ->
  (exists e, r = Some e /\
     (e = ErrorVal \/ exists ty, e = CallExpr_expr (setType call (Some ty)))) /\
  (Exists (fun e => isNoMatchingMethod e = true) log ->
     r = Some ErrorVal /\ success = true /\ results <> [] /\
     ce_candidates call = []).
Proof.
  unfold callName_finish. destruct success; simpl.
  2:{ intros [= <- <-]. split; [eauto|]. by intros ?%Exists_nil. }
  destruct results as [|r0 results]; simpl.
  { intros [= <- <-]. split; [eauto|].
    intros H. repeat (apply Exists_cons in H as [H|H]; [done|]).
    by apply Exists_nil in H. }
  destruct (ce_candidates call) as [|cc cands]; simpl.
  { intros [= <- <-]. split; [eauto|]. done. }
  intros H. w_inv H. apply w_lift_Val in Hm as [Hty ->].
  apply w_ret_Val in Hk as [<- ->]. subst log. split; [eauto|].
  by intros ?%Exists_nil.
Qed.

Lemma addTemplateConstructors_log methods newExpr call args call' log :
  addTemplateConstructors X methods newExpr call args = Val (call', log) ->
  log = [].
Proof.
  revert call log. induction methods as [|d rest IH]; intros call log; simpl.
  - by intros [= <- <-].
  - destruct (dyn_cast_FunctionDefn d) as [f|]; [|done].
    destruct (analyzeDefn X f Task_PrepTypeComparison); [|apply IH].
    destruct (fn_functionType f) as [ft|]; [|done].
    intros H.
    w_inv H. apply dassert_Val in Hm as [_ ->].
    w_inv Hk. apply dassert_Val in Hm as [_ ->].
    w_inv Hk0. apply dassert_Val in Hm as [_ ->].
    w_inv Hk. apply addOverload_Val in Hm as [-> _].
    apply IH in Hk0 as ->. by subst.
Qed.

Lemma addTemplateCreators_log methods call args call' log :
  addTemplateCreators X methods call args = Val (call', log) -> log = [].
Proof.
  revert call log. induction methods as [|d rest IH]; intros call log; simpl.
  - by intros [= <- <-].
  - destruct (dyn_cast_FunctionDefn d) as [f|]; [|done].
    destruct (isStorageStatic f); [|apply IH].
    destruct (analyzeDefn X f Task_PrepTypeComparison); [|apply IH].
    destruct (fn_functionType f) as [ft|]; [|done].
    intros H. w_inv H. apply addOverload_Val in Hm as [-> _].
    apply IH in Hk as ->. by subst.
Qed.

Lemma findTemplateConstructors_log ty tdef call args r log :
  findTemplateConstructors X ty tdef call args = Val (r, log) -> log = [].
Proof.
  unfold findTemplateConstructors.
  destruct (lookupTemplateMember X tdef idConstruct) as [f1 o1].
  destruct (lookupTemplateMember X tdef idCreate) as [f2 o2].
  destruct f1; [|destruct f2; [|done]]; intros H.
  - w_inv H. apply dassert_Val in Hm as [_ ->].
    w_inv Hk. apply addTemplateConstructors_log in Hm as ->.
    apply w_ret_Val in Hk0 as [_ ->]. by subst.
  - w_inv H. apply dassert_Val in Hm as [_ ->].
    w_inv Hk. apply addTemplateCreators_log in Hm as ->.
    apply w_ret_Val in Hk0 as [_ ->]. by subst.
Qed.

Lemma callConstructor_Val addr tdef args r log :
  callConstructor X addr tdef args = Val (r, log) ->
  quiet log /\ exists e, r = Some e /\ errorOrTypedCall e.
Proof.
  unfold callConstructor. intros H.
  apply w_bind_Val in H as (u1 & la & lb & Hm1 & H & ->).
  injection Hm1 as _ <-.
  apply w_bind_Val in H as (u2 & lc & ld & Hm2 & H & ->).
  assert (Hlc : quiet lc).
  { destruct (negb (td_isTemplate tdef) && negb (td_isTemplateMember tdef));
      injection Hm2 as _ <-; repeat constructor. }
  clear Hm2.
  assert (Hq : quiet ld /\ exists e, r = Some e /\ errorOrTypedCall e);
    [|destruct Hq; split; [|done]; apply quiet_app; [by repeat constructor|];
      by apply quiet_app].
  destruct (analyzeType X (td_typeValue tdef) Task_PrepConstruction); simpl in H.
  2:{ injection H as <- <-. split; [constructor|]. unfold errorOrTypedCall. eauto. }
  apply w_bind_Val in H as (search & le & lf & Hm3 & H & ->).
  assert (le = []) as ->.
  { destruct (td_isTemplate tdef).
    - by apply findTemplateConstructors_log in Hm3.
    - destruct (memberScope X (td_typeValue tdef)); [|done].
      by apply findConstructors_Val in Hm3 as [-> _]. }
  clear Hm3. simpl.
  destruct search as [call methods|]; simpl in H.
  2:{ injection H as <- <-. split; [by repeat constructor|].
      unfold errorOrTypedCall. eauto. }
  destruct (hasAnyCandidates call); simpl in H.
  2:{ injection H as <- <-. split.
      - constructor; [done|]. apply Forall_forall. intros e Hin.
        rewrite app_nil_r in Hin.
        apply list_elem_of_In, in_map_iff in Hin as [d [<- _]]. done.
      - unfold errorOrTypedCall. eauto. }
  destruct (reduceArgList X args call) as [ok call2].
  destruct ok; simpl in H.
  2:{ injection H as <- <-. split; [constructor|].
      unfold errorOrTypedCall. eauto. }
  apply w_bind_Val in H as (ty & lg & lh & Hm4 & H & ->).
  apply w_lift_Val in Hm4 as [_ ->].
  apply w_ret_Val in H as [<- ->]. split; [constructor|].
  eexists. split; [done|]. right. eexists _, _. split; done.
Qed.

Lemma lookupByArgType_Val call name args call' log :
  lookupByArgType X call name args = Val (call', log) ->
  log = [] /\ ce_addr call' = ce_addr call /\ ce_args call' = ce_args call.
Proof.
  unfold lookupByArgType. intros H.
  apply lookupByArgType_add_Val in H as [-> ->]. done.
Qed.

Lemma callName_resolve_Val addr callable args expected isOptional res log :
  callName_resolve X addr callable args expected isOptional = Val (res, log) ->
  quiet log /\
  match res with
  | Resolved_return p =>
      (p = None ->
         (isOptional = true /\ nodeType callable <> Id /\
          lookupName X callable = []) \/
         ~ variableCalleesAnalyzed X (lookupName X callable)) /\
      (forall e, p = Some e -> errorOrTypedCall e)
  | Resolved_call results _ call =>
      results = lookupName X callable /\ ce_addr call = addr
  end.
Proof.
  unfold callName_resolve.
  assert (Herr : forall l, quiet l ->
     Val (Resolved_return (Some ErrorVal), l) = Val (res, log) ->
     quiet log /\
     match res with
     | Resolved_return p =>
         (p = None ->
            (isOptional = true /\ nodeType callable <> Id /\
             lookupName X callable = []) \/
            ~ variableCalleesAnalyzed X (lookupName X callable)) /\
         (forall e, p = Some e -> errorOrTypedCall e)
     | Resolved_call results _ call =>
         results = lookupName X callable /\ ce_addr call = addr
     end).
  { intros l Hl [= <- <-]. split; [done|]. split; [done|].
    intros e [= <-]. by left. }
  assert (Hbody :
    (if is_nil (lookupName X callable)
        && negb match nodeType callable with Id => true | _ => false end
     then if isOptional then w_ret (Resolved_return None)
          else do* _ := w_tell [Error_UndefinedMethod callable;
                                WriteLn_ScopesSearched; DumpScopeHierarchy] in
               w_ret (Resolved_return (Some ErrorVal))
     else
       let '(areTypes, typeList) :=
         if negb (is_nil (lookupName X callable))
         then getTypesFromExprs X (lookupName X callable) else (false, []) in
       if areTypes then
         if (1 <? length typeList)%nat then
           do* _ := w_tell [Error_MultipleDefinitions callable] in
           w_ret (Resolved_return (Some ErrorVal))
         else
           match typeList with
           | [] => Fault NullDeref
           | ty :: _ =>
               match typeDefn X ty with
               | None =>
                   do* _ := w_tell [Error_NotConstructable ty] in
                   w_ret (Resolved_return (Some ErrorVal))
               | Some tdef =>
                   do* p := callConstructor X addr tdef args in
                   w_ret (Resolved_return p)
               end
           end
       else
         do* g := gatherOverloads X (lookupName X callable) args true
                    (setExpectedReturnType (CallExpr_new Call addr None) expected) in
         match g with
         | Gather_return p => w_ret (Resolved_return p)
         | Gather_done success call =>
             let '(ok, call) := reduceArgList X args call in
             if negb ok then w_ret (Resolved_return (Some ErrorVal))
             else
               do* call := (if match nodeType callable with Id => true | _ => false end
                            then callName_adl X callable args call
                            else w_ret call) in
               w_ret (Resolved_call (lookupName X callable) success call)
         end) = Val (res, log) ->
    quiet log /\
    match res with
    | Resolved_return p =>
        (p = None ->
           (isOptional = true /\ nodeType callable <> Id /\
            lookupName X callable = []) \/
           ~ variableCalleesAnalyzed X (lookupName X callable)) /\
        (forall e, p = Some e -> errorOrTypedCall e)
    | Resolved_call results _ call =>
        results = lookupName X callable /\ ce_addr call = addr
    end).
  { destruct (is_nil (lookupName X callable)
              && negb match nodeType callable with Id => true | _ => false end)
      eqn:Hq.
    { apply andb_true_iff in Hq as [Hnil Hid].
      destruct isOptional; simpl.
      - intros [= <- <-]. split; [constructor|]. split; [|done].
        intros _. left. split; [done|]. split.
        + intros E. by rewrite E in Hid.
        + by destruct (lookupName X callable).
      - apply Herr. by repeat constructor. }
    destruct (if negb (is_nil (lookupName X callable))
              then getTypesFromExprs X (lookupName X callable) else (false, []))
      as [areTypes typeList].
    destruct areTypes.
    { destruct (1 <? length typeList)%nat; simpl.
      { apply Herr. by repeat constructor. }
      destruct typeList as [|ty tl]; [done|].
      destruct (typeDefn X ty) as [tdef|]; simpl.
      2:{ apply Herr. by repeat constructor. }
      intros H. w_inv H. apply callConstructor_Val in Hm as [Hql [e [-> He]]].
      apply w_ret_Val in Hk as [<- ->]. rewrite app_nil_r in El. subst log.
      split; [done|]. split; [done|]. by intros e' [= <-]. }
    intros H. w_inv H. apply gatherOverloads_Val in Hm as [-> Hg].
    simpl in El. subst log.
    destruct a as [success call|p].
    2:{ apply w_ret_Val in Hk as [<- ->]. split; [constructor|].
        destruct Hg as [-> Hg]. split; [|done]. intros _. by right. }
    destruct Hg as [Ha _].
    destruct (reduceArgList X args call) as [ok call2] eqn:Hred.
    apply reduceArgList_candidates in Hred as [_ Ha2].
    destruct ok; simpl in Hk.
    2:{ exact (Herr [] quiet_nil Hk). }
    w_inv Hk. apply w_ret_Val in Hk0 as [<- ->].
    assert (l = [] /\ ce_addr a = ce_addr call2) as [-> Ha3].
    { destruct (nodeType callable); try (by apply w_ret_Val in Hm as [<- ->]).
      unfold callName_adl in Hm.
      destruct callable; try (by apply w_ret_Val in Hm as [<- ->]).
      destruct args; try (by apply w_ret_Val in Hm as [<- ->]).
      apply lookupByArgType_Val in Hm as (-> & -> & _). done. }
    subst l0. split; [constructor|]. split; [done|].
    rewrite Ha3, Ha2, Ha. done. }
  destruct (nodeType callable); try done; apply Hbody.
Qed.

(** On lookup results that are callable, none of them a variable whose
    analysis fails, the gathering of candidates runs to its end. *)
Lemma gatherOverloads_total results args success call :
  Forall (calleeWellFormed X) results ->
  variableCalleesAnalyzed X results ->
  exists success' gathered,
    gatherOverloads X results args success call
      = Val (Gather_done success' gathered, []).
Proof.
  intros Hwf. revert success call.
  induction Hwf as [|r rest Hr _ IH]; intros success call Hvars.
  - by exists success, call.
  - pose proof Hvars as Htail. apply variableCalleesAnalyzed_tail in Htail.
    destruct r as [| | | | |ty base [func|var]| | | | | | | | |]; try done.
    + cbn [gatherOverloads]. unfold addOverload.
      cbn [calleeWellFormed] in Hr.
      destruct (analyzeValueDefn X (VFunction func) Task_PrepConversion) eqn:Han;
        cbn [negb].
      * destruct (Hr eq_refl) as [ft Hft]. rewrite Hft.
        destruct (assignFromAST X ft args) as [pa|]; cbn [w_ret w_bind fst snd];
          match goal with
          | |- context [gatherOverloads X rest args ?s ?c] =>
              destruct (IH s c Htail) as (s' & g & ->)
          end; by exists s', g.
      * cbn [w_ret w_bind fst snd].
        match goal with
        | |- context [gatherOverloads X rest args ?s ?c] =>
            destruct (IH s c Htail) as (s' & g & ->)
        end. by exists s', g.
    + cbn [gatherOverloads]. rewrite (Hvars ty base var) by (by left).
      cbn [negb]. destruct Hr as (vty & -> & Hbm).
      assert (Hstep : forall ft,
        exists success' gathered,
          (do* ok := addOverload_fnType X call
                       (LValueExpr ty base (VVariable var)) ft args in
           gatherOverloads X rest args (success && ok.1) ok.2)
          = Val (Gather_done success' gathered, [])).
      { intros ft. unfold addOverload_fnType.
        destruct (assignFromAST X ft args) as [pa|]; cbn [w_ret w_bind fst snd];
          match goal with
          | |- context [gatherOverloads X rest args ?s ?c] =>
              destruct (IH s c Htail) as (s' & g & ->)
          end; by exists s', g. }
      destruct (dyn_cast_FunctionType vty) as [ft|] eqn:Hft; [apply Hstep|].
      destruct (dyn_cast_BoundMethodType vty) as [fnTy|] eqn:Hbt.
      * destruct (Hbm fnTy eq_refl eq_refl) as [ft ->]. apply Hstep.
      * apply IH, Htail.
Qed.

(** With the candidates gathered and the arguments reduced, [callName] on an
    unqualified name with arguments is the lookup by argument type followed
    by the final checks. *)
Lemma callName_after_reduce addr name args expected isOptional
    success gathered reduced :
  args <> [] ->
  lookupName X (ASTIdent name) = [] \/
    fst (getTypesFromExprs X (lookupName X (ASTIdent name))) = false ->
  gatherOverloads X (lookupName X (ASTIdent name)) args true
    (setExpectedReturnType (CallExpr_new Call addr None) expected)
    = Val (Gather_done success gathered, []) ->
  reduceArgList X args gathered = (true, reduced) ->
  callName X addr (ASTIdent name) args expected isOptional =
    (do* call := lookupByArgType X reduced name args in
     callName_finish (ASTIdent name) (lookupName X (ASTIdent name)) expected
                     success call).
Proof.
  intros Hargs Hnt Hg Hred. unfold callName, callName_resolve.
  cbn [nodeType negb]. rewrite andb_false_r.
  assert (Hty : (if negb (is_nil (lookupName X (ASTIdent name)))
                 then getTypesFromExprs X (lookupName X (ASTIdent name))
                 else (false, [])).1 = false).
  { destruct Hnt as [-> | Hnt]; [done|].
    by destruct (negb (is_nil (lookupName X (ASTIdent name)))). }
  destruct (if negb (is_nil (lookupName X (ASTIdent name)))
            then getTypesFromExprs X (lookupName X (ASTIdent name))
            else (false, [])) as [areTypes typeList].
  simpl in Hty. subst areTypes. rewrite Hg. cbn [w_bind]. rewrite Hred.
  cbn [negb]. destruct args as [|a args]; [done|]. cbn [callName_adl].
  destruct (lookupByArgType X reduced name (a :: args)) as [[call l]|k];
    [|done].
  cbn [w_bind w_ret app].
  destruct (callName_finish _ _ _ _ _) as [[r l2]|k]; [|done].
  by rewrite app_nil_r.
Qed.

(** C4 (amended): take a call whose callee is an unqualified name that does
    not denote a type, with at least one argument, where everything the name
    lookup found is callable and no variable it found fails its analysis.
    The gathering of candidates then runs to its end, and once the arguments
    have reduced without error [callName] runs the argument-dependent lookup
    exactly once, on the call as gathering and reduction left it, and goes on
    to its final checks with the call that the lookup returns.  When the name
    lookup found something, no overload failed its analysis, and the call has
    a candidate, that call is returned with its type set: the candidates the
    lookup added stand in it after the gathered ones.  The lookup emits no
    diagnostic and appends candidates only: one, without base, for each
    function it selects that [addOverload] accepts.  The functions selected
    are the static or global functions found under the same name (inherited
    members included) in the defining scope of the type definition of a
    dealiased singular argument type and not yet the method of a candidate,
    each once. *)
Theorem argument_dependent_lookup :
  (forall addr name args expected isOptional,
      let results := lookupName X (ASTIdent name) in
      args <> [] ->
      results = [] \/ fst (getTypesFromExprs X results) = false ->
      Forall (calleeWellFormed X) results ->
      variableCalleesAnalyzed X results ->
      exists success gathered,
        gatherOverloads X results args true
          (setExpectedReturnType (CallExpr_new Call addr None) expected)
          = Val (Gather_done success gathered, []) /\
        forall reduced,
          reduceArgList X args gathered = (true, reduced) ->
          callName X addr (ASTIdent name) args expected isOptional =
            (do* call := lookupByArgType X reduced name args in
             callName_finish (ASTIdent name) results expected success call) /\
          forall call t,
            lookupByArgType X reduced name args = Val (call, []) ->
            success = true -> results <> [] ->
            ce_candidates call <> [] ->
            reduceReturnType call = Val t ->
            callName X addr (ASTIdent name) args expected isOptional =
              Val (Some (CallExpr_expr (setType call (Some t))), [])) /\
  (forall call name args call' log,
      lookupByArgType X call name args = Val (call', log) ->
      log = [] /\
      exists added : list FunctionDefn,
        call' = withCandidates call
                  (ce_candidates call ++
                   omap (acceptedCandidate X (ce_addr call) None args) added) /\
        NoDup (fn_addr <$> added) /\
        (forall f, f ∈ added ->
           asDefn f ∈ adlDefns X name (ce_args call) /\
           isStaticOrGlobal f = true /\
           ~ alreadyCandidate (ce_candidates call) f) /\
        (forall f, asDefn f ∈ adlDefns X name (ce_args call) ->
           isStaticOrGlobal f = true ->
           ~ alreadyCandidate (ce_candidates call) f ->
           exists f', f' ∈ added /\ fn_addr f' = fn_addr f)) /\
  (forall name callArgs d,
      d ∈ adlDefns X name callArgs <->
      exists arg ty argType argTypeDefn scope,
        arg ∈ callArgs /\ type arg = Some ty /\ Ty_isSingular ty = true /\
        dealias X ty = Some argType /\ typeDefn X argType = Some argTypeDefn /\
        definingScope X argTypeDefn = Some scope /\
        d ∈ snd (lookupMember X scope name true)).
Proof.
  split; [|split].
  - intros addr name args expected isOptional results Hargs Hnt Hwf Hvars.
    destruct (gatherOverloads_total results args true
                (setExpectedReturnType (CallExpr_new Call addr None) expected)
                Hwf Hvars) as (success & gathered & Hg).
    exists success, gathered. split; [exact Hg|].
    intros reduced Hred.
    assert (Heq := callName_after_reduce addr name args expected isOptional
                     success gathered reduced Hargs Hnt Hg Hred).
    split; [exact Heq|].
    intros call t Hadl -> Hres Hc Hty. rewrite Heq, Hadl.
    cbn [w_bind]. unfold callName_finish. cbn [negb].
    fold results. destruct results as [|r0 rs]; [done|]. cbn [is_nil].
    destruct (ce_candidates call) as [|cc cs]; [done|]. cbn [is_nil].
    rewrite Hty. done.
  - intros call name args call' log H. unfold lookupByArgType in H.
    apply lookupByArgType_add_Val in H as [-> ->]. split; [done|].
    rewrite lookupByArgType_search_spec. simpl.
    fold (adlTypes X (ce_args call)). fold (adlDefns X name (ce_args call)).
    eexists. split; [reflexivity|]. split; [apply NoDup_adlSelect|].
    assert (Hfound : forall f,
      Some (fn_addr f) ∈ methodsFound_init (ce_candidates call) [] <->
      alreadyCandidate (ce_candidates call) f).
    { intros f. rewrite elem_of_methodsFound_init. unfold alreadyCandidate.
      set_solver. }
    split.
    + intros f Hf. apply elem_of_adlSelect in Hf as (Hd & Hs & Hnf).
      by rewrite Hfound in Hnf.
    + intros f Hd Hs Hnf. apply adlSelect_complete; try done.
      by rewrite Hfound.
  - apply elem_of_adlDefns.
Qed.

(** C5: when the AST arguments do not map onto the parameters of an
    overload that is offered to a call, [addOverload] leaves the call as it
    is, emits no diagnostic and returns true (for a method: once its analysis
    has succeeded, which comes first).  When [callName] emits "No matching
    method" it returns the error value, every lookup result was tried, and
    the call holds no candidate. *)
Theorem overload_rejected_silently :
  (forall call base method args ft,
      analyzeValueDefn X (VFunction method) Task_PrepConversion = true ->
      fn_functionType method = Some ft ->
      assignFromAST X ft args = None ->
      addOverload X call base method args = Val ((true, call), [])) /\
  (forall call fn ft args,
      assignFromAST X ft args = None ->
      addOverload_fnType X call fn ft args = Val ((true, call), [])) /\
  (forall addr callable args expected isOptional r log,
      callName X addr callable args expected isOptional = Val (r, log) ->
      Exists (fun e => isNoMatchingMethod e = true) log ->
      r = Some ErrorVal /\
      exists call log',
        callName_resolve X addr callable args expected isOptional
          = Val (Resolved_call (lookupName X callable) true call, log') /\
        lookupName X callable <> [] /\
        ce_candidates call = []).
Proof.
  split; [|split].
  - intros call base method args ft Han Hft Hpa. unfold addOverload.
    by rewrite Han, Hft, Hpa.
  - intros call fn ft args Hpa. unfold addOverload_fnType. by rewrite Hpa.
  - intros addr callable args expected isOptional r log H Hex.
    unfold callName in H.
    apply w_bind_Val in H as (res & la & lb & Hres & H & ->).
    pose proof (callName_resolve_Val _ _ _ _ _ _ _ Hres) as [Hq Hshape].
    apply Exists_app in Hex as [Hex|Hex]; [by apply quiet_not_Exists in Hq|].
    destruct res as [p|results success call].
    { injection H as <- <-. by apply Exists_nil in Hex. }
    destruct Hshape as [-> _].
    apply callName_finish_Val in H as [_ H].
    destruct (H Hex) as (-> & -> & Hne & Hc). split; [done|]. eauto.
Qed.

(** C6 (amended): the error sentinel [Expr::ErrorVal] has type [BadType].
    [callConstructor], whenever it returns, returns [ErrorVal] or a call
    whose type has been set.  So does [callName] on every path where no
    called variable fails its analysis (that path is left aside here),
    except that with [isOptional] set it returns a null pointer, and no
    diagnostic, for a qualified name that is not found. *)
Theorem callName_returns_expression :
  type ErrorVal = Some BadType /\
  (forall addr tdef args r log,
      callConstructor X addr tdef args = Val (r, log) ->
      exists e, r = Some e /\ errorOrTypedCall e) /\
  (forall addr callable args expected isOptional r log,
      callName X addr callable args expected isOptional = Val (r, log) ->
      variableCalleesAnalyzed X (lookupName X callable) ->
      isOptional = false \/ nodeType callable = Id \/
        lookupName X callable <> [] ->
      exists e, r = Some e /\ errorOrTypedCall e) /\
  (forall addr callable args expected,
      nodeType callable = Member \/ nodeType callable = Specialize ->
      lookupName X callable = [] ->
      callName X addr callable args expected true = Val (None, [])).
Proof.
  split; [done|]. split; [|split].
  - intros addr tdef args r log H. by apply callConstructor_Val in H as [_ H].
  - intros addr callable args expected isOptional r log H Hvars Hopt.
    unfold callName in H.
    apply w_bind_Val in H as (res & la & lb & Hres & H & ->).
    apply callName_resolve_Val in Hres as [_ Hshape].
    destruct res as [p|results success call].
    + injection H as <- <-. destruct Hshape as [Hnull Hsome].
      destruct p as [e|]; [eauto|].
      destruct (Hnull eq_refl) as [(Ho & Hid & Hnil)|Hbad]; [|done].
      destruct Hopt as [Hopt|[Hopt|Hopt]]; congruence.
    + apply callName_finish_Val in H as [(e & -> & He) _].
      exists e. split; [done|]. destruct He as [->|[ty ->]]; [by left|].
      right. eexists _, _. split; done.
  - intros addr callable args expected Hq Hnil.
    unfold callName, callName_resolve. rewrite Hnil.
    by destruct Hq as [-> | ->].
Qed.

End WithExternals.

(** *** The theorems at work on the sample analyses *)

Lemma fn_construct_isConstructorMember : isConstructorMember fn_construct.
Proof. exists fnType_construct. by repeat split. Qed.

Lemma fn_create_isCreateMember : isCreateMember fn_create.
Proof. by exists fnType_create. Qed.

(** [String("hi")] in three worlds.  With both [construct] and [create] in
    the member scope of [String] the candidates are the [construct] members,
    each on a [NewExpr(String)]; with [create] only, the static [create];
    with neither, the inherited [construct]. *)
Lemma callConstructor_search_order_witness :
  (exists call,
     callConstructor stringWorld 0 tdefString [ASTLiteral 1]
       = Val (Some (CallExpr_expr call), MoreSpec.accessEvents tdefString) /\
     fst (lookupMember stringWorld scopeStringMembers idCreate false) = true /\
     candidateMethods call = [Some (fn_addr fn_construct)] /\
     map cc_base (ce_candidates call) = [Some (NewExpr tyString)]) /\
  (exists call,
     callConstructor createWorld 0 tdefString [ASTLiteral 1]
       = Val (Some (CallExpr_expr call), MoreSpec.accessEvents tdefString) /\
     candidateMethods call = [Some (fn_addr fn_create)] /\
     map cc_base (ce_candidates call) = [None]) /\
  (exists call,
     callConstructor inheritedWorld 0 tdefString [ASTLiteral 1]
       = Val (Some (CallExpr_expr call), MoreSpec.accessEvents tdefString) /\
     fst (lookupMember inheritedWorld scopeStringMembers idConstruct false) = false /\
     candidateMethods call = [Some (fn_addr fn_construct)] /\
     map cc_base (ce_candidates call) = [Some (NewExpr tyString)]).
Proof.
  split; [|split].
  - destruct (callConstructor_search_order stringWorld 0 tdefString
                [ASTLiteral 1] scopeStringMembers eq_refl eq_refl eq_refl)
      as (H1 & _ & _ & _ & H5 & _).
    specialize (H1 [fn_construct] eq_refl eq_refl ltac:(done)
                   (Forall_cons_2 _ _ _ fn_construct_isConstructorMember
                      (Forall_nil_2 _))).
    destruct (H5 _ _ H1) as [_ Hf].
    set (found := withCandidates _ _) in Hf.
    destruct (Hf (snd (reduceArgList stringWorld [ASTLiteral 1] found)) tyString
                eq_refl eq_refl eq_refl) as [Hrun Hc].
    eexists. split; [exact Hrun|]. by repeat split.
  - destruct (callConstructor_search_order createWorld 0 tdefString
                [ASTLiteral 1] scopeStringMembers eq_refl eq_refl eq_refl)
      as (_ & H2 & _ & _ & H5 & _).
    specialize (H2 [fn_create] eq_refl eq_refl eq_refl ltac:(done)
                   (Forall_cons_2 _ _ _ fn_create_isCreateMember
                      (Forall_nil_2 _))).
    destruct (H5 _ _ H2) as [_ Hf].
    set (found := withCandidates _ _) in Hf.
    destruct (Hf (snd (reduceArgList createWorld [ASTLiteral 1] found)) tyString
                eq_refl eq_refl eq_refl) as [Hrun Hc].
    eexists. split; [exact Hrun|]. by repeat split.
  - destruct (callConstructor_search_order inheritedWorld 0 tdefString
                [ASTLiteral 1] scopeStringMembers eq_refl eq_refl eq_refl)
      as (_ & _ & H3 & _ & H5 & _).
    specialize (H3 [fn_construct] eq_refl eq_refl eq_refl eq_refl ltac:(done)
                   (Forall_cons_2 _ _ _ fn_construct_isConstructorMember
                      (Forall_nil_2 _))).
    destruct (H5 _ _ H3) as [_ Hf].
    set (found := withCandidates _ _) in Hf.
    destruct (Hf (snd (reduceArgList inheritedWorld [ASTLiteral 1] found)) tyString
                eq_refl eq_refl eq_refl) as [Hrun Hc].
    eexists. split; [exact Hrun|]. by repeat split.
Defined.

(** C4, as the specification states it, fails on the code: the module of
    [Foo] defines the global [print(Foo, Foo)], which the lookup finds and
    which is no candidate's method; offered with the one argument of the call
    it is rejected, and no candidate is added for it. *)
Lemma AdlClaim_fails_when_rejected :
  ~ AdlClaim printWorld printCall "print" [ASTIdent "x"].
Proof.
  intros H.
  destruct (lookupByArgType printWorld printCall "print" [ASTIdent "x"])
    as [[call' log]|k] eqn:E; [|vm_compute in E; discriminate E].
  destruct (H call' log fn_print2 E) as [cc [Hin Hm]].
  - apply list_elem_of_In. vm_compute. by left.
  - reflexivity.
  - intros [cc [Hin Hcc]]. apply list_elem_of_In in Hin.
    destruct Hin as [<-|[]]. vm_compute in Hcc. discriminate Hcc.
  - vm_compute in E. injection E as <- <-.
    apply list_elem_of_In in Hin. simpl in Hin.
    destruct Hin as [<-|[<-|[]]]; vm_compute in Hm; discriminate Hm.
Qed.

(** [print(x)] in [printWorld]: the name lookup finds [print(int32)], the
    argument reduces to a value of type [Foo], and the lookup in the module of
    [Foo] adds exactly [print(Foo)]; the call returned holds both
    candidates. *)
Lemma argument_dependent_lookup_witness :
  (exists call,
     gatherOverloads printWorld (lookupName printWorld (ASTIdent "print"))
       [ASTIdent "x"] true
       (setExpectedReturnType (CallExpr_new Call 0 None) None)
       = Val (Gather_done true
                (withCandidates (CallExpr_new Call 0 None)
                   (ce_candidates printCall)), []) /\
     reduceArgList printWorld [ASTIdent "x"]
       (withCandidates (CallExpr_new Call 0 None) (ce_candidates printCall))
       = (true, printCall) /\
     lookupByArgType printWorld printCall "print" [ASTIdent "x"]
       = Val (call, []) /\
     candidateMethods printCall = [Some (fn_addr fn_printInt)] /\
     candidateMethods call
       = [Some (fn_addr fn_printInt); Some (fn_addr fn_print1)] /\
     callName printWorld 0 (ASTIdent "print") [ASTIdent "x"] None false
       = Val (Some (CallExpr_expr (setType call (Some tyVoid))), [])) /\
  (exists call',
     lookupByArgType printWorld printCall "print" [ASTIdent "x"] = Val (call', []) /\
     exists added : list FunctionDefn,
       call' = withCandidates printCall
                 (ce_candidates printCall ++
                  omap (acceptedCandidate printWorld (ce_addr printCall) None
                                          [ASTIdent "x"]) added) /\
       NoDup (fn_addr <$> added)).
Proof.
  split.
  - destruct (proj1 (argument_dependent_lookup printWorld)
                0 "print" [ASTIdent "x"] None false)
      as (success & gathered & Hg & Hrest).
    + done.
    + by right.
    + repeat constructor. intros _. by exists fnType_printInt.
    + intros ty base v Hin. apply list_elem_of_In in Hin.
      destruct Hin as [Hin|[]]. discriminate Hin.
    + assert (Hg' : gatherOverloads printWorld
                      (lookupName printWorld (ASTIdent "print"))
                      [ASTIdent "x"] true
                      (setExpectedReturnType (CallExpr_new Call 0 None) None)
                    = Val (Gather_done true
                             (withCandidates (CallExpr_new Call 0 None)
                                (ce_candidates printCall)), []))
        by reflexivity.
      rewrite Hg' in Hg. injection Hg as <- <-.
      destruct (Hrest printCall eq_refl) as [_ Hpart].
      destruct (lookupByArgType printWorld printCall "print" [ASTIdent "x"])
        as [[call log]|k] eqn:E; [|vm_compute in E; discriminate E].
      assert (log = []) as -> by (vm_compute in E; by injection E as _ <-).
      exists call. split; [exact Hg'|]. split; [reflexivity|].
      split; [reflexivity|]. split; [reflexivity|].
      assert (Hm : candidateMethods call
                   = [Some (fn_addr fn_printInt); Some (fn_addr fn_print1)])
        by (vm_compute in E; by injection E as <-).
      split; [exact Hm|].
      apply (Hpart call tyVoid eq_refl eq_refl).
      * done.
      * intros Hc. unfold candidateMethods in Hm. by rewrite Hc in Hm.
      * vm_compute in E. by injection E as <-.
  - destruct (lookupByArgType printWorld printCall "print" [ASTIdent "x"])
      as [[call' log]|k] eqn:E; [|vm_compute in E; discriminate E].
    destruct (proj1 (proj2 (argument_dependent_lookup printWorld))
                printCall "print" [ASTIdent "x"] call' log E)
      as [-> (added & Hc & Hnd & _)].
    exists call'. split; [reflexivity|]. exists added. split; done.
Defined.

(** What the amended C4 leaves aside: when the name lookup finds nothing,
    the candidates that the lookup by argument type adds are not used;
    [callName] reports the method as undefined. *)
Lemma callName_undefined_despite_adl :
  callName adlOnlyWorld 0 (ASTIdent "print") [ASTIdent "x"] None false
    = Val (Some ErrorVal,
           [Error_UndefinedMethod (ASTIdent "print"); WriteLn_ScopesSearched;
            DumpScopeHierarchy]) /\
  exists call,
    lookupByArgType adlOnlyWorld
      (withArgs (CallExpr_new Call 0 None)
         [reduceExpr adlOnlyWorld (ASTIdent "x")
            (ParameterOfConstraint 0 0)])
      "print" [ASTIdent "x"] = Val (call, []) /\
    candidateMethods call = [Some (fn_addr fn_print1)].
Proof. split; [reflexivity|]. eexists. split; reflexivity. Qed.

Lemma printWorld_candidates :
  exists call,
    callName printWorld 0 (ASTIdent "print") [ASTIdent "x"] None false
      = Val (Some (CallExpr_expr call), []) /\
    map (fun cc => option_map fn_addr (cc_method cc)) (ce_candidates call)
      = [Some 22; Some 21] /\
    ce_type call = Some tyVoid.
Proof. eexists (mkCallExpr _ _ _ _ _ _ _). split; [|split]; reflexivity. Qed.

(** [print(x, x, x)] matches no overload: both rejections are silent, the
    diagnostic comes once at the end, on an empty candidate list. *)
Lemma overload_rejected_silently_witness :
  exists log call log',
    callName printWorld 0 (ASTIdent "print")
             [ASTIdent "x"; ASTIdent "x"; ASTIdent "x"] None false
      = Val (Some ErrorVal, log) /\
    callName_resolve printWorld 0 (ASTIdent "print")
             [ASTIdent "x"; ASTIdent "x"; ASTIdent "x"] None false
      = Val (Resolved_call (lookupName printWorld (ASTIdent "print")) true call,
             log') /\
    ce_candidates call = [].
Proof.
  destruct (callName printWorld 0 (ASTIdent "print")
              [ASTIdent "x"; ASTIdent "x"; ASTIdent "x"] None false)
    as [[r log]|k] eqn:E; [|vm_compute in E; discriminate E].
  destruct (proj2 (proj2 (overload_rejected_silently printWorld))
              0 (ASTIdent "print") [ASTIdent "x"; ASTIdent "x"; ASTIdent "x"]
              None false r log E)
    as (-> & call & log' & Hres & _ & Hc).
  - vm_compute in E. injection E as _ <-. by left.
  - exists log, call, log'. split; [reflexivity|]. split; done.
Defined.

(** C6, as the specification states it, fails on the code: asked for an
    optional call of the qualified name [a.f], which is not found,
    [callName] returns a null pointer. *)
Lemma NeverNullClaim_fails_when_optional :
  ~ NeverNullClaim baseExternals 0 (ASTMemberRef (ASTIdent "a") "f") [] None true.
Proof. intros H. by apply (H None []). Qed.

Lemma callName_returns_expression_witness :
  exists r log,
    callName printWorld 0 (ASTIdent "print") [ASTIdent "x"] None false
      = Val (r, log) /\
    exists e, r = Some e /\ errorOrTypedCall e.
Proof.
  destruct (callName printWorld 0 (ASTIdent "print") [ASTIdent "x"] None false)
    as [[r log]|k] eqn:E; [|vm_compute in E; discriminate E].
  exists r, log. split; [reflexivity|].
  apply (proj1 (proj2 (proj2 (callName_returns_expression printWorld)))
           0 (ASTIdent "print") [ASTIdent "x"] None false r log E).
  - intros ty base v Hin. apply list_elem_of_In in Hin.
    destruct Hin as [Hin|[]]. discriminate Hin.
  - by left.
Defined.

(** The path that the amended C6 leaves aside: the analysis of the called
    variable [v] fails and [callName] returns [false], a null pointer, where
    its other error paths return [&Expr::ErrorVal]. *)
Lemma callName_returns_false_for_unanalyzed_variable :
  callName variableWorld 0 (ASTIdent "v") [ASTLiteral 1] None false
    = Val (None, []).
Proof. reflexivity. Qed.

End CallFacts.

(** * Further properties of the code *)

Module CandidateFacts.
Import Types CFG TypeFacts Samples CallSpec ResultTypeFacts MoreWorlds.

Lemma singularCandidate_loop_surviving cands acc :
  singularCandidate_loop cands acc =
  match acc, surviving cands with
  | None, [cc] => Some cc
  | Some a, [] => Some a
  | None, [] => None
  | _, _ => None
  end.
Proof.
  revert acc. induction cands as [|cc rest IH]; intros acc.
  - by destruct acc.
  - rewrite surviving_cons. cbn [singularCandidate_loop].
    destruct (cc_isCulled cc); [apply IH|].
    destruct acc as [a|]; [done|]. rewrite IH.
    by destruct (surviving rest).
Qed.

Lemma hasAnyCandidates_loop_surviving cands :
  hasAnyCandidates_loop cands = negb (is_nil (surviving cands)).
Proof.
  induction cands as [|cc rest IH]; [done|].
  rewrite surviving_cons. cbn [hasAnyCandidates_loop].
  by destruct (cc_isCulled cc).
Qed.

Lemma singularParamType_loop_surviving index cands acc :
  singularParamType_loop index cands acc =
  singularParamType_loop index (surviving cands) acc.
Proof.
  revert acc. induction cands as [|cc rest IH]; intros acc; [done|].
  rewrite surviving_cons. cbn [singularParamType_loop].
  destruct (cc_isCulled cc) eqn:Hc; [apply IH|].
  cbn [singularParamType_loop]. rewrite Hc.
  destruct (negb (isDefined acc)); [apply IH|].
  destruct (negb _); [done|apply IH].
Qed.

Lemma singularResultType_loop_surviving cands acc :
  singularResultType_loop cands acc =
  singularResultType_loop (surviving cands) acc.
Proof.
  revert acc. induction cands as [|cc rest IH]; intros acc; [done|].
  rewrite surviving_cons. cbn [singularResultType_loop].
  destruct (cc_isCulled cc) eqn:Hc; [apply IH|].
  cbn [singularResultType_loop]. rewrite Hc.
  destruct (candidateResultType cc) as [ty|k]; simpl; [|done].
  destruct (negb (isDefined acc)); [apply IH|].
  destruct (negb _); [done|apply IH].
Qed.

Lemma surviving_idem cands : surviving (surviving cands) = surviving cands.
Proof.
  induction cands as [|cc rest IH]; [done|].
  rewrite surviving_cons. destruct (cc_isCulled cc) eqn:Hc; [done|].
  rewrite surviving_cons, Hc. by f_equal.
Qed.

(** X1: [singularCandidate()] returns the candidate that is not culled when
    there is exactly one, and null when there is none or more than one;
    [hasAnyCandidates()] says whether any candidate is not culled. *)
Theorem singularCandidate_unique_survivor (c : CallExprR) :
  singularCandidate c =
    match surviving (ce_candidates c) with
    | [cc] => Some cc
    | _ => None
    end /\
  hasAnyCandidates c = negb (is_nil (surviving (ce_candidates c))).
Proof.
  split.
  - unfold singularCandidate. rewrite singularCandidate_loop_surviving.
    by destruct (surviving (ce_candidates c)) as [|? [|? ?]].
  - apply hasAnyCandidates_loop_surviving.
Qed.

(** X2: culled candidates never influence the views of a call:
    [singularParamType], [singularResultType], [singularCandidate] and
    [hasAnyCandidates] return the same on the call and on the call with its
    culled candidates removed. *)
Theorem culled_candidates_are_ignored (c : CallExprR) :
  let c' := withCandidates c (surviving (ce_candidates c)) in
  (forall index, singularParamType c index = singularParamType c' index) /\
  singularResultType c = singularResultType c' /\
  singularCandidate c = singularCandidate c' /\
  hasAnyCandidates c = hasAnyCandidates c'.
Proof.
  cbv zeta. split; [|split; [|split]].
  - intros index. apply singularParamType_loop_surviving.
  - apply singularResultType_loop_surviving.
  - unfold singularCandidate. simpl.
    by rewrite !singularCandidate_loop_surviving, surviving_idem.
  - unfold hasAnyCandidates. simpl.
    by rewrite !hasAnyCandidates_loop_surviving, surviving_idem.
Qed.

(** X3: when exactly one candidate is left, the call's parameter and result
    types are that candidate's: [singularParamType(i)] is its [paramType(i)]
    and [singularResultType()] is its result type (the self type for a
    constructor). *)
Theorem singular_candidate_gives_types (c : CallExprR) (cc : CallCandidate) :
  singularCandidate c = Some cc ->
  (forall index, singularParamType c index = cc_paramType cc index) /\
  singularResultType c = candidateResultType cc /\
  cc_isCulled cc = false /\ In cc (ce_candidates c).
Proof.
  intros H. unfold singularCandidate in H.
  rewrite singularCandidate_loop_surviving in H.
  destruct (surviving (ce_candidates c)) as [|x [|y rest]] eqn:E; try done.
  injection H as ->.
  assert (Hin : In cc (surviving (ce_candidates c))) by (rewrite E; by left).
  apply filter_In in Hin as [Hin Hc].
  split; [|split; [|split; [by destruct (cc_isCulled cc)|done]]].
  - intros index. unfold singularParamType.
    rewrite singularParamType_loop_surviving, E. simpl.
    assert (cc_isCulled cc = false) as -> by (by destruct (cc_isCulled cc)).
    done.
  - unfold singularResultType. rewrite singularResultType_loop_surviving, E.
    simpl. assert (cc_isCulled cc = false) as -> by (by destruct (cc_isCulled cc)).
    by destruct (candidateResultType cc).
Qed.

Lemma surviving_not_culled cands cc :
  In cc (surviving cands) -> cc_isCulled cc = false.
Proof.
  intros H. apply filter_In in H as [_ H]. by destruct (cc_isCulled cc).
Qed.

(** With a type already chosen, the loop returns it when every candidate
    left has this type at the index, and null otherwise. *)
Lemma singularParamType_loop_agreed index (l : list CallCandidate) (t : Ty) :
  (forall cc, In cc l -> cc_isCulled cc = false) ->
  (forall t', singularParamType_loop index l (Some t) = Some t' <->
     t' = t /\ Forall (fun u => u = Some t) (map (fun cc => cc_paramType cc index) l)) /\
  (singularParamType_loop index l (Some t) = None <->
     Exists (fun u => u <> Some t) (map (fun cc => cc_paramType cc index) l)).
Proof.
  induction l as [|cc rest IH]; intros Hnc.
  - simpl. split.
    + intros t'. split; [by intros [= ->]|by intros [-> _]].
    + split; [done|by intros ?%Exists_nil].
  - specialize (IH (fun c H => Hnc c (or_intror H))) as [IHs IHn].
    cbn [singularParamType_loop map]. rewrite (Hnc cc) by (by left).
    cbn [isDefined negb].
    destruct (TypeRef_isEqual (cc_paramType cc index) (Some t)) eqn:E;
      cbn [negb].
    + apply TypeRef_isEqual_true in E as (u & Hu & [= ->]). rewrite Hu. split.
      * intros t'. rewrite IHs, Forall_cons. naive_solver.
      * rewrite IHn, Exists_cons. naive_solver.
    + assert (Hne : cc_paramType cc index <> Some t).
      { intros Heq. rewrite Heq, TypeRef_isEqual_same in E. done. }
      split.
      * intros t'. rewrite Forall_cons. naive_solver.
      * rewrite Exists_cons. naive_solver.
Qed.

(** Before a type is chosen, candidates without a type are passed over. *)
Lemma singularParamType_loop_skips index (l : list CallCandidate) :
  (forall cc, In cc l -> cc_isCulled cc = false) ->
  let tys := map (fun cc => cc_paramType cc index) l in
  (forall t, singularParamType_loop index l None = Some t <->
     exists k rest, tys = replicate k None ++ Some t :: rest /\
                    Forall (fun u => u = Some t) rest) /\
  (singularParamType_loop index l None = None <->
     Forall (fun u => u = None) tys \/
     exists k t1 rest, tys = replicate k None ++ Some t1 :: rest /\
                       Exists (fun u => u <> Some t1) rest).
Proof.
  cbv zeta. induction l as [|cc rest IH]; intros Hnc.
  - simpl. split.
    + intros t. split; [done|]. intros (k & r & H & _). by destruct k.
    + split; [by left|done].
  - specialize (IH (fun c H => Hnc c (or_intror H))) as [IHs IHn].
    cbn [singularParamType_loop map]. rewrite (Hnc cc) by (by left).
    cbn [isDefined negb].
    destruct (cc_paramType cc index) as [t0|] eqn:E0.
    + destruct (singularParamType_loop_agreed index rest t0
                  (fun c H => Hnc c (or_intror H))) as [Hs Hn].
      split.
      * intros t. rewrite Hs. split.
        -- intros [-> Hall]. by exists 0, (map (fun cc => cc_paramType cc index) rest).
        -- intros (k & r & H & Hall). destruct k as [|k]; [|done].
           simpl in H. injection H as -> <-. done.
      * rewrite Hn. split.
        -- intros Hex. right.
           by exists 0, t0, (map (fun cc => cc_paramType cc index) rest).
        -- intros [Hall|(k & t1 & r & H & Hex)].
           ++ by apply Forall_cons_1 in Hall as [? _].
           ++ destruct k as [|k]; [|done]. simpl in H. by injection H as -> <-.
    + split.
      * intros t. rewrite IHs. split.
        -- intros (k & r & -> & Hall). by exists (S k), r.
        -- intros (k & r & H & Hall). destruct k as [|k]; [done|].
           simpl in H. injection H as H. by exists k, r.
      * rewrite IHn. split.
        -- intros [Hall|(k & t1 & r & -> & Hex)].
           ++ left. by constructor.
           ++ right. by exists (S k), t1, r.
        -- intros [Hall|(k & t1 & r & H & Hex)].
           ++ left. by apply Forall_cons_1 in Hall as [_ ?].
           ++ destruct k as [|k]; [done|]. simpl in H. injection H as H.
              right. by exists k, t1, r.
Qed.

(** X4: [singularParamType(i)] passes over the candidates in play that have
    no type for the [i]-th argument until the first that has one, [t]; it
    returns [t] when every candidate after that one has [t] there, and null
    when one of them has another type or none.  It returns null, too, when
    no candidate in play has a type there.  The order of the candidates
    matters: a candidate without a type is ignored before a typed one and
    makes the result null after it. *)
Theorem singularParamType_agreement (c : CallExprR) (index : nat) :
  let tys := map (fun cc => cc_paramType cc index) (surviving (ce_candidates c)) in
  (forall t, singularParamType c index = Some t <->
     exists k rest, tys = replicate k None ++ Some t :: rest /\
                    Forall (fun u => u = Some t) rest) /\
  (singularParamType c index = None <->
     Forall (fun u => u = None) tys \/
     exists k t1 rest, tys = replicate k None ++ Some t1 :: rest /\
                       Exists (fun u => u <> Some t1) rest) /\
  (forall c1 c2 t,
     cc_isCulled c1 = false -> cc_isCulled c2 = false ->
     cc_paramType c1 index = None -> cc_paramType c2 index = Some t ->
     singularParamType (withCandidates c [c1; c2]) index = Some t /\
     singularParamType (withCandidates c [c2; c1]) index = None).
Proof.
  cbv zeta. unfold singularParamType. rewrite singularParamType_loop_surviving.
  destruct (singularParamType_loop_skips index (surviving (ce_candidates c)))
    as [Hs Hn].
  { intros cc. apply surviving_not_culled. }
  split; [done|]. split; [done|].
  intros c1 c2 t H1 H2 E1 E2. simpl. rewrite H1, H2, E1, E2. simpl.
  done.
Qed.

(** [f(int32)] has no second parameter and [print(Foo, Foo)] has: asked for
    the second parameter type, the call answers [Foo] when [f] comes first
    and null when it comes last. *)
Lemma singularParamType_agreement_witness :
  singularParamType (callWith [cand_f; cand_print2]) 1 = Some tyFoo /\
  singularParamType (callWith [cand_print2; cand_f]) 1 = None.
Proof.
  exact (proj2 (proj2 (singularParamType_agreement (callWith []) 1))
           cand_f cand_print2 tyFoo eq_refl eq_refl eq_refl eq_refl).
Defined.

Lemma singular_candidate_gives_types_witness :
  let c := callWith [culled cand_g; cand_f] in
  (forall index, singularParamType c index = cc_paramType cand_f index) /\
  singularResultType c = candidateResultType cand_f /\
  cc_isCulled cand_f = false /\ In cand_f (ce_candidates c).
Proof.
  exact (singular_candidate_gives_types
           (callWith [culled cand_g; cand_f]) cand_f eq_refl).
Defined.

End CandidateFacts.

Module OperandFacts.
Import Types CFG TypeFacts Samples ExprFacts MoreSpec.

Lemma isSingular_operands (e : Expr) :
  isSingular e = true -> Forall (fun d => isSingular d = true) (operands e).
Proof.
  destruct e as [|k ty|k ty arg|k ty first second|k ty args|ty base value
                |ty value|ty var initExpr|ty selfArg method
                |k addr ty function_ candidates args expected
                |k ty function_ args|ty function_ args|ty
                |ty op first second|ty value toType]; cbn [operands children].
  - by constructor.
  - by constructor.
  - simpl. intros H. apply andb_prop in H as [_ H]. by repeat constructor.
  - simpl. intros H. apply andb_prop in H as [H H2].
    apply andb_prop in H as [_ H1]. by repeat constructor.
  - intros H. by apply ArglistExpr_isSingular_Forall.
  - intros H. by apply isSingular_LValueExpr in H as [H _].
  - by constructor.
  - simpl. intros H. apply andb_prop in H as [H _]. by repeat constructor.
  - simpl. intros H. apply andb_prop in H as [H _].
    destruct selfArg; by repeat constructor.
  - intros H. apply isSingular_CallExpr in H as [Hargs Hc].
    destruct candidates as [|cc rest]; [|done].
    destruct Hc as (f & -> & Hf). by constructor.
  - intros H. by apply isSingular_FnCallExpr in H as [_ H].
  - intros H. by apply isSingular_IndirectCallExpr in H.
  - by constructor.
  - simpl. intros H. apply andb_prop in H as [H H2].
    apply andb_prop in H as [_ H1]. by repeat constructor.
  - simpl. intros H. apply andb_prop in H as [H _]. by repeat constructor.
Qed.

(** X5: singularity is inherited downwards.  Every expression reached from
    a singular expression through operands -- the children of a node, but
    for a call with candidates its arguments only -- is singular. *)
Theorem singular_operands_are_singular (e d : Expr) :
  rtc (fun a b => b ∈ operands a) e d ->
  isSingular e = true -> isSingular d = true.
Proof.
  induction 1 as [e|e m d Hstep _ IH]; [done|].
  intros He. apply IH.
  apply isSingular_operands in He.
  rewrite Forall_forall in He. by apply He.
Qed.

Lemma singular_operands_are_singular_witness :
  isSingular (ConstantExpr ConstInt tyInt32) = true.
Proof.
  apply (singular_operands_are_singular
           (BinaryExpr And (Primitive TypeId_Bool)
              (UnaryExpr Not (Primitive TypeId_Bool)
                 (ConstantExpr ConstInt tyInt32))
              (ConstantExpr ConstInt tyInt32))
           (ConstantExpr ConstInt tyInt32)).
  - apply (rtc_l _ _ (UnaryExpr Not (Primitive TypeId_Bool)
                        (ConstantExpr ConstInt tyInt32))).
    + simpl. set_solver.
    + apply rtc_once. simpl. set_solver.
  - reflexivity.
Defined.

End OperandFacts.

Module ArgListFacts.
Import Types CFG Sema Samples CallSpec CallSamples MoreSpec.

Lemma singularParamType_push_arg call ex index :
  singularParamType (push_arg call ex) index = singularParamType call index.
Proof. done. Qed.

Lemma reduceArgList_loop_spec (X : Externals) (call0 : CallExprR) in_ :
  forall i call,
    ce_candidates call = ce_candidates call0 -> ce_addr call = ce_addr call0 ->
    reduceArgList_loop X in_ i call =
      (noError (reducedArgs X call0 i in_),
       withArgs call (ce_args call ++ untilError (reducedArgs X call0 i in_))).
Proof.
  induction in_ as [|a rest IH]; intros i call Hc Ha.
  - simpl. rewrite app_nil_r. by destruct call.
  - cbn [reduceArgList_loop reducedArgs untilError noError forallb].
    unfold getMappedParameterType, mappedType, singularParamType.
    rewrite Hc, Ha. fold (argNode a).
    set (ty := match singularParamType_loop i (ce_candidates call0) None with
               | Some ty => ty
               | None => ParameterOfConstraint (ce_addr call0) i
               end).
    assert (Hty : match singularParamType_loop i (ce_candidates call0) None with
                  | Some ty0 => Some ty0
                  | None => Some (ParameterOfConstraint (ce_addr call0) i)
                  end = Some ty).
    { unfold ty. by destruct (singularParamType_loop _ _ _). }
    rewrite Hty.
    destruct (isErrorResult (reduceExpr X (argNode a) ty)) eqn:E; simpl.
    + rewrite app_nil_r. by destruct call.
    + rewrite IH by done. f_equal.
      unfold withArgs, push_arg. simpl. by rewrite <- app_assoc.
Qed.

Lemma reducedArgs_ext (X : Externals) (c c' : CallExprR) i in_ :
  ce_candidates c = ce_candidates c' -> ce_addr c = ce_addr c' ->
  reducedArgs X c i in_ = reducedArgs X c' i in_.
Proof.
  intros Hc Ha. revert i. induction in_ as [|a rest IH]; intros i; [done|].
  simpl. rewrite IH. unfold mappedType, singularParamType. by rewrite Hc, Ha.
Qed.

Lemma reducedArgs_length (X : Externals) (c : CallExprR) i in_ :
  length (reducedArgs X c i in_) = length in_.
Proof. revert i. induction in_ as [|a rest IH]; intros i; simpl; [done|]. by rewrite IH. Qed.

Lemma untilError_noError (l : list Expr) :
  noError l = true -> untilError l = l.
Proof.
  induction l as [|e rest IH]; [done|]. simpl. intros H.
  apply andb_prop in H as [He Hrest].
  destruct (isErrorResult e); [done|]. by rewrite IH.
Qed.

Lemma untilError_error (l : list Expr) :
  noError l = false -> length (untilError l) < length l.
Proof.
  induction l as [|e rest IH]; [done|]. simpl.
  destruct (isErrorResult e); simpl; [lia|]. intros H. apply IH in H. lia.
Qed.

Lemma untilError_Forall (l : list Expr) :
  Forall (fun e => isErrorResult e = false) (untilError l).
Proof.
  induction l as [|e rest IH]; simpl; [done|].
  destruct (isErrorResult e) eqn:E; [done|]. by constructor.
Qed.

Lemma reduceArgList_eq (X : Externals) (in_ : list ASTNode) (call : CallExprR) :
  reduceArgList X in_ call =
    (noError (reducedArgs X call 0 in_),
     withArgs call (ce_args call ++ untilError (reducedArgs X call 0 in_))).
Proof. unfold reduceArgList. by apply reduceArgList_loop_spec. Qed.

(** X6: [reduceArgList] reduces the arguments in order, each against the
    parameter type the call maps its index to, and appends the results to the
    call's arguments up to, and without, the first error result; it returns
    true exactly when no argument reduced to an error.  The candidates and
    the other fields of the call stay as they are: the arguments appended
    before a failure remain in the call. *)
Theorem reduceArgList_appends_until_error (X : Externals) (in_ : list ASTNode)
    (call : CallExprR) :
  let exs := reducedArgs X call 0 in_ in
  reduceArgList X in_ call =
    (noError exs, withArgs call (ce_args call ++ untilError exs)) /\
  length exs = length in_ /\
  Forall (fun e => isErrorResult e = false) (untilError exs) /\
  (noError exs = true -> untilError exs = exs) /\
  (noError exs = false -> length (untilError exs) < length in_).
Proof.
  cbv zeta. split; [apply reduceArgList_eq|].
  split; [apply reducedArgs_length|].
  split; [apply untilError_Forall|].
  split; [apply untilError_noError|].
  intros H. apply untilError_error in H. by rewrite reducedArgs_length in H.
Qed.

End ArgListFacts.

Module CoerceFacts.
Import Types CFG Sema Samples CallSpec CallSamples MoreSpec CallFacts.

Section WithExternals.
Variable X : Externals.

Lemma addOverload_exprs_shape call base method args r log :
  addOverload_exprs X call base method args = Val (r, log) ->
  log = [] /\
  exists new, snd r = withCandidates call (ce_candidates call ++ new) /\
    Forall (fun cc => cc_base cc = base /\ cc_isCulled cc = false /\
                      cc_method cc = Some method /\
                      analyzeValueDefn X (VFunction method) Task_PrepConversion = true)
           new.
Proof.
  unfold addOverload_exprs.
  destruct (analyzeValueDefn X (VFunction method) Task_PrepConversion) eqn:Ha;
    simpl.
  - destruct (fn_functionType method) as [ft|]; [|done].
    destruct (assignPositional X ft (length args)) as [pa|]; intros [= <- <-].
    + split; [done|]. eexists [_]. split; [done|]. by repeat constructor.
    + split; [done|]. exists []. simpl.
      by rewrite app_nil_r, withCandidates_same.
  - intros [= <- <-]. split; [done|]. exists []. simpl.
    by rewrite app_nil_r, withCandidates_same.
Qed.

Lemma addCoercers_shape cs call call' log :
  addCoercers X cs call = Val (call', log) ->
  log = [] /\
  exists new, call' = withCandidates call (ce_candidates call ++ new) /\
              Forall (coercerCandidate X cs) new.
Proof.
  revert call call' log. induction cs as [|c rest IH]; intros call call' log H.
  - simpl in H. injection H as <- <-. split; [done|]. exists [].
    by rewrite app_nil_r, withCandidates_same.
  - cbn [addCoercers] in H.
    apply w_bind_Val in H as (r & l1 & l2 & Hm & Hk & ->).
    apply addOverload_exprs_shape in Hm as (-> & new1 & Hr & Hnew1).
    apply IH in Hk as (-> & new2 & -> & Hnew2).
    split; [done|]. exists (new1 ++ new2). rewrite Hr. split.
    + unfold withCandidates. simpl. by rewrite app_assoc.
    + apply Forall_app. split.
      * eapply Forall_impl; [exact Hnew1|]. intros cc (Hb & Hc & Hm & Ha).
        split; [done|]. split; [done|]. exists c. split; [by left|done].
      * eapply Forall_impl; [exact Hnew2|]. intros cc (Hb & Hc & f & Hin & Hf).
        split; [done|]. split; [done|]. exists f. split; [by right|done].
Qed.

(** X7: [tryCoerciveCast] writes no diagnostic.  It returns null when the
    target type is not a composite type, has no coercers, cannot be analyzed,
    or none of its coercers takes one positional argument.  A call it returns
    is a [Call] without function expression whose only argument is the input
    expression, whose expected return type is the target type, whose type is
    set, and whose candidates -- at least one, none culled, none with a base
    -- are coercers of the target type. *)
Theorem tryCoerciveCast_result (addr : CallAddr) (in_ : Expr) (toType : Ty)
    (r : option Expr) (log : list Event) :
  tryCoerciveCast X addr in_ toType = Val (r, log) ->
  log = [] /\
  (coercers X toType = [] -> r = None) /\
  (analyzeType X toType Task_PrepConversion = false -> r = None) /\
  forall e, r = Some e ->
    (exists kind name typeArgs, toType = Composite kind name typeArgs) /\
    exists call ty,
      e = CallExpr_expr call /\
      ce_exprType call = Call /\ ce_addr call = addr /\
      ce_function call = None /\
      ce_args call = [in_] /\
      ce_expectedReturnType call = Some toType /\
      ce_type call = Some ty /\
      ce_candidates call <> [] /\
      Forall (coercerCandidate X (coercers X toType)) (ce_candidates call).
Proof.
  unfold tryCoerciveCast. intros H.
  destruct toType as [| kind name typeArgs | | | | | | | | | | | | |];
    try (injection H as <- <-; by repeat split).
  destruct (coercers X (Composite kind name typeArgs)) as [|c0 cs] eqn:Ecs;
    cbn [is_nil negb] in H.
  { injection H as <- <-. by repeat split. }
  destruct (analyzeType X (Composite kind name typeArgs) Task_PrepConversion)
    eqn:Ean; cbn [negb] in H.
  2:{ injection H as <- <-. by repeat split. }
  apply w_bind_Val in H as (call & l1 & l2 & Hadd & H & ->).
  apply addCoercers_shape in Hadd as (-> & new & -> & Hnew).
  simpl in H. simpl in Hnew.
  destruct new as [|cc new].
  { simpl in H. injection H as <- <-. by repeat split. }
  cbn [is_nil app] in H.
  apply w_bind_Val in H as (ty & l3 & l4 & Hty & H & ->).
  apply w_lift_Val in Hty as [Hty ->].
  injection H as <- <-.
  split; [done|]. split; [done|]. split; [done|].
  intros e [= <-]. split; [eauto|].
  eexists _, ty. split; [reflexivity|]. simpl.
  repeat split; try done.
Qed.

End WithExternals.

Import MoreWorlds.

Lemma tryCoerciveCast_result_witness :
  exists call ty,
    tryCoerciveCast coerceWorld 0 expr_x tyString
      = Val (Some (CallExpr_expr call), []) /\
    ce_args call = [expr_x] /\
    ce_expectedReturnType call = Some tyString /\
    ce_type call = Some ty /\
    Forall (coercerCandidate coerceWorld (coercers coerceWorld tyString))
           (ce_candidates call).
Proof.
  destruct (tryCoerciveCast_result coerceWorld 0 expr_x tyString _ _ eq_refl)
    as (_ & _ & _ & H).
  destruct (H _ eq_refl) as (_ & call & ty & He & _ & _ & _ & Ha & Hx & Ht & _ & Hc).
  exists call, ty. rewrite <- He. by repeat split.
Defined.

End CoerceFacts.

Module ConstructFacts.
Import Types CFG Sema Samples CallSpec CallSamples MoreSpec CallFacts ArgListFacts.

Section WithExternals.
Variable X : Externals.

Lemma CallExpr_expr_inj (a b : CallExprR) :
  CallExpr_expr a = CallExpr_expr b -> a = b.
Proof. destruct a, b. unfold CallExpr_expr. simpl. by intros [= -> -> -> -> -> -> ->]. Qed.

Lemma Some_CallExpr_expr_inj (a b : CallExprR) :
  Some (CallExpr_expr a) = Some (CallExpr_expr b) -> a = b.
Proof.
  intros H. apply CallExpr_expr_inj.
  exact (f_equal (fun o => match o with Some e => e | None => ErrorExpr end) H).
Qed.

Lemma addOverload_with call base method args r log :
  addOverload X call base method args = Val (r, log) ->
  log = [] /\ exists l, snd r = withCandidates call l.
Proof. intros H. apply addOverload_Val in H as [-> ->]. eauto. Qed.

Lemma addTemplateConstructors_with methods newExpr call args call' log :
  addTemplateConstructors X methods newExpr call args = Val (call', log) ->
  exists l, call' = withCandidates call l.
Proof.
  revert call log. induction methods as [|d rest IH]; intros call log H.
  - injection H as <- <-. exists (ce_candidates call). by destruct call.
  - cbn [addTemplateConstructors] in H.
    destruct (dyn_cast_FunctionDefn d) as [ctor|]; [|done].
    destruct (analyzeDefn X ctor Task_PrepTypeComparison); [|by eapply IH].
    destruct (fn_functionType ctor) as [ft|]; [|done].
    apply w_bind_Val in H as (u1 & la & lb & _ & H & ->).
    apply w_bind_Val in H as (u2 & lc & ld & _ & H & ->).
    apply w_bind_Val in H as (u3 & le & lf & _ & H & ->).
    apply w_bind_Val in H as (r & lg & lh & Hadd & H & ->).
    apply addOverload_with in Hadd as [_ [l1 Hr]].
    apply IH in H as [l2 ->]. rewrite Hr. by exists l2.
Qed.

Lemma addTemplateCreators_with methods call args call' log :
  addTemplateCreators X methods call args = Val (call', log) ->
  exists l, call' = withCandidates call l.
Proof.
  revert call log. induction methods as [|d rest IH]; intros call log H.
  - injection H as <- <-. exists (ce_candidates call). by destruct call.
  - cbn [addTemplateCreators] in H.
    destruct (dyn_cast_FunctionDefn d) as [create|]; [|done].
    destruct (isStorageStatic create); [|by eapply IH].
    destruct (analyzeDefn X create Task_PrepTypeComparison); [|by eapply IH].
    destruct (fn_functionType create) as [ft|]; [|done].
    apply w_bind_Val in H as (r & lg & lh & Hadd & H & ->).
    apply addOverload_with in Hadd as [_ [l1 Hr]].
    apply IH in H as [l2 ->]. rewrite Hr. by exists l2.
Qed.

Lemma findTemplateConstructors_with ty tdef call args call' methods log :
  findTemplateConstructors X ty tdef call args
    = Val (Constructors_found call' methods, log) ->
  exists l, call' = withCandidates call l.
Proof.
  unfold findTemplateConstructors.
  destruct (lookupTemplateMember X tdef idConstruct) as [found out].
  destruct found.
  - intros H.
    apply w_bind_Val in H as (u & la & lb & _ & H & ->).
    apply w_bind_Val in H as (c & lc & ld & Hadd & H & ->).
    injection H as <- <- <-. by eapply addTemplateConstructors_with.
  - destruct (lookupTemplateMember X tdef idCreate) as [found out'].
    destruct found; [|done]. intros H.
    apply w_bind_Val in H as (u & la & lb & _ & H & ->).
    apply w_bind_Val in H as (c & lc & ld & Hadd & H & ->).
    injection H as <- <- <-. by eapply addTemplateCreators_with.
Qed.

Lemma findConstructors_with ty scope call args call' methods log :
  findConstructors X ty scope call args
    = Val (Constructors_found call' methods, log) ->
  exists l, call' = withCandidates call l.
Proof.
  intros H. apply findConstructors_Val in H as (_ & H1 & H2 & H3 & H4).
  destruct (fst (lookupMember X scope idConstruct false)).
  { destruct (H1 eq_refl) as (fs & _ & [= -> _]). eauto. }
  destruct (fst (lookupMember X scope idCreate false)).
  { destruct (H2 eq_refl eq_refl) as (fs & _ & [= -> _]). eauto. }
  destruct (fst (lookupMember X scope idConstruct true)).
  { destruct (H3 eq_refl eq_refl eq_refl) as (fs & _ & [= -> _]). eauto. }
  discriminate (H4 eq_refl eq_refl eq_refl).
Qed.

Lemma callConstructor_call (addr : CallAddr) (tdef : TypeDefn)
    (args : list ASTNode) (r : option Expr) (log : list Event) :
  callConstructor X addr tdef args = Val (r, log) ->
  (exists rest, log = accessEvents tdef ++ rest) /\
  forall call, r = Some (CallExpr_expr call) ->
    log = accessEvents tdef /\
    ce_exprType call = Construct /\ ce_addr call = addr /\
    ce_function call = Some (asExpr X tdef) /\
    ce_expectedReturnType call = Some (td_typeValue tdef) /\
    hasAnyCandidates call = true /\
    ce_args call = reducedArgs X call 0 args /\
    noError (ce_args call) = true /\
    length (ce_args call) = length args.
Proof.
  unfold callConstructor. intros H.
  apply w_bind_Val in H as (u1 & la & lb & Hm1 & H & ->).
  injection Hm1 as _ <-.
  apply w_bind_Val in H as (u2 & lc & ld & Hm2 & H & ->).
  assert (Hlc : [CheckAccess tdef] ++ lc = accessEvents tdef).
  { unfold accessEvents.
    destruct (negb (td_isTemplate tdef) && negb (td_isTemplateMember tdef));
      by injection Hm2 as _ <-. }
  clear Hm2. rewrite app_assoc, Hlc. split; [eauto|].
  intros call Hr.
  destruct (analyzeType X (td_typeValue tdef) Task_PrepConstruction);
    cbn [negb] in H.
  2:{ injection H as <- <-. discriminate Hr. }
  apply w_bind_Val in H as (search & le & lf & Hm3 & H & ->).
  destruct search as [call1 methods|].
  2:{ simpl in H. injection H as <- <-. discriminate Hr. }
  assert (le = [] /\ exists l, call1 =
            withCandidates (setExpectedReturnType
                              (CallExpr_new Construct addr (Some (asExpr X tdef)))
                              (Some (td_typeValue tdef))) l) as [-> [l ->]].
  { destruct (td_isTemplate tdef).
    - split; [by apply findTemplateConstructors_log in Hm3|].
      by eapply findTemplateConstructors_with.
    - destruct (memberScope X (td_typeValue tdef)); [|done]. split.
      + by apply findConstructors_Val in Hm3 as [-> _].
      + by eapply findConstructors_with. }
  clear Hm3. cbn beta iota in H.
  destruct (hasAnyCandidates _) eqn:Hany; cbn [negb] in H.
  2:{ apply w_bind_Val in H as (u & lg & lh & _ & H & ->).
      injection H as <- <-. discriminate Hr. }
  rewrite reduceArgList_eq in H.
  set (c1 := withCandidates _ l) in *.
  destruct (noError (reducedArgs X c1 0 args)) eqn:Hok; cbn [negb] in H.
  2:{ injection H as <- <-. discriminate Hr. }
  apply w_bind_Val in H as (ty & lg & lh & Hty & H & ->).
  apply w_lift_Val in Hty as [Hty ->]. injection H as <- <-.
  assert (Hc : setType (withArgs c1 (ce_args c1 ++ untilError (reducedArgs X c1 0 args)))
                      (Some ty) = call)
    by (by apply Some_CallExpr_expr_inj).
  clear Hr. subst call.
  rewrite !app_nil_r. split; [done|].
  assert (Hu := untilError_noError _ Hok).
  simpl. rewrite Hu. repeat split; try done.
  - by apply reducedArgs_ext.
  - apply reducedArgs_length.
Qed.

(** X8: [callConstructor] first checks access to the type and, unless the
    type is a template or a member of one, enters it in the module's symbols;
    it does so also when it then fails.  When it returns a call it has
    written no diagnostic, and the call is a [Construct] call on the type's
    expression, expects the type as its result, has at least one candidate
    that is not culled, and has one reduced argument for each argument given,
    none of them an error. *)
Theorem callConstructor_effects_and_call (addr : CallAddr) (tdef : TypeDefn)
    (args : list ASTNode) (r : option Expr) (log : list Event) :
  callConstructor X addr tdef args = Val (r, log) ->
  (exists rest, log = accessEvents tdef ++ rest) /\
  forall call, r = Some (CallExpr_expr call) ->
    log = accessEvents tdef /\
    ce_exprType call = Construct /\ ce_addr call = addr /\
    ce_function call = Some (asExpr X tdef) /\
    ce_expectedReturnType call = Some (td_typeValue tdef) /\
    hasAnyCandidates call = true /\
    ce_args call = reducedArgs X call 0 args /\
    noError (ce_args call) = true /\
    length (ce_args call) = length args.
Proof. apply callConstructor_call. Qed.

End WithExternals.

Import MoreWorlds.

Lemma callConstructor_effects_and_call_witness :
  exists call,
    callConstructor stringWorld 0 tdefString [ASTLiteral 1]
      = Val (Some (CallExpr_expr call),
             [CheckAccess tdefString; Module_addSymbol tdefString]) /\
    ce_exprType call = Construct /\
    hasAnyCandidates call = true /\
    length (ce_args call) = 1.
Proof.
  destruct (callConstructor_effects_and_call stringWorld 0 tdefString
              [ASTLiteral 1] _ _ eq_refl) as [_ H].
  eexists (mkCallExpr _ _ _ _ _ _ _). split; [reflexivity|].
  destruct (H _ eq_refl) as (_ & Hk & _ & _ & _ & Hany & _ & _ & Hlen).
  by repeat split.
Defined.

End ConstructFacts.

Module CallNameFacts.
Import Types CFG Sema Samples CallSpec CallSamples MoreSpec CallFacts ArgListFacts ConstructFacts.

Section WithExternals.
Variable X : Externals.

Lemma addOverload_fnType_with call fn ft args r log :
  addOverload_fnType X call fn ft args = Val (r, log) ->
  exists l, snd r = withCandidates call l.
Proof.
  unfold addOverload_fnType.
  destruct (assignFromAST X ft args); intros [= <- <-]; simpl.
  - by eexists.
  - exists (ce_candidates call). by destruct call.
Qed.

Lemma gatherOverloads_with results args success call success' call' log :
  gatherOverloads X results args success call
    = Val (Gather_done success' call', log) ->
  exists l, call' = withCandidates call l.
Proof.
  revert success call log.
  induction results as [|r rest IH]; intros success call log H.
  - injection H as <- <- <-. exists (ce_candidates call). by destruct call.
  - cbn [gatherOverloads] in H.
    destruct r as [| | | | |ty base [func|var]| | | | | | | | |]; try done.
    + apply w_bind_Val in H as (ok & la & lb & Hadd & H & ->).
      apply addOverload_with in Hadd as [_ [l1 Hr]].
      apply IH in H as [l2 ->]. rewrite Hr. by exists l2.
    + destruct (analyzeValueDefn X (VVariable var) Task_PrepTypeComparison);
        [|done]. cbn [negb] in H.
      destruct (var_type var) as [vty|]; [|done].
      destruct (dyn_cast_FunctionType vty) as [ft|].
      * apply w_bind_Val in H as (ok & la & lb & Hadd & H & ->).
        apply addOverload_fnType_with in Hadd as [l1 Hr].
        apply IH in H as [l2 ->]. rewrite Hr. by exists l2.
      * destruct (dyn_cast_BoundMethodType vty) as [fnTy|]; [|by eapply IH].
        destruct (dyn_cast_FunctionType fnTy) as [ft|]; [|done].
        apply w_bind_Val in H as (ok & la & lb & Hadd & H & ->).
        apply addOverload_fnType_with in Hadd as [l1 Hr].
        apply IH in H as [l2 ->]. rewrite Hr. by exists l2.
Qed.

Lemma callName_adl_with callable args call call' log :
  callName_adl X callable args call = Val (call', log) ->
  log = [] /\ exists l, call' = withCandidates call l.
Proof.
  unfold callName_adl.
  assert (Hsame : Val (call, []) = Val (call', log) ->
                  log = [] /\ exists l, call' = withCandidates call l).
  { intros [= <- <-]. split; [done|]. exists (ce_candidates call). by destruct call. }
  destruct callable as [name| | | |]; try exact Hsame.
  destruct args as [|a args]; [exact Hsame|].
  unfold lookupByArgType. intros H.
  apply lookupByArgType_add_Val in H as [-> ->]. eauto.
Qed.

Lemma Val_Some_call_inj (a b : CallExprR) (l1 l2 : list Event) :
  @Val (option Expr * list Event) (Some (CallExpr_expr a), l1)
    = Val (Some (CallExpr_expr b), l2) ->
  a = b /\ l1 = l2.
Proof.
  intros H. split.
  - apply Some_CallExpr_expr_inj.
    exact (f_equal (fun r => match r with Val (e, _) => e | Fault _ => None end) H).
  - exact (f_equal (fun r => match r with Val (_, l) => l | Fault _ => [] end) H).
Qed.

Lemma callName_finish_call callable results expected success call call' log :
  callName_finish callable results expected success call
    = Val (Some (CallExpr_expr call'), log) ->
  log = [] /\ ce_candidates call <> [] /\
  exists ty, call' = setType call (Some ty).
Proof.
  unfold callName_finish.
  destruct success; cbn [negb]; [|done].
  destruct results as [|r results]; cbn [is_nil]; [done|].
  destruct (ce_candidates call) as [|cc cands] eqn:Ec; cbn [is_nil]; [done|].
  intros H. apply w_bind_Val in H as (ty & la & lb & Hty & H & ->).
  apply w_lift_Val in Hty as [_ ->].
  apply Val_Some_call_inj in H as [<- <-]. eauto.
Qed.

(** What [callName] holds when it has gathered the candidates. *)
Lemma callName_resolve_shape addr callable args expected isOptional res log :
  callName_resolve X addr callable args expected isOptional = Val (res, log) ->
  match res with
  | Resolved_return p =>
      forall call, p = Some (CallExpr_expr call) ->
        exists ty tdef types,
          getTypesFromExprs X (lookupName X callable) = (true, ty :: types) /\
          typeDefn X ty = Some tdef /\
          callConstructor X addr tdef args = Val (p, log)
  | Resolved_call results success call =>
      log = [] /\
      exists l gathered,
        call = withCandidates
                 (withArgs gathered (reducedArgs X gathered 0 args)) l /\
        noError (reducedArgs X gathered 0 args) = true /\
        ce_exprType gathered = Call /\ ce_addr gathered = addr /\
        ce_function gathered = None /\
        ce_expectedReturnType gathered = expected
  end.
Proof.
  unfold callName_resolve. intros Hres.
  remember (match nodeType callable with Id => true | _ => false end)
    as isUnqualified eqn:Hu.
  assert (Hnt : match nodeType callable with
                | Id | Member | Specialize => True | _ => False end)
    by (destruct (nodeType callable); done).
  assert (Hres' :
    (if is_nil (lookupName X callable) && negb isUnqualified
     then if isOptional then w_ret (Resolved_return None)
          else do* _ := w_tell [Error_UndefinedMethod callable;
                                WriteLn_ScopesSearched; DumpScopeHierarchy] in
               w_ret (Resolved_return (Some ErrorVal))
     else
       let '(areTypes, typeList) :=
         if negb (is_nil (lookupName X callable))
         then getTypesFromExprs X (lookupName X callable) else (false, []) in
       if areTypes then
         if (1 <? length typeList)%nat then
           do* _ := w_tell [Error_MultipleDefinitions callable] in
           w_ret (Resolved_return (Some ErrorVal))
         else
           match typeList with
           | [] => Fault NullDeref
           | ty :: _ =>
               match typeDefn X ty with
               | None => do* _ := w_tell [Error_NotConstructable ty] in
                         w_ret (Resolved_return (Some ErrorVal))
               | Some tdef => do* p := callConstructor X addr tdef args in
                              w_ret (Resolved_return p)
               end
           end
       else
         let call := CallExpr_new Call addr None in
         let call := setExpectedReturnType call expected in
         do* g := gatherOverloads X (lookupName X callable) args true call in
         match g with
         | Gather_return p => w_ret (Resolved_return p)
         | Gather_done success call =>
             let '(ok, call) := reduceArgList X args call in
             if negb ok then w_ret (Resolved_return (Some ErrorVal))
             else
               do* call := (if isUnqualified then callName_adl X callable args call
                            else w_ret call) in
               w_ret (Resolved_call (lookupName X callable) success call)
         end) = Val (res, log)).
  { destruct (nodeType callable); done. }
  clear Hres Hnt. rename Hres' into H.
  destruct (is_nil (lookupName X callable) && negb isUnqualified).
  { destruct isOptional.
    - injection H as <- <-. by intros call [=].
    - apply w_bind_Val in H as (u & la & lb & _ & H & ->).
      injection H as <- <-. by intros call [=]. }
  destruct (is_nil (lookupName X callable)) eqn:Hnil; cbn [negb] in H.
  - (* nothing found by an unqualified name *)
    cbn beta iota in H.
    apply w_bind_Val in H as (g & lc & ld & Hg & H & ->).
    destruct (lookupName X callable); [|done]. simpl in Hg.
    injection Hg as <- <-. rewrite reduceArgList_eq in H.
    set (c0 := setExpectedReturnType (CallExpr_new Call addr None) expected) in *.
    destruct (noError (reducedArgs X c0 0 args)) eqn:Hok; cbn [negb] in H.
    2:{ injection H as <- <-. by intros call [=]. }
    rewrite untilError_noError in H by done.
    apply w_bind_Val in H as (call2 & le & lf & Hadl & H & ->).
    injection H as <- <-.
    assert (le = [] /\ exists l2, call2 =
              withCandidates (withArgs c0 (ce_args c0 ++ reducedArgs X c0 0 args)) l2)
      as [-> [l2 ->]].
    { destruct isUnqualified.
      - by apply callName_adl_with in Hadl.
      - injection Hadl as <- <-. split; [done|]. by eexists. }
    split; [done|]. exists l2, c0. by repeat split.
  - destruct (getTypesFromExprs X (lookupName X callable))
      as [areTypes typeList] eqn:Htypes.
    destruct areTypes.
    + destruct (1 <? length typeList)%nat.
      { apply w_bind_Val in H as (u & la & lb & _ & H & ->).
        injection H as <- <-. by intros call [=]. }
      destruct typeList as [|ty types]; [done|].
      destruct (typeDefn X ty) as [tdef|] eqn:Htd.
      2:{ apply w_bind_Val in H as (u & la & lb & _ & H & ->).
          injection H as <- <-. by intros call [=]. }
      apply w_bind_Val in H as (p & lc & ld & Hcons & H & ->).
      injection H as <- <-. rewrite app_nil_r.
      intros call ->. by exists ty, tdef, types.
    + cbn beta iota in H.
      apply w_bind_Val in H as (g & lc & ld & Hg & H & ->).
      pose proof (gatherOverloads_Val _ _ _ _ _ _ _ Hg) as [-> Hgs].
      destruct g as [success gathered|p].
      2:{ injection H as <- <-. destruct Hgs as [-> _]. by intros call [=]. }
      apply gatherOverloads_with in Hg as [l1 ->].
      rewrite reduceArgList_eq in H.
      set (c0 := withCandidates
                   (setExpectedReturnType (CallExpr_new Call addr None) expected) l1) in *.
      destruct (noError (reducedArgs X c0 0 args)) eqn:Hok; cbn [negb] in H.
      2:{ injection H as <- <-. by intros call [=]. }
      rewrite untilError_noError in H by done.
      apply w_bind_Val in H as (call2 & le & lf & Hadl & H & ->).
      injection H as <- <-.
      assert (le = [] /\ exists l2, call2 =
                withCandidates (withArgs c0 (ce_args c0 ++ reducedArgs X c0 0 args)) l2)
        as [-> [l2 ->]].
      { destruct isUnqualified.
        - by apply callName_adl_with in Hadl.
        - injection Hadl as <- <-. split; [done|]. by eexists. }
      split; [done|]. exists l2, c0. by repeat split.
Qed.

(** X9: a call that [callName] returns has one reduced argument for each
    argument given, none of them an error, and at least one candidate.
    Either it is a [Call] without function expression that expects the type
    the caller expected, and then nothing at all was written to the log; or
    the name denoted a single type with a definition, and the call is the
    [Construct] call of [callConstructor] on that type, the log holding the
    access check alone. *)
Theorem callName_call_shape (addr : CallAddr) (callable : ASTNode)
    (args : list ASTNode) (expected : option Ty) (isOptional : bool)
    (call : CallExprR) (log : list Event) :
  callName X addr callable args expected isOptional
    = Val (Some (CallExpr_expr call), log) ->
  ce_addr call = addr /\
  ce_candidates call <> [] /\
  noError (ce_args call) = true /\
  length (ce_args call) = length args /\
  ((ce_exprType call = Call /\ ce_function call = None /\
    ce_expectedReturnType call = expected /\ log = []) \/
   (exists ty tdef types,
      getTypesFromExprs X (lookupName X callable) = (true, ty :: types) /\
      typeDefn X ty = Some tdef /\
      ce_exprType call = Construct /\
      ce_function call = Some (asExpr X tdef) /\
      ce_expectedReturnType call = Some (td_typeValue tdef) /\
      log = accessEvents tdef)).
Proof.
  unfold callName. intros H.
  apply w_bind_Val in H as (res & la & lb & Hres & H & ->).
  apply callName_resolve_shape in Hres.
  destruct res as [p|results success call1].
  - injection H as -> <-. rewrite app_nil_r.
    destruct (Hres call eq_refl) as (ty & tdef & types & Htypes & Htd & Hcons).
    destruct (callConstructor_call X _ _ _ _ _ Hcons) as [_ Hcall].
    destruct (Hcall call eq_refl)
      as (-> & Hk & Ha & Hf & He & Hany & Hargs & Hok & Hlen).
    split; [done|]. split.
    { intros Hnil. unfold hasAnyCandidates in Hany. by rewrite Hnil in Hany. }
    split; [done|]. split; [done|]. right. by exists ty, tdef, types.
  - destruct Hres as (-> & l & gathered & -> & Hok & Hk & Ha & Hf & He).
    apply callName_finish_call in H as (-> & Hne & ty & ->).
    simpl in *. rewrite reducedArgs_length.
    repeat split; try done. by left.
Qed.

End WithExternals.

Import MoreWorlds.

Lemma callName_call_shape_witness :
  exists call,
    callName printWorld 0 (ASTIdent "print") [ASTIdent "x"] None false
      = Val (Some (CallExpr_expr call), []) /\
    ce_candidates call <> [] /\
    length (ce_args call) = 1 /\
    ce_exprType call = Call.
Proof.
  eexists (mkCallExpr _ _ _ _ _ _ _). split; [reflexivity|].
  match goal with |- context [ce_candidates ?c] =>
    destruct (callName_call_shape printWorld 0 (ASTIdent "print")
                [ASTIdent "x"] None false c [] eq_refl)
      as (_ & Hne & _ & Hlen & _) end.
  split; [exact Hne|]. split; [exact Hlen|]. reflexivity.
Defined.

End CallNameFacts.

Module CallExprFacts.
Import Types CFG Sema Samples CallSpec CallSamples MoreSpec SemaExpr.
Import CallFacts ArgListFacts ConstructFacts.

Section WithExternals.
Variable X : Externals.
Variable typeLiteralValue : Expr -> option Ty.

Lemma w_events_Val {A} (m : W A) (a : A) (log : list ExprEvent) :
  w_events m = Val (a, log) -> exists l, m = Val (a, l) /\ log = map Analysis l.
Proof.
  unfold w_events. destruct m as [[a' l]|k]; [|done]. intros [= <- <-]. eauto.
Qed.

(** X10: [callExpr] never returns a null pointer.  An expression that is
    already an error result comes back as it is, and nothing is written;
    otherwise the result is [ErrorVal] or a call whose type has been set. *)
Theorem callExpr_returns_expression (addr : CallAddr) (func : Expr)
    (args : list ASTNode) (expected : option Ty)
    (r : option Expr) (log : list ExprEvent) :
  callExpr X typeLiteralValue addr func args expected = Val (r, log) ->
  exists e, r = Some e /\
    if isErrorResult func then e = func /\ log = []
    else errorOrTypedCall e.
Proof.
  unfold callExpr. destruct (isErrorResult func).
  { intros [= <- <-]. eauto. }
  destruct (typeLiteralValue func) as [value|].
  { destruct (typeDefn X value) as [tdef|]; [|done]. intros H.
    apply w_events_Val in H as (l & H & ->).
    by apply callConstructor_Val in H as [_ H]. }
  destruct func as [| | | | |ty base [f|v]| | | | | | | | |]; try done.
  - intros H. apply w_bind_Val in H as (ok & la & lb & Hadd & H & ->).
    destruct (reduceArgList X args (snd ok)) as [okArgs call].
    destruct okArgs; cbn [negb] in H.
    + apply w_bind_Val in H as (t & lc & ld & Hty & H & ->).
      apply w_lift_Val in Hty as [Hty ->]. injection H as <- <-.
      eexists. split; [done|]. right. by eexists _, t.
    + injection H as <- <-. eexists. split; [done|]. by left.
  - intros H. apply w_bind_Val in H as (u & la & lb & _ & H & ->).
    injection H as <- <-. eexists. split; [done|]. by left.
Qed.

(** X11: [callExpr] on an lvalue that names a function does not look at what
    [addOverload] returns, nor at the candidate list.  When the function
    cannot be analyzed, or the arguments do not map onto its parameters, and
    the arguments reduce without error, it returns -- without a diagnostic --
    a call that has no candidate, whose arguments were reduced against
    [ParameterOfConstraint] types, and whose type is the constraint
    [ResultOfConstraint] over the call itself; the call is not singular. *)
Theorem callExpr_call_without_candidates (addr : CallAddr) (ty : Ty)
    (base : option Expr) (f : FunctionDefn) (args : list ASTNode)
    (expected : option Ty) :
  let func := LValueExpr ty base (VFunction f) in
  let call0 := setExpectedReturnType (CallExpr_new Call addr None) expected in
  isErrorResult func = false ->
  typeLiteralValue func = None ->
  (analyzeValueDefn X (VFunction f) Task_PrepConversion = false \/
   exists ft, fn_functionType f = Some ft /\ assignFromAST X ft args = None) ->
  noError (reducedArgs X call0 0 args) = true ->
  let call := setType (withArgs call0 (reducedArgs X call0 0 args))
                      (Some (ResultOfConstraint addr)) in
  callExpr X typeLiteralValue addr func args expected
    = Val (Some (CallExpr_expr call), []) /\
  ce_candidates call = [] /\
  isSingular (CallExpr_expr call) = false /\
  forall i a, args !! i = Some a ->
    ce_args call !! i =
      Some (reduceExpr X (argNode a) (ParameterOfConstraint addr i)).
Proof.
  intros func call0 Herr Hlit Hrej Hok call.
  assert (Hadd : addOverload X call0 (lvalueBase X func) f args
                 = Val ((match analyzeValueDefn X (VFunction f) Task_PrepConversion
                         with true => true | false => false end, call0), [])).
  { unfold addOverload. destruct Hrej as [->|(ft & Hft & Hpa)]; [done|].
    destruct (analyzeValueDefn X (VFunction f) Task_PrepConversion); [|done].
    simpl. by rewrite Hft, Hpa. }
  split; [|split; [done|split]].
  - unfold callExpr. fold func. rewrite Herr, Hlit. unfold func at 1.
    fold call0. rewrite Hadd. simpl. rewrite reduceArgList_eq.
    rewrite Hok, untilError_noError by done. simpl. done.
  - unfold call. simpl.
    by destruct (ArglistExpr_isSingular isSingular (reducedArgs X call0 0 args)).
  - intros i a Ha. unfold call. simpl.
    assert (Hgen : forall k l j b, l !! j = Some b ->
              reducedArgs X call0 k l !! j =
              Some (reduceExpr X (argNode b) (ParameterOfConstraint addr (k + j)))).
    { clear. intros k l. revert k. induction l as [|x rest IH]; intros k j b Hb.
      - done.
      - destruct j as [|j]; simpl in *.
        + injection Hb as ->. by rewrite Nat.add_0_r.
        + rewrite (IH (S k) j b Hb). do 3 f_equal. lia. }
    by apply (Hgen 0).
Qed.

End WithExternals.

Import MoreWorlds.

Lemma callExpr_returns_expression_witness :
  (exists e, Some ErrorVal = Some e /\
     if isErrorResult ErrorVal then e = ErrorVal /\ @nil ExprEvent = [] 
     else errorOrTypedCall e) /\
  exists r log,
    callExpr printWorld typeLiteralOf 0 lvalue_printInt [ASTIdent "x"] None
      = Val (r, log) /\
    exists e, r = Some e /\ errorOrTypedCall e.
Proof.
  split.
  - exact (callExpr_returns_expression printWorld typeLiteralOf 0 ErrorVal
             [ASTIdent "x"] None (Some ErrorVal) [] eq_refl).
  - eexists _, _. split; [vm_compute; reflexivity|].
    exact (callExpr_returns_expression printWorld typeLiteralOf 0
             lvalue_printInt [ASTIdent "x"] None _ _ eq_refl).
Defined.

Lemma callExpr_call_without_candidates_witness :
  exists call,
    callExpr baseExternals typeLiteralOf 0 lvalue_print2 [ASTIdent "x"] None
      = Val (Some (CallExpr_expr call), []) /\
    ce_candidates call = [] /\
    ce_type call = Some (ResultOfConstraint 0) /\
    isSingular (CallExpr_expr call) = false.
Proof.
  destruct (callExpr_call_without_candidates baseExternals typeLiteralOf 0
              (FunctionTy None ["x"; "y"] [tyFoo; tyFoo] (Some tyVoid)) None
              fn_print2 [ASTIdent "x"] None eq_refl eq_refl
              (or_intror (ex_intro _ fnType_print2 (conj eq_refl eq_refl)))
              eq_refl)
    as (Hrun & Hc & Hs & _).
  eexists (mkCallExpr _ _ _ _ _ _ _). split; [exact Hrun|]. by repeat split.
Defined.

End CallExprFacts.

Module GCMoreFacts.
Import GC GCSamples GCFacts GCLife.

(** What one [sweep()] does to a well-formed allocation list. *)
Lemma sweep_Val (st : GCState) (l : list (Addr * bool)) :
  holds st l ->
  exists st1,
    sweep st = Val (st1, if Nat.eqb (debugLevel st) 0 then []
                         else [Info_GC 0 0]) /\
    holds st1 (List.filter isMarked l) /\
    (forall a, (a, false) ∈ l -> heap st1 !! a = None) /\
    (forall a, a ∉ l.*1 -> heap st1 !! a = heap st !! a) /\
    reclaimed st1 = 0%Z /\ total st1 = 0%Z /\ debugLevel st1 = debugLevel st.
Proof.
  intros Hholds. pose proof (holds_size _ _ Hholds) as Hsize.
  destruct Hholds as [Hl Hnd].
  set (st0 := mkGCState (heap st) (allocList_ st) 0 0 (debugLevel st)).
  destruct (sweep_loop_spec l (S (size (heap st0))) st0 Link_allocList
              (allocList_ st)) as
    (st1 & p' & Hrun & Hload' & Hl' & Hfreed & Hframe & _ & Hr & Ht & Hd);
    try done.
  { simpl. lia. }
  simpl in Hload'. injection Hload' as Hp'. subst p'.
  simpl in Hr, Ht, Hd. exists st1.
  split.
  { unfold sweep. fold st0. rewrite Hrun. simpl. rewrite Hd, Hr, Ht.
    by destruct (Nat.eqb (debugLevel st) 0). }
  split; [split; [done|by apply filter_isMarked_NoDup]|].
  split; [done|]. split; [|done].
  intros a Ha. by apply Hframe.
Qed.

(** X12: [sweep()] sets the counters [reclaimed] and [total] to zero and
    never counts: whatever it frees, both are zero when it returns, and with
    a debug level other than zero its one diagnostic reports 0 objects
    reclaimed and 0 in use. *)
Theorem sweep_counts_nothing (st : GCState) (l : list (Addr * bool)) :
  holds st l ->
  exists st1,
    sweep st = Val (st1, if Nat.eqb (debugLevel st) 0 then []
                         else [Info_GC 0 0]) /\
    reclaimed st1 = 0%Z /\ total st1 = 0%Z /\ debugLevel st1 = debugLevel st.
Proof.
  intros H. destruct (sweep_Val st l H) as (st1 & Hs & _ & _ & _ & Hc).
  by exists st1.
Qed.

(** X13: [sweep()] touches nothing but the objects of the allocation list:
    what else the heap holds is the same when it returns. *)
Theorem sweep_leaves_other_objects (st st1 : GCState) (l : list (Addr * bool))
    (d : list GCDiag) :
  holds st l -> sweep st = Val (st1, d) ->
  forall a, a ∉ l.*1 -> heap st1 !! a = heap st !! a.
Proof.
  intros H Hs. destruct (sweep_Val st l H) as (st1' & Hs' & _ & _ & Hframe & _).
  rewrite Hs in Hs'. by injection Hs' as <- _.
Qed.

Lemma linked_remark h p l gc marked o :
  linked h p l -> h !! gc = Some o ->
  linked (<[gc := mkGC marked (next_ o)]> h) p (remark gc marked l).
Proof.
  revert p. induction l as [|[a m] rest IH]; intros p; simpl; [done|].
  intros [-> [n [Ha Hrest]]] Hgc. destruct (Nat.eqb_spec a gc) as [->|Hne].
  - split; [done|]. exists n. rewrite lookup_insert_eq.
    rewrite Ha in Hgc. injection Hgc as <-. simpl. split; [done|]. by apply IH.
  - split; [done|]. exists n. rewrite lookup_insert_ne by done.
    split; [done|]. by apply IH.
Qed.

Lemma remark_fst gc marked l : (remark gc marked l).*1 = l.*1.
Proof.
  unfold remark. induction l as [|[a m] rest IH]; [done|].
  cbn [map]. rewrite !fmap_cons, IH. cbn [fst]. by destruct (Nat.eqb a gc).
Qed.

Lemma reachable_wellFormed (st : GCState) :
  reachable st -> exists l, wellFormed st l.
Proof.
  induction 1 as [level | st gc marked Hr [l [[Hl Hnd] Hdom]] Hfresh
                 | st gc marked Hr [l [[Hl Hnd] Hdom]]
                 | st st' d Hr [l [Hh Hdom]] Hs].
  - exists []. split; [split; [done|constructor]|].
    intros a. simpl. rewrite lookup_empty. split; [set_solver|by intros [? ?]].
  - assert (Hnin : gc ∉ l.*1).
    { intros Hin. apply Hdom in Hin as [o Ho]. congruence. }
    exists ((gc, marked) :: l). split; [split|].
    + simpl. split; [done|]. exists (allocList_ st).
      rewrite lookup_insert_eq. split; [done|].
      eapply linked_frame; [exact Hl|]. intros a Ha.
      apply lookup_insert_ne. set_solver.
    + simpl. by constructor.
    + intros a. simpl. rewrite elem_of_cons, Hdom.
      destruct (decide (a = gc)) as [->|Hne].
      * rewrite lookup_insert_eq. split; [eauto|by left].
      * rewrite lookup_insert_ne by done. split; [by intros [?|?]|by right].
  - unfold setMarked. destruct (heap st !! gc) as [o|] eqn:Hgc.
    2:{ exists l. split; [by split|done]. }
    exists (remark gc marked l). split; [split|].
    + simpl. by apply linked_remark.
    + by rewrite remark_fst.
    + intros a. simpl. rewrite remark_fst, Hdom.
      destruct (decide (a = gc)) as [->|Hne].
      * rewrite lookup_insert_eq, Hgc. split; eauto.
      * by rewrite lookup_insert_ne.
  - destruct (sweep_Val st l Hh) as (st1 & Hs' & Hh1 & Hfreed & Hframe & _).
    rewrite Hs in Hs'. injection Hs' as <- _.
    exists (List.filter isMarked l). split; [done|].
    intros a. split.
    + intros Hin. apply list_elem_of_fmap in Hin as [[a' m] [-> Hin]].
      destruct Hh1 as [Hl1 _].
      destruct (linked_lookup _ _ _ _ _ Hl1 Hin) as [n Hn]. simpl. eauto.
    + intros Hsome. destruct (decide (a ∈ l.*1)) as [Hin|Hnin].
      * apply list_elem_of_fmap in Hin as [[a' m] [Ha Hin]]. simpl in Ha.
        subst a'. destruct m.
        -- apply list_elem_of_fmap. exists (a, true). split; [done|].
           by apply filter_isMarked_true.
        -- rewrite (Hfreed a Hin) in Hsome. by destruct Hsome.
      * rewrite (Hframe a Hnin) in Hsome. by apply Hdom in Hsome.
Qed.

(** X14: in every state the collector can reach from the empty heap by
    allocating, marking and sweeping, the allocation list is a chain of
    distinct objects that ends in a null link and holds every object of the
    heap; [sweep()] on such a state returns, without touching freed
    memory. *)
Theorem reachable_states_sweep (st : GCState) :
  reachable st ->
  (exists l, holds st l /\ forall a, a ∈ l.*1 <-> is_Some (heap st !! a)) /\
  exists st1 d, sweep st = Val (st1, d) /\ reachable st1.
Proof.
  intros Hr. destruct (reachable_wellFormed st Hr) as [l [Hh Hdom]].
  split; [by exists l|].
  destruct (sweep_Val st l Hh) as (st1 & Hs & _).
  eexists st1, _. split; [exact Hs|]. by eapply reachable_sweep.
Qed.

(** X15: the heap-walk callback that [sweep()] no longer uses clears the mark
    of an object it keeps.  A marked object survives one call and is
    reclaimed by the next; every call increments [total], and the call that
    reclaims the object also [reclaimed].  The counters are [size_t]s: an
    increment of the largest value gives zero. *)
Theorem sweepCallback_two_passes (st : GCState) (alloc : Addr)
    (n : option Addr) :
  heap st !! alloc = Some (mkGC true n) ->
  exists st1 st2,
    sweepCallback st alloc = Val (st1, false) /\
    heap st1 !! alloc = Some (mkGC false n) /\
    total st1 = size_t_incr (total st) /\ reclaimed st1 = reclaimed st /\
    sweepCallback st1 alloc = Val (st2, true) /\
    heap st2 = heap st1 /\
    total st2 = size_t_incr (size_t_incr (total st)) /\
    reclaimed st2 = size_t_incr (reclaimed st) /\
    (total st = (2 ^ size_t_bits - 1)%Z -> total st1 = 0%Z /\ total st2 = 1%Z) /\
    ((0 <= total st < 2 ^ size_t_bits - 1)%Z -> total st1 = (total st + 1)%Z).
Proof.
  intros Ha. unfold sweepCallback. simpl. rewrite Ha. simpl.
  eexists _, _. split; [reflexivity|]. simpl.
  rewrite lookup_insert_eq. simpl.
  split; [done|]. split; [done|]. split; [done|]. split; [done|].
  split; [done|]. split; [done|]. split; [done|]. split.
  - intros ->. by vm_compute.
  - intros Hrange. unfold size_t_incr, size_t_wrap.
    apply Z.mod_small. lia.
Qed.

Lemma callAll_Val (cbs : list Callback) : callAll cbs = Val (tt, cbs).
Proof.
  induction cbs as [|cb rest IH]; [done|]. simpl. by rewrite IH.
Qed.

(** X16: [uninit()] calls the registered callbacks once each, in the order
    of their registration, and forgets them, so that a second round of
    [init()] and [uninit()] calls none.  [init()] on an initialized
    collector, [uninit()] and [operator new] on one that is not, fail their
    assertion; callbacks can be registered in either state. *)
Theorem uninit_calls_callbacks_once (s : Statics) (cbs : list Callback) :
  initialized s = false ->
  let registered := foldl registerUninitCallback s cbs in
  let s1 := mkStatics true (uninitCallbacks s ++ cbs) in
  let s2 := mkStatics false [] in
  let s3 := mkStatics true [] in
  init registered = Val s1 /\
  uninit s1 = Val (s2, uninitCallbacks s ++ cbs) /\
  init s2 = Val s3 /\ uninit s3 = Val (s2, []) /\
  init s1 = Fault AssertionFailed /\
  uninit s2 = Fault AssertionFailed /\
  (forall st gc marked,
      GC_operator_new s2 st gc marked = Fault AssertionFailed /\
      GC_operator_new s1 st gc marked = Val (operator_new st gc marked)).
Proof.
  intros Hs registered s1 s2 s3.
  assert (Hreg : forall l s0, foldl registerUninitCallback s0 l =
            mkStatics (initialized s0) (uninitCallbacks s0 ++ l)).
  { induction l as [|cb rest IH]; intros s0; simpl.
    - rewrite app_nil_r. by destruct s0.
    - rewrite IH. simpl. by rewrite <- app_assoc. }
  unfold registered. rewrite Hreg, Hs.
  split; [done|].
  split.
  { unfold uninit. simpl. rewrite callAll_Val. simpl. by rewrite app_nil_r. }
  by repeat split.
Qed.

Import MoreWorlds.

Lemma sampleList_linked (h : gmap Addr GCObject) :
  h !! 3 = Some (mkGC true (Some 2)) -> h !! 2 = Some (mkGC false (Some 1)) ->
  h !! 1 = Some (mkGC true None) ->
  linked h (Some 3) sampleList /\ NoDup (sampleList.*1).
Proof.
  intros H3 H2 H1. split.
  - simpl. split; [done|]. exists (Some 2). split; [done|].
    split; [done|]. exists (Some 1). split; [done|].
    split; [done|]. exists None. by split.
  - simpl. repeat constructor; set_solver.
Qed.

Lemma stateWithOther_holds : holds stateWithOther sampleList.
Proof. by apply sampleList_linked. Qed.

Lemma sweep_counts_nothing_witness :
  exists st1,
    sweep stateWithOther = Val (st1, [Info_GC 0 0]) /\
    reclaimed st1 = 0%Z /\ total st1 = 0%Z /\ debugLevel st1 = 1.
Proof.
  exact (sweep_counts_nothing stateWithOther sampleList stateWithOther_holds).
Defined.

Lemma sweep_leaves_other_objects_witness :
  exists st1 d,
    sweep stateWithOther = Val (st1, d) /\
    heap st1 !! 9 = heap stateWithOther !! 9.
Proof.
  destruct (sweep stateWithOther) as [[st1 d]|k] eqn:E;
    [|vm_compute in E; discriminate E].
  exists st1, d. split; [reflexivity|].
  apply (sweep_leaves_other_objects stateWithOther st1 sampleList d
           stateWithOther_holds E 9).
  simpl. set_solver.
Defined.

Lemma sampleState_reachable : reachable sampleState.
Proof.
  unfold sampleState. repeat (apply reachable_new; [|reflexivity]).
  apply reachable_start.
Qed.

Lemma reachable_states_sweep_witness :
  (exists l, holds sampleState l /\
             forall a, a ∈ l.*1 <-> is_Some (heap sampleState !! a)) /\
  exists st1 d, sweep sampleState = Val (st1, d) /\ reachable st1.
Proof. exact (reachable_states_sweep sampleState sampleState_reachable). Defined.

Lemma sweepCallback_two_passes_witness :
  exists st1 st2,
    sweepCallback sampleState 3 = Val (st1, false) /\
    heap st1 !! 3 = Some (mkGC false (Some 2)) /\
    total st1 = 1%Z /\ reclaimed st1 = 0%Z /\
    sweepCallback st1 3 = Val (st2, true) /\
    heap st2 = heap st1 /\
    total st2 = 2%Z /\ reclaimed st2 = 1%Z.
Proof.
  destruct (sweepCallback_two_passes sampleState 3 (Some 2) eq_refl)
    as (st1 & st2 & H1 & Hh1 & Ht1 & Hr1 & H2 & Hh2 & Ht2 & Hr2 & _).
  exists st1, st2. rewrite Ht1, Hr1, Ht2, Hr2. by repeat split.
Defined.

Lemma uninit_calls_callbacks_once_witness :
  let registered := foldl registerUninitCallback startStatics [11; 12] in
  let s1 := mkStatics true [11; 12] in
  let s2 := mkStatics false [] in
  let s3 := mkStatics true [] in
  init registered = Val s1 /\
  uninit s1 = Val (s2, [11; 12]) /\
  init s2 = Val s3 /\ uninit s3 = Val (s2, []) /\
  init s1 = Fault AssertionFailed /\
  uninit s2 = Fault AssertionFailed /\
  (forall st gc marked,
      GC_operator_new s2 st gc marked = Fault AssertionFailed /\
      GC_operator_new s1 st gc marked = Val (operator_new st gc marked)).
Proof. exact (uninit_calls_callbacks_once startStatics [11; 12] eq_refl). Defined.

End GCMoreFacts.

Module ScopeChainFacts.
Import CFG Scopes ScopeSamples ScopeChains.

Lemma delegatesTo_forward h s n t :
  delegatesTo h s n t ->
  forall fuel,
    (forall d, addMember (n + fuel) h s d = addMember fuel h t d) /\
    (forall ident defs inherit,
        lookupMember (n + fuel) h s ident defs inherit
        = lookupMember fuel h t ident defs inherit) /\
    allowOverloads (n + fuel) h s = allowOverloads fuel h t /\
    getBaseExpr (n + fuel) h s = getBaseExpr fuel h t.
Proof.
  induction 1 as [s|s delegate parent n t Hs Hd IH]; intros fuel; [done|].
  destruct (IH fuel) as (Ha & Hl & Ho & Hb).
  simpl. rewrite Hs. by repeat split.
Qed.

Lemma delegatesTo_short h s n t :
  delegatesTo h s n t ->
  forall fuel, fuel <= n ->
    (forall d, addMember fuel h s d = Fault OutOfFuel) /\
    (forall ident defs inherit,
        lookupMember fuel h s ident defs inherit = Fault OutOfFuel) /\
    allowOverloads fuel h s = Fault OutOfFuel /\
    getBaseExpr fuel h s = Fault OutOfFuel.
Proof.
  induction 1 as [s|s delegate parent n t Hs Hd IH]; intros fuel Hle.
  - assert (fuel = 0) as -> by lia. done.
  - destruct fuel as [|fuel]; [done|].
    destruct (IH fuel) as (Ha & Hl & Ho & Hb); [lia|].
    simpl. rewrite Hs. by repeat split.
Qed.

(** X17: forwarding composes.  Through a chain of [n] delegating scopes,
    [addMember], [lookupMember], [allowOverloads] and [getBaseExpr] give what
    the scope at the end of the chain gives, [n] calls deeper. *)
Theorem delegating_chain_forwards (h : ScopeHeap) (s t : ScopePtr) (n : nat) :
  delegatesTo h s n t ->
  forall fuel,
    (forall d, addMember (n + fuel) h s d = addMember fuel h t d) /\
    (forall ident defs inherit,
        lookupMember (n + fuel) h s ident defs inherit
        = lookupMember fuel h t ident defs inherit) /\
    allowOverloads (n + fuel) h s = allowOverloads fuel h t /\
    getBaseExpr (n + fuel) h s = getBaseExpr fuel h t.
Proof. apply delegatesTo_forward. Qed.

(** X18: a delegating scope that is, through one or more delegating scopes,
    its own delegate answers none of the forwarded calls: each of them
    recurses without end, whatever the depth allowed.  [parentScope()], which
    is not forwarded, still returns. *)
Theorem delegation_cycle_never_returns (h : ScopeHeap) (s : ScopePtr) (n : nat) :
  delegatesTo h s (S n) s ->
  (exists delegate parent,
      h !! s = Some (DelegatingScope delegate parent) /\
      parentScope h s = Val parent) /\
  forall fuel,
    (forall d, addMember fuel h s d = Fault OutOfFuel) /\
    (forall ident defs inherit,
        lookupMember fuel h s ident defs inherit = Fault OutOfFuel) /\
    allowOverloads fuel h s = Fault OutOfFuel /\
    getBaseExpr fuel h s = Fault OutOfFuel.
Proof.
  intros Hc. split.
  { inversion Hc as [|s' delegate parent n' t Hs Hd]; subst.
    exists delegate, parent. split; [done|]. unfold parentScope. by rewrite Hs. }
  intros fuel. induction fuel as [fuel IH] using lt_wf_ind.
  destruct (le_lt_dec fuel (S n)) as [Hle|Hgt].
  - by apply (delegatesTo_short h s (S n) s).
  - replace fuel with (S n + (fuel - S n)) by lia.
    destruct (delegatesTo_forward h s (S n) s Hc (fuel - S n)) as (Ha & Hl & Ho & Hb).
    destruct (IH (fuel - S n)) as (Ha' & Hl' & Ho' & Hb'); [lia|].
    split; [intros d; by rewrite Ha|].
    split; [intros ident defs inherit; by rewrite Hl|].
    split; [by rewrite Ho | by rewrite Hb].
Qed.

(** X19: the classes of Scope.h never answer [allowOverloads()] with false
    or [getBaseExpr()] with an expression of their own.  When a scope gives
    such an answer, a chain of delegating scopes (possibly empty) leads from
    it to a scope of a class declared elsewhere, and the answer is the one
    that scope gives; when the chain ends in an [IterableScope] or a
    [LocalScope] the answers are true and null. *)
Theorem scope_answers_come_from_chain_end
    (fuel : nat) (h : ScopeHeap) (s : ScopePtr) :
  (allowOverloads fuel h s = Val false ->
     exists n t members_ p e,
       delegatesTo h s n t /\ h !! t = Some (OtherScope members_ p false e)) /\
  (forall e, getBaseExpr fuel h s = Val (Some e) ->
     exists n t members_ p b,
       delegatesTo h s n t /\ h !! t = Some (OtherScope members_ p b (Some e))) /\
  (forall n t members_ p,
     delegatesTo h s n t ->
     h !! t = Some (IterableScope members_ p) \/
       h !! t = Some (LocalScope members_ p) ->
     allowOverloads (n + S fuel) h s = Val true /\
     getBaseExpr (n + S fuel) h s = Val None).
Proof.
  split; [|split].
  - revert s. induction fuel as [|fuel IH]; intros s; [done|].
    simpl. destruct (h !! s) as [[m p|m p|delegate p|m p b e]|] eqn:Hs; try done.
    + intros H. destruct (IH delegate H) as (n & t & m' & p' & e' & Hd & Ht).
      exists (S n), t, m', p', e'. split; [|done].
      by eapply delegatesTo_step.
    + intros [= ->]. exists 0, s, m, p, e. split; [constructor|done].
  - revert s. induction fuel as [|fuel IH]; intros s e; [done|].
    simpl. destruct (h !! s) as [[m p|m p|delegate p|m p b e']|] eqn:Hs; try done.
    + intros H. destruct (IH delegate e H) as (n & t & m' & p' & b' & Hd & Ht).
      exists (S n), t, m', p', b'. split; [|done].
      by eapply delegatesTo_step.
    + intros [= ->]. exists 0, s, m, p, b. split; [constructor|done].
  - intros n t m p Hd Ht.
    destruct (delegatesTo_forward h s n t Hd (S fuel)) as (_ & _ & -> & ->).
    simpl. by destruct Ht as [-> | ->].
Qed.

Import MoreWorlds.

Lemma chainHeap_chain : delegatesTo chainHeap 4 2 1.
Proof.
  eapply delegatesTo_step; [reflexivity|].
  eapply delegatesTo_step; [reflexivity|]. apply delegatesTo_here.
Qed.

Lemma chainHeap_cycle : delegatesTo chainHeap 5 1 5.
Proof. eapply delegatesTo_step; [reflexivity|]. apply delegatesTo_here. Qed.

Lemma delegating_chain_forwards_witness :
  (forall d, addMember (2 + 3) chainHeap 4 d = addMember 3 chainHeap 1 d) /\
  (forall ident defs inherit,
      lookupMember (2 + 3) chainHeap 4 ident defs inherit
      = lookupMember 3 chainHeap 1 ident defs inherit) /\
  allowOverloads (2 + 3) chainHeap 4 = allowOverloads 3 chainHeap 1 /\
  getBaseExpr (2 + 3) chainHeap 4 = getBaseExpr 3 chainHeap 1.
Proof. exact (delegating_chain_forwards chainHeap 4 1 2 chainHeap_chain 3). Defined.

Lemma scope_answers_come_from_chain_end_witness :
  (allowOverloads 3 otherChain 8 = Val false /\
   exists n t members_ p e,
     delegatesTo otherChain 8 n t /\
     otherChain !! t = Some (OtherScope members_ p false e)) /\
  allowOverloads (2 + 1) chainHeap 4 = Val true /\
  getBaseExpr (2 + 1) chainHeap 4 = Val None.
Proof.
  split.
  - split; [reflexivity|].
    apply (proj1 (scope_answers_come_from_chain_end 3 otherChain 8)).
    reflexivity.
  - apply (proj2 (proj2 (scope_answers_come_from_chain_end 0 chainHeap 4))
             2 1 [] (Some 0) chainHeap_chain).
    left. reflexivity.
Defined.

Lemma delegation_cycle_never_returns_witness :
  (exists delegate parent,
      chainHeap !! 5 = Some (DelegatingScope delegate parent) /\
      parentScope chainHeap 5 = Val parent) /\
  forall fuel,
    (forall d, addMember fuel chainHeap 5 d = Fault OutOfFuel) /\
    (forall ident defs inherit,
        lookupMember fuel chainHeap 5 ident defs inherit = Fault OutOfFuel) /\
    allowOverloads fuel chainHeap 5 = Fault OutOfFuel /\
    getBaseExpr fuel chainHeap 5 = Fault OutOfFuel.
Proof. exact (delegation_cycle_never_returns chainHeap 5 0 chainHeap_cycle). Defined.

End ScopeChainFacts.

Module GenMoreFacts.
Import Types CFG Gen Samples GenSamples GenExpr TypeFacts.

Lemma getTypeIndex_from_member (l : list Ty) (t : Ty) (index : Z) :
  t ∈ l ->
  exists k : nat,
    getTypeIndex_from l t index = (index + Z.of_nat k)%Z /\
    l !! k = Some t /\
    forall j, j < k -> l !! j <> Some t.
Proof.
  revert index. induction l as [|m rest IH]; intros index Hin; [set_solver|].
  simpl. destruct (Ty_isEqual t m) eqn:E.
  - apply Ty_isEqual_true in E as ->. exists 0. simpl.
    split; [lia|]. split; [done|]. lia.
  - apply Ty_isEqual_false in E.
    apply elem_of_cons in Hin as [->|Hin]; [done|].
    destruct (IH (index + 1)%Z Hin) as (k & Hk & Hl & Hfirst).
    exists (S k). split; [lia|]. split; [done|].
    intros [|j] Hj; simpl; [congruence|]. apply Hfirst. lia.
Qed.

(** X20: for a union with a value-type or void member and a target type that
    is a member, the test reads the type index of the value -- by a load
    through the first field for an lvalue, by [extractvalue] otherwise -- and
    compares it with the position of the target among the members, the first
    one if the type is listed twice.  The comparison is the last instruction
    emitted and the value returned. *)
Theorem genUnionTypeTest_member (u : UnionType) (toType : Ty)
    (in_ : Value) (valIsLVal : bool) :
  (0 < numValueTypes u)%nat \/ hasVoidType u = true ->
  toType ∈ members u ->
  exists (k : nat) (reads : list Value),
    let actualTypeIndex :=
      if valIsLVal then CreateLoad (CreateConstInBoundsGEP2_32 in_ 0 0)
      else CreateExtractValue in_ 0 in
    let test := CreateICmpEQ actualTypeIndex
                  (ConstantInt_get actualTypeIndex (Z.of_nat k)) in
    genUnionTypeTest in_ u toType valIsLVal = Val (test, reads ++ [test]) /\
    last reads = Some actualTypeIndex /\
    members u !! k = Some toType /\
    (forall j, j < k -> members u !! j <> Some toType).
Proof.
  intros Htag Hin. unfold genUnionTypeTest.
  assert (E : ((0 <? numValueTypes u)%nat || hasVoidType u) = true).
  { destruct Htag as [H|H].
    - apply Nat.ltb_lt in H. by rewrite H.
    - rewrite H. apply orb_true_r. }
  rewrite E. unfold getTypeIndex.
  destruct (getTypeIndex_from_member (members u) toType 0 Hin)
    as (k & Hk & Hl & Hfirst).
  rewrite Z.add_0_l in Hk. rewrite Hk. exists k.
  assert (Hlt : (Z.of_nat k <? 0)%Z = false) by lia. rewrite Hlt.
  destruct valIsLVal.
  - exists [CreateConstInBoundsGEP2_32 in_ 0 0;
            CreateLoad (CreateConstInBoundsGEP2_32 in_ 0 0)].
    by repeat split.
  - exists [CreateExtractValue in_ 0]. by repeat split.
Qed.

(** X21: for a union of reference types only, the test returns only for a
    target that is a class or an interface: for any other type the
    [cast<CompositeType>] or the assertion of [genCompositeTypeTest] stops
    the generator.  What it returns is the call of [hasBase] on the type-info
    block loaded from the value and the type-info block of the target, which
    is also the last instruction emitted. *)
Theorem genUnionTypeTest_reference_union (u : UnionType) (toType : Ty)
    (in_ : Value) (valIsLVal : bool) (v : Value) (instrs : list Value) :
  numValueTypes u = 0 -> hasVoidType u = false ->
  genUnionTypeTest in_ u toType valIsLVal = Val (v, instrs) ->
  exists kind name typeArgs tib,
    toType = Composite kind name typeArgs /\
    (kind = Class \/ kind = Interface) /\
    v = CreateCall genFunctionValue_hasBase
          [tib; getTypeInfoBlockPtr (mkCompositeType kind name typeArgs)] /\
    last instrs = Some v /\
    Forall (fun i => i <> ConstantInt_getFalse) (v :: instrs).
Proof.
  intros Hn Hv. unfold genUnionTypeTest. rewrite Hn, Hv. simpl.
  destruct toType as [| kind name typeArgs | | | | | | | | | | | | |];
    try (destruct valIsLVal; simpl; discriminate).
  unfold genCompositeTypeTest.
  destruct kind; destruct valIsLVal; simpl; try discriminate;
    intros [= <- <-]; eexists _, _, _, _;
    (split; [reflexivity|]); (split; [auto|]); (split; [reflexivity|]);
    (split; [reflexivity|]); repeat constructor; discriminate.
Qed.

Section WithGenerator.
Variable genExpr : Expr -> Emit (option Value).

(** X22: [genInstanceOf] emits the code of its operand first.  When the
    operand could not be generated it returns null and emits nothing more.
    For an operand of union type it is [genUnionTypeTest] on the generated
    value, taken as a value and not as an lvalue; so for a union with a
    value-type or void member and a target that is not a member the result
    is the constant [false], after the operand's code and the read of the
    type index. *)
Theorem genInstanceOf_union (value : Expr) (toType : Ty) (ms : list Ty)
    (val : option Value) (code : list Value) :
  type value = Some (UnionTy ms) ->
  genExpr value = Val (val, code) ->
  match val with
  | None => genInstanceOf genExpr value toType = Val (None, code)
  | Some v =>
      (forall r instrs,
          genUnionTypeTest v (mkUnionType ms) toType false = Val (r, instrs) ->
          genInstanceOf genExpr value toType = Val (Some r, code ++ instrs)) /\
      (forall k,
          genUnionTypeTest v (mkUnionType ms) toType false = Fault k ->
          genInstanceOf genExpr value toType = Fault k) /\
      ((0 < numValueTypes (mkUnionType ms))%nat \/
       hasVoidType (mkUnionType ms) = true ->
       getTypeIndex (mkUnionType ms) toType = (-1)%Z ->
       genInstanceOf genExpr value toType =
         Val (Some ConstantInt_getFalse, code ++ [CreateExtractValue v 0]))
  end.
Proof.
  intros Hty Hgen. unfold genInstanceOf. rewrite Hty, Hgen.
  destruct val as [v|]; simpl; [|by rewrite app_nil_r].
  split; [|split].
  - intros r instrs ->. simpl. by rewrite app_nil_r.
  - by intros k ->.
  - intros Htag Hidx. unfold genUnionTypeTest.
    assert (E : ((0 <? numValueTypes (mkUnionType ms))%nat
                 || hasVoidType (mkUnionType ms)) = true).
    { destruct Htag as [H|H].
      - apply Nat.ltb_lt in H. by rewrite H.
      - rewrite H. apply orb_true_r. }
    rewrite E, Hidx. simpl. done.
Qed.

End WithGenerator.

Section WithHierarchy.
Variable isSubclassOf : CompositeType -> CompositeType -> bool.
Variable super : CompositeType -> option CompositeType.
Variable isPointerTy : Value -> bool.

Lemma cast_CompositeType_type (c : CompositeType) :
  cast_CompositeType (CompositeType_type c) = Val c.
Proof. by destruct c. Qed.

Lemma upcastIndices_distance (m : nat) :
  forall fuel c toType indices,
    superN super m c = Some toType ->
    (forall k c', k < m -> superN super k c = Some c' ->
                  sameType c' toType = false) ->
    m < fuel ->
    upcastIndices super fuel c toType indices
      = Val (indices ++ replicate m (getInt32Val 0)).
Proof.
  induction m as [|m IH]; intros fuel c toType indices Hsup Hmin Hfuel;
    (destruct fuel as [|fuel]; [lia|]); simpl in *.
  - injection Hsup as ->. unfold sameType. rewrite Ty_isEqual_refl.
    by rewrite app_nil_r.
  - rewrite (Hmin 0 c) by (done || lia).
    destruct (super c) as [s|] eqn:Hs; [|done].
    rewrite (IH fuel s toType); [by rewrite <- app_assoc|done| |lia].
    intros k c' Hk Hc'. apply (Hmin (S k) c'); [lia|]. simpl. by rewrite Hs.
Qed.

(** X23: [genUpCastInstr] emits nothing for a cast of a type to itself and
    returns the value.  For a class [toType] that is the [n+1]-th supertype
    of [fromType], and no nearer one, it emits one [getelementptr] on the
    value with [n+2] zero indices -- one to step through the pointer and one
    for each supertype passed -- and returns it. *)
Theorem genUpCastInstr_indices (n fuel : nat) (val : Value)
    (fromType toType : CompositeType) :
  superN super (S n) fromType = Some toType ->
  (forall k c, k <= n -> superN super k fromType = Some c ->
               sameType c toType = false) ->
  isSubclassOf fromType toType = true ->
  isPointerTy val = true ->
  ct_kind toType <> Interface ->
  S n < fuel ->
  let gep := CreateInBoundsGEP val (replicate (S (S n)) (getInt32Val 0)) in
  genUpCastInstr isSubclassOf super isPointerTy fuel val
    (CompositeType_type fromType) (CompositeType_type toType)
    = Val (gep, [gep]) /\
  genUpCastInstr isSubclassOf super isPointerTy fuel val
    (CompositeType_type fromType) (CompositeType_type fromType)
    = Val (val, []).
Proof.
  intros Hsup Hmin Hsub Hptr Hkind Hfuel gep. split.
  - unfold genUpCastInstr.
    assert (Hne : sameType fromType toType = false) by (apply (Hmin 0); [lia|done]).
    unfold sameType in Hne. rewrite Hne, !cast_CompositeType_type, Hsub, Hptr.
    simpl.
    rewrite (upcastIndices_distance (S n) fuel fromType toType [getInt32Val 0]);
      [|done| |done].
    + by destruct (ct_kind toType).
    + intros k c' Hk. apply Hmin. lia.
  - unfold genUpCastInstr. by rewrite Ty_isEqual_refl.
Qed.

End WithHierarchy.

Import MoreWorlds.

Lemma genUnionTypeTest_member_witness :
  exists (k : nat) (reads : list Value),
    let actualTypeIndex := CreateExtractValue (Incoming 0) 0 in
    let test := CreateICmpEQ actualTypeIndex
                  (ConstantInt_get actualTypeIndex (Z.of_nat k)) in
    genUnionTypeTest (Incoming 0) unionIntString tyString false
      = Val (test, reads ++ [test]) /\
    last reads = Some actualTypeIndex /\
    members unionIntString !! k = Some tyString /\
    (forall j, j < k -> members unionIntString !! j <> Some tyString).
Proof.
  apply (genUnionTypeTest_member unionIntString tyString (Incoming 0) false).
  - left. vm_compute. lia.
  - simpl. set_solver.
Defined.

Lemma genUnionTypeTest_reference_union_witness :
  exists v instrs kind name typeArgs tib,
    genUnionTypeTest (Incoming 0) unionAB classC false = Val (v, instrs) /\
    classC = Composite kind name typeArgs /\
    (kind = Class \/ kind = Interface) /\
    v = CreateCall genFunctionValue_hasBase
          [tib; getTypeInfoBlockPtr (mkCompositeType kind name typeArgs)] /\
    last instrs = Some v /\
    Forall (fun i => i <> ConstantInt_getFalse) (v :: instrs).
Proof.
  destruct (genUnionTypeTest (Incoming 0) unionAB classC false)
    as [[v instrs]|k] eqn:E; [|vm_compute in E; discriminate E].
  destruct (genUnionTypeTest_reference_union unionAB classC (Incoming 0) false
              v instrs eq_refl eq_refl E)
    as (kind & name & typeArgs & tib & H).
  exists v, instrs, kind, name, typeArgs, tib. split; [reflexivity|exact H].
Defined.

Lemma genInstanceOf_union_witness :
  genInstanceOf genOperand expr_union classC
    = Val (Some ConstantInt_getFalse,
           [CreateLoad (Incoming 6); CreateExtractValue (Incoming 7) 0]).
Proof.
  destruct (genInstanceOf_union genOperand expr_union classC
              [tyInt32; tyString] (Some (Incoming 7)) [CreateLoad (Incoming 6)]
              eq_refl eq_refl) as (_ & _ & H).
  apply H; [left; vm_compute; lia|reflexivity].
Defined.

Lemma genUpCastInstr_indices_witness :
  let gep := CreateInBoundsGEP (Incoming 0)
               [getInt32Val 0; getInt32Val 0; getInt32Val 0] in
  genUpCastInstr (fun _ _ => true) sampleSuper (fun _ => true) 3 (Incoming 0)
    (CompositeType_type ctC) (CompositeType_type ctA) = Val (gep, [gep]) /\
  genUpCastInstr (fun _ _ => true) sampleSuper (fun _ => true) 3 (Incoming 0)
    (CompositeType_type ctC) (CompositeType_type ctC) = Val (Incoming 0, []).
Proof.
  apply (genUpCastInstr_indices (fun _ _ => true) sampleSuper (fun _ => true)
           1 3 (Incoming 0) ctC ctA); try done.
  - intros k c Hk Hc. destruct k as [|[|k]]; [| |lia].
    + by injection Hc as <-.
    + by injection Hc as <-.
  - lia.
Defined.

End GenMoreFacts.

Module ExprUtilFacts.
Import Types CFG ExprUtil.

Lemma append_assoc (a b c : string) : (a +:+ b) +:+ c = a +:+ (b +:+ c).
Proof.
  induction a as [|x a IH]; [done|].
  change (String x ((a +:+ b) +:+ c) = String x (a +:+ (b +:+ c))).
  by rewrite IH.
Qed.

Lemma append_nil_r (a : string) : a +:+ "" = a.
Proof.
  induction a as [|x a IH]; [done|].
  change (String x (a +:+ "") = String x a). by rewrite IH.
Qed.

Lemma concat_cons2 (sep x y : string) (l : list string) :
  String.concat sep (x :: y :: l) = x +:+ sep +:+ String.concat sep (y :: l).
Proof. done. Qed.

Lemma formatList_loop_rest {A} (print : A -> string) (l : list A) (out : string) :
  formatList_loop print false l out =
  out +:+ match l with
          | [] => ""
          | _ :: _ => ", " +:+ String.concat ", " (map print l)
          end.
Proof.
  revert out. induction l as [|x rest IH]; intros out.
  - simpl. by rewrite append_nil_r.
  - cbn [formatList_loop negb]. rewrite IH.
    destruct rest as [|y rest].
    + cbn [map String.concat]. by rewrite append_nil_r, append_assoc.
    + cbn [map]. rewrite (concat_cons2 ", " (print x)). cbn [map].
      by rewrite !append_assoc.
Qed.

Lemma formatList_loop_concat {A} (print : A -> string) (l : list A) (out : string) :
  formatList_loop print true l out = out +:+ String.concat ", " (map print l).
Proof.
  destruct l as [|x rest].
  - simpl. by rewrite append_nil_r.
  - cbn [formatList_loop negb]. rewrite formatList_loop_rest.
    destruct rest as [|y rest].
    + cbn [map String.concat]. by rewrite append_nil_r.
    + cbn [map]. rewrite (concat_cons2 ", " (print x)). cbn [map].
      by rewrite !append_assoc.
Qed.

(** X24: [formatExprList], [formatExprTypeList] and [formatTypeList] append
    to the stream the printed elements joined by a comma and a blank:
    nothing for an empty list, no separator before the first element or
    after the last. *)
Theorem formatList_joins_with_commas (printExpr : Expr -> string)
    (printType : option Ty -> string) (out : FormatStream) :
  (forall exprs,
      formatExprList printExpr out exprs
      = out +:+ String.concat ", " (map printExpr exprs)) /\
  (forall exprs,
      formatExprTypeList printType out exprs
      = out +:+ String.concat ", " (map (fun e => printType (type e)) exprs)) /\
  (forall types,
      formatTypeList printType out types
      = out +:+ String.concat ", " (map printType types)).
Proof.
  split; [|split]; intros l; apply formatList_loop_concat.
Qed.

Section WithDefns.
Variable isLet : ValueDefn -> bool.
Variable initValue : VariableDefn -> option Expr.
Variable isConstantExpr : Expr -> bool.

(** X25: [LValueExpr::constValue] returns its argument unless that is an
    lvalue naming a let-variable whose initial value is a constant
    expression, which it then returns.  Since an lvalue is not a constant
    expression, applying it twice is applying it once. *)
Theorem constValue_idempotent (in_ : Expr) :
  (forall ty base value, isConstantExpr (LValueExpr ty base value) = false) ->
  let out := constValue isLet initValue isConstantExpr in_ in
  constValue isLet initValue isConstantExpr out = out /\
  (out = in_ \/
   isConstantExpr out = true /\
   exists ty base var,
     in_ = LValueExpr ty base (VVariable var) /\
     isLet (VVariable var) = true /\ initValue var = Some out).
Proof.
  intros Hclass out. subst out.
  destruct in_ as [| | | | |ty base [f|var]| | | | | | | | |];
    try (split; [done|by left]).
  - cbn [constValue].
    destruct (isLet (VFunction f)) eqn:El; cbn [constValue]; rewrite El;
      (split; [done|by left]).
  - cbn [constValue].
    destruct (isLet (VVariable var)) eqn:El.
    2:{ cbn [constValue]. rewrite El. split; [done|by left]. }
    destruct (initValue var) as [cexp|] eqn:Ei.
    2:{ cbn [constValue]. rewrite El, Ei. split; [done|by left]. }
    destruct (isConstantExpr cexp) eqn:Ec.
    2:{ cbn [constValue]. rewrite El, Ei, Ec. split; [done|by left]. }
    split.
    + destruct cexp as [| | | | |ty' base' value'| | | | | | | | |]; try done.
      by rewrite Hclass in Ec.
    + right. split; [done|]. by exists ty, base, var.
Qed.

End WithDefns.

Import Samples CallSamples MoreWorlds.

Lemma constValue_idempotent_witness :
  let in_ := LValueExpr tyInt32 None (VVariable var_v) in
  let out := constValue (fun _ => true) (fun _ => Some constantOne)
                        isConstantNode in_ in
  constValue (fun _ => true) (fun _ => Some constantOne) isConstantNode out
    = out /\
  (out = in_ \/
   isConstantNode out = true /\
   exists ty base var,
     in_ = LValueExpr ty base (VVariable var) /\
     true = true /\ Some constantOne = Some out).
Proof.
  exact (constValue_idempotent (fun _ => true) (fun _ => Some constantOne)
           isConstantNode (LValueExpr tyInt32 None (VVariable var_v))
           (fun _ _ _ => eq_refl)).
Defined.

End ExprUtilFacts.

Module UnificationFacts.
Import Unification.

Lemma getSubstitutionFor_from_spec :
  forall (s : Substitution) (l : TypePtr),
  match getSubstitutionFor_from s l with
  | Some found =>
      left found = l /\
      exists newer older,
        chain_from s = newer ++ found :: older /\
        Forall (fun n => left n <> l) newer
  | None => Forall (fun n => left n <> l) (chain_from s)
  end.
Proof.
  fix IH 1. intros [l0 r lo up p] l.
  cbn [getSubstitutionFor_from chain_from left].
  destruct (Nat.eqb_spec l0 l) as [->|Hne].
  - split; [done|].
    exists [], (match p with Some q => chain_from q | None => [] end).
    by split.
  - destruct p as [q|]; [|by repeat constructor].
    specialize (IH q l).
    destruct (getSubstitutionFor_from q l) as [found|].
    + destruct IH as (Hl & newer & older & Hc & Hn). split; [done|].
      exists (mkSubstitution l0 r lo up (Some q) :: newer), older.
      split; [by rewrite Hc|]. by constructor.
    + by constructor.
Qed.

(** X26: [getSubstitutionFor(left)] returns the newest substitution of the
    chain whose left side is the given type, compared by address, and null
    when there is none.  So a substitution put at the head of the chain is
    the one found for its left side, hiding any older one, while the lookup
    of every other type is as before; with the three-argument constructor
    its [right()] is the lower bound.  A copy of the environment shares the
    chain, and an empty environment finds nothing. *)
Theorem getSubstitutionFor_newest (env : BindingEnv) (l : TypePtr) :
  match getSubstitutionFor env l with
  | Some found =>
      left found = l /\
      exists newer older,
        chain env = newer ++ found :: older /\
        Forall (fun n => left n <> l) newer
  | None => Forall (fun n => left n <> l) (chain env)
  end /\
  (forall upper lower,
      let s := Substitution_bounds l upper lower (substitutions env) in
      let env' := setSubstitutions env (Some s) in
      getSubstitutionFor env' l = Some s /\
      right s = lower /\ lowerBound s = lower /\ upperBound s = upper /\
      empty env' = false /\
      forall l', l' <> l ->
        getSubstitutionFor env' l' = getSubstitutionFor env l') /\
  (forall r,
      let s := Substitution_new l r (substitutions env) in
      getSubstitutionFor (setSubstitutions env (Some s)) l = Some s /\
      right s = r /\ lowerBound s = r /\ upperBound s = r) /\
  getSubstitutionFor (BindingEnv_copy env) l = getSubstitutionFor env l /\
  getSubstitutionFor BindingEnv_new l = None /\
  (empty env = true -> getSubstitutionFor env l = None).
Proof.
  split; [|split; [|split; [|split; [|split]]]].
  - unfold getSubstitutionFor, chain. destruct (substitutions_ env) as [s|].
    + apply getSubstitutionFor_from_spec.
    + constructor.
  - intros upper lower s env'. unfold getSubstitutionFor. simpl.
    rewrite Nat.eqb_refl. repeat split; try done.
    intros l' Hne. destruct (Nat.eqb_spec l l') as [->|_]; [done|].
    unfold substitutions. by destruct (substitutions_ env).
  - intros r s. unfold getSubstitutionFor. simpl. by rewrite Nat.eqb_refl.
  - done.
  - done.
  - unfold empty, getSubstitutionFor. by destruct (substitutions_ env).
Qed.

End UnificationFacts.

Module BuiltinFacts.
Import Types CFG Gen Sema CallFacts BuiltinTypes.

(** X27: a system class is loaded at most once.  When [get()] has returned
    a type, the object holds it, and every later [get()] returns the same
    type and object without asking the package manager, whatever that would
    now answer.  It returns only if the module is found, its primary
    definition is a type definition and the type a composite type. *)
Theorem SystemClass_get_caches
    (getModuleForImportPath : string -> option (option Defn))
    (sc sc' : SystemClass) (t : CompositeType) :
  get getModuleForImportPath sc = Val (t, sc') ->
  typeName_ sc' = typeName_ sc /\ type_ sc' = Some t /\
  (forall other, get other sc' = Val (t, sc')) /\
  (type_ sc = None ->
   exists tdef,
     getModuleForImportPath (typeName_ sc) = Some (Some (DType tdef)) /\
     td_typeValue tdef = CompositeType_type t).
Proof.
  unfold get. destruct (type_ sc) as [t0|] eqn:Et.
  - intros [= <- <-]. rewrite Et. by repeat split.
  - unfold loadSystemType, loadSystemDef, loadSystemModule.
    destruct (getModuleForImportPath (typeName_ sc)) as [[[v|tdef|a n]|]|];
      try done.
    simpl. destruct (cast_CompositeType (td_typeValue tdef)) as [ct|] eqn:Ec;
      [|done].
    simpl. intros [= <- <-]. simpl. repeat split; try done.
    intros _. exists tdef. split; [done|].
    destruct (td_typeValue tdef); try done. simpl in Ec. by injection Ec as <-.
Qed.

(** X28: [getSingleDefn] returns a definition only for a composite type in
    which the lookup of the name, without inherited members, succeeds with
    exactly that one definition; it then writes nothing.  For every other
    type, and for a lookup that fails, finds nothing or finds more than one
    definition, it does not return. *)
Theorem getSingleDefn_unique
    (lookupMember : CompositeType -> string -> bool -> bool * list Defn)
    (analyzeType : Ty -> Task -> bool)
    (type : Ty) (name : string) (d : Defn) (log : list BuiltinDiag) :
  getSingleDefn lookupMember analyzeType type name = Val (d, log) ->
  log = [] /\
  exists kind cname typeArgs,
    type = Composite kind cname typeArgs /\
    lookupMember (mkCompositeType kind cname typeArgs) name false = (true, [d]).
Proof.
  unfold getSingleDefn. intros H.
  apply w_bind_Val in H as (defs & la & lb & Hdefs & H & ->).
  destruct defs as [|d0 rest]; [done|]. injection H as <- <-.
  destruct type as [| kind cname typeArgs | | | | | | | | | | | | |];
    try (by injection Hdefs).
  destruct (lookupMember (mkCompositeType kind cname typeArgs) name false)
    as [found out] eqn:El.
  apply w_bind_Val in Hdefs as (u & lc & ld & Hfound & Hdefs & ->).
  destruct found; cbn [negb] in Hfound.
  2:{ apply w_bind_Val in Hfound as (? & ? & ? & _ & Hf & _). done. }
  injection Hfound as _ <-.
  apply w_bind_Val in Hdefs as (u2 & le & lf & Hsize & Hdefs & ->).
  apply dassert_Val in Hsize as [Hsize ->].
  injection Hdefs as Hout <-. simpl in Hout. subst out.
  split; [done|]. exists kind, cname, typeArgs. split; [done|].
  destruct rest as [|d1 rest]; [done|]. done.
Qed.

Lemma firstTemplate_spec (coercers : list FunctionDefn) :
  match firstTemplate coercers with
  | Some f =>
      fn_isTemplate f = true /\
      exists before after,
        coercers = before ++ f :: after /\
        Forall (fun g => fn_isTemplate g = false) before
  | None => Forall (fun g => fn_isTemplate g = false) coercers
  end.
Proof.
  induction coercers as [|g rest IH]; simpl; [done|].
  destruct (fn_isTemplate g) eqn:Eg.
  - split; [done|]. by exists [], rest.
  - destruct (firstTemplate rest) as [f|].
    + destruct IH as (Hf & before & after & -> & Hb). split; [done|].
      exists (g :: before), after. split; [done|]. by constructor.
    + by constructor.
Qed.

(** X29: [objectCoerceFn] returns the first of the coercers of [Object]
    that is a template, and null when [Object] cannot be analyzed for
    conversion or none of its coercers is a template. *)
Theorem objectCoerceFn_first_template (X : Externals) :
  let typeObject := CompositeType_type Builtins_typeObject in
  match objectCoerceFn X with
  | Some f =>
      Sema.analyzeType X typeObject Task_PrepConversion = true /\
      fn_isTemplate f = true /\
      exists before after,
        coercers X typeObject = before ++ f :: after /\
        Forall (fun g => fn_isTemplate g = false) before
  | None =>
      Sema.analyzeType X typeObject Task_PrepConversion = false \/
      Forall (fun g => fn_isTemplate g = false) (coercers X typeObject)
  end.
Proof.
  cbv zeta. unfold objectCoerceFn.
  destruct (Sema.analyzeType X _ Task_PrepConversion); cbn [negb]; [|by left].
  pose proof (firstTemplate_spec (coercers X (CompositeType_type Builtins_typeObject))) as H.
  destruct (firstTemplate _) as [f|]; [|by right].
  by destruct H.
Qed.

Import Samples CallSamples MoreWorlds.

Lemma SystemClass_get_caches_witness :
  let sc := mkSystemClass "tart.core.String" None in
  let t := mkCompositeType Class "tart.core.String" [] in
  let sc' := mkSystemClass "tart.core.String" (Some t) in
  get samplePackages sc = Val (t, sc') /\
  forall other, get other sc' = Val (t, sc').
Proof.
  split; [reflexivity|].
  exact (proj1 (proj2 (proj2
           (SystemClass_get_caches samplePackages
              (mkSystemClass "tart.core.String" None) _ _ eq_refl)))).
Defined.

Lemma getSingleDefn_unique_witness :
  exists d,
    getSingleDefn sampleMembers (fun _ _ => true) tyString "hasBase"
      = Val (d, []) /\
    exists kind cname typeArgs,
      tyString = Composite kind cname typeArgs /\
      sampleMembers (mkCompositeType kind cname typeArgs) "hasBase" false
        = (true, [d]).
Proof.
  eexists. split; [reflexivity|].
  exact (proj2 (getSingleDefn_unique sampleMembers (fun _ _ => true) tyString
                  "hasBase" _ _ eq_refl)).
Defined.

End BuiltinFacts.
